(** * tsv7_ult_quotes_to_origl_quotes: a shallow embedding

    The embedded program is [src/core/tsv7_ult_quotes_to_origl_quotes.js].
    JavaScript strings are sequences of UTF-16 code units; every regular
    expression of the source works on single code units of the Basic
    Multilingual Plane, so a string is modelled as a list of code units
    ([N]).  Exceptions are modelled by the [result] monad; arrays by
    lists; objects used as maps by [gmap]; a property that may be
    [undefined] by [option]. *)

From Stdlib Require Import NArith ZArith String Ascii DecimalPos DecimalN.
From stdpp Require Import base option list gmap.

Local Open Scope N_scope.

(** ** JavaScript strings *)

Module JS.

Abbreviation jsstring := (list N).

(** ASCII literals of the source, written as Rocq strings. *)
Fixpoint js (s : string) : jsstring :=
  match s with
  | EmptyString => []
  | String a s' => N_of_ascii a :: js s'
  end.

Definition ELLIPSIS : N := 0x2026.   (* '…' *)
Definition AMPERSAND : N := 38.      (* '&' *)
Definition MAQAF : N := 0x05BE.      (* '־' *)
Definition PASEQ : N := 0x05C0.      (* '׀' *)
Definition SPACE : N := 32.
Definition HYPHEN : N := 45.
Definition COLON : N := 58.
Definition COMMA : N := 44.
Definition SLASH : N := 47.

Definition in_range (lo hi c : N) : bool := (lo <=? c) && (c <=? hi).

(** [\s] of a regular expression and the characters removed by [trim]:
    WhiteSpace and LineTerminator of ECMAScript. *)
Definition isWhiteSpace (c : N) : bool :=
  in_range 9 13 c || (c =? 32) || (c =? 0xA0) || (c =? 0x1680)
  || in_range 0x2000 0x200A c || (c =? 0x2028) || (c =? 0x2029)
  || (c =? 0x202F) || (c =? 0x205F) || (c =? 0x3000) || (c =? 0xFEFF).

Definition eqb (s t : jsstring) : bool := bool_decide (s = t).

Fixpoint startsWith (pat s : jsstring) : bool :=
  match pat, s with
  | [], _ => true
  | p :: pat', c :: s' => (p =? c) && startsWith pat' s'
  | _ :: _, [] => false
  end.

(** [s.indexOf(pat)], [-1] when [pat] does not occur. *)
Fixpoint indexOf_from (pat s : jsstring) (i : Z) : Z :=
  if startsWith pat s then i
  else match s with
       | [] => (-1)%Z
       | _ :: s' => indexOf_from pat s' (i + 1)%Z
       end.

Definition indexOf (s pat : jsstring) : Z := indexOf_from pat s 0%Z.

Definition includes (s pat : jsstring) : bool :=
  negb (indexOf s pat =? -1)%Z.

(** [s.replace(pat, repl)] with a string pattern: the first occurrence. *)
Fixpoint replace_first (pat repl s : jsstring) : jsstring :=
  if startsWith pat s then repl ++ drop (length pat) s
  else match s with
       | [] => []
       | c :: s' => c :: replace_first pat repl s'
       end.

(** [s.split(re)] and [s.split(sep)] where the separator is one code unit
    of the class [p]: every separator ends a piece, so a string without
    separator (also the empty one) gives one piece. *)
Fixpoint split_on (p : N → bool) (s : jsstring) : list jsstring :=
  match s with
  | [] => [[]]
  | c :: s' =>
      if p c then [] :: split_on p s'
      else match split_on p s' with
           | piece :: pieces => (c :: piece) :: pieces
           | [] => [[c]]
           end
  end.

Definition split_char (sep : N) : jsstring → list jsstring :=
  split_on (N.eqb sep).

(** A regular expression is given by its anchored matcher: the number of
    code units the leftmost-greedy match consumes at the start of the
    string, if it matches there.  [replace_re] is [s.replace(re, repl)]
    without the [g] flag, [split_re] is [s.split(re)]; [skip] counts the
    code units of a match still to be passed over. *)
Fixpoint replace_re (m : jsstring → option nat) (repl s : jsstring) : jsstring :=
  match m s with
  | Some n => repl ++ drop n s
  | None => match s with
            | [] => []
            | c :: s' => c :: replace_re m repl s'
            end
  end.

Fixpoint split_re_go (m : jsstring → option nat) (skip : nat)
    (piece : jsstring) (s : jsstring) : list jsstring :=
  match s with
  | [] => [reverse piece]
  | c :: s' =>
      match skip with
      | S k => split_re_go m k piece s'
      | O => match m s with
             | Some n => reverse piece :: split_re_go m (pred n) [] s'
             | None => split_re_go m O (c :: piece) s'
             end
      end
  end.

Definition split_re (m : jsstring → option nat) (s : jsstring) : list jsstring :=
  split_re_go m O [] s.

Fixpoint count_while (p : N → bool) (s : jsstring) : nat :=
  match s with
  | c :: s' => if p c then S (count_while p s') else O
  | [] => O
  end.

(** [p*…p*] at the start of [s]: [p] is [\s] in [getTidiedData] and the
    space in the variant split.  The ellipsis is not in [p], so the
    greedy star never has to give code units back. *)
Definition around_ellipsis (p : N → bool) (s : jsstring) : option nat :=
  let n1 := count_while p s in
  match drop n1 s with
  | c :: r => if c =? ELLIPSIS then Some (n1 + 1 + count_while p r)%nat else None
  | [] => None
  end.

(** [arr.join(sep)] on an array of strings. *)
Fixpoint join (sep : jsstring) (l : list jsstring) : jsstring :=
  match l with
  | [] => []
  | [s] => s
  | s :: l' => s ++ sep ++ join sep l'
  end.

(** [s.trim()] *)
Definition trimStart (s : jsstring) : jsstring := drop (count_while isWhiteSpace s) s.
Definition trim (s : jsstring) : jsstring := reverse (trimStart (reverse (trimStart s))).

(** [s.replace(/([a-z])/, (match) => match.toUpperCase())] *)
Fixpoint upperFirstLower (s : jsstring) : jsstring :=
  match s with
  | [] => []
  | c :: s' => if in_range 97 122 c then (c - 32) :: s' else c :: upperFirstLower s'
  end.

(** Numbers.  The source only handles verse numbers and lengths; they are
    modelled as exact integers with [None] for [NaN], which agrees with
    the double arithmetic of the source below 2^53. *)
Abbreviation jsnum := (option Z).

Definition digit_value (radix : N) (c : N) : option N :=
  let v := if in_range 48 57 c then Some (c - 48)
           else if in_range 97 122 c then Some (c - 87)
           else if in_range 65 90 c then Some (c - 55)
           else None in
  match v with
  | Some d => if d <? radix then Some d else None
  | None => None
  end.

Fixpoint parse_digits (radix : N) (s : jsstring) (acc : option N) : option N :=
  match s with
  | [] => acc
  | c :: s' =>
      match digit_value radix c with
      | Some d => parse_digits radix s' (Some (default 0 acc * radix + d))
      | None => acc
      end
  end.

(** [parseInt(s)] without radix argument. *)
Definition parseInt (s : jsstring) : jsnum :=
  let s1 := trimStart s in
  let '(neg, s2) := match s1 with
                    | 45 :: r => (true, r)
                    | 43 :: r => (false, r)
                    | _ => (false, s1)
                    end in
  let '(radix, s3) := match s2 with
                      | 48 :: 120 :: r | 48 :: 88 :: r => (16, r)
                      | _ => (10, s2)
                      end in
  match parse_digits radix s3 None with
  | Some n => Some (if neg then - Z.of_N n else Z.of_N n)%Z
  | None => None
  end.

Fixpoint uint_digits (d : Decimal.uint) : jsstring :=
  match d with
  | Decimal.Nil => []
  | Decimal.D0 d' => 48 :: uint_digits d'
  | Decimal.D1 d' => 49 :: uint_digits d'
  | Decimal.D2 d' => 50 :: uint_digits d'
  | Decimal.D3 d' => 51 :: uint_digits d'
  | Decimal.D4 d' => 52 :: uint_digits d'
  | Decimal.D5 d' => 53 :: uint_digits d'
  | Decimal.D6 d' => 54 :: uint_digits d'
  | Decimal.D7 d' => 55 :: uint_digits d'
  | Decimal.D8 d' => 56 :: uint_digits d'
  | Decimal.D9 d' => 57 :: uint_digits d'
  end.

(** The string of a number in a template literal: the decimal digits,
    as the source prints the integers below 1e21 (a double from 1e21 on is
    printed with an exponent). *)
Definition num_toString (x : jsnum) : jsstring :=
  match x with
  | None => js "NaN"
  | Some z =>
      (if (z <? 0)%Z then [HYPHEN] else []) ++ uint_digits (N.to_uint (Z.abs_N z))
  end.

Definition nat_toString (n : nat) : jsstring := num_toString (Some (Z.of_nat n)).

(** The string of a possibly undefined string in a template literal. *)
Definition opt_toString (x : option jsstring) : jsstring :=
  default (js "undefined") x.

Definition bool_toString (b : bool) : jsstring :=
  if b then js "true" else js "false".

End JS.
Import JS.


(** ** Exceptions *)

Inductive JsError : Type :=
  | TypeError (msg : string).

Inductive result (A : Type) : Type :=
  | Ok (a : A)
  | Throw (e : JsError).
Arguments Ok {A} a.
Arguments Throw {A} e.

#[global] Instance result_ret : MRet result := λ A a, Ok a.
#[global] Instance result_bind : MBind result := λ A B f m,
  match m with
  | Ok a => f a
  | Throw e => Throw e
  end.
#[global] Instance result_fmap : FMap result := λ A B f m,
  match m with
  | Ok a => Ok (f a)
  | Throw e => Throw e
  end.

(** Reading a property of [undefined]. *)
Definition undefined_property {A} (prop : string) : result A :=
  Throw (TypeError ("Cannot read properties of undefined (reading '" ++ prop ++ "')")).

(** ** Data model *)

(** A token as the alignment query returns it. *)
Record Token : Type := mkToken {
  subType : jsstring;
  payload : jsstring;
  position : Z;
  scopes : list jsstring;
}.

(** A gloss token after [({ subType, position, ...rest }) => rest]. *)
Record GLToken : Type := mkGLToken {
  gl_payload : jsstring;
  gl_scopes : list jsstring;
}.

(** The array [[word, followsEllipsis]] that [searchULTWordRecords] builds,
    with the scopes array once it has been pushed. *)
Record MatchTriple : Type := mkTriple {
  word : jsstring;
  followsEllipsis : bool;
  alignment : option (list jsstring);
}.

(** The object [origLFromGLQuote] returns: [{ data }] or [{ error }];
    the resolver later assigns [data] on such an object. *)
Record ResultObject : Type := mkResult {
  data : option (list jsstring);
  error : option jsstring;
}.

(** A row of the table; every field is a string or missing. *)
Record TsvRecord : Type := mkRecord {
  tsv_ref : option jsstring;
  tsv_id : option jsstring;
  tsv_quote : option jsstring;
  tsv_occurrence : option jsstring;
  tsv_others : list (jsstring * jsstring);
}.

Definition set_quote (r : TsvRecord) (q : jsstring) : TsvRecord :=
  {| tsv_ref := tsv_ref r; tsv_id := tsv_id r; tsv_quote := Some q;
     tsv_occurrence := tsv_occurrence r; tsv_others := tsv_others r |}.

Definition set_occurrence (r : TsvRecord) (o : option jsstring) : TsvRecord :=
  {| tsv_ref := tsv_ref r; tsv_id := tsv_id r; tsv_quote := tsv_quote r;
     tsv_occurrence := o; tsv_others := tsv_others r |}.

Record BookData : Type := mkBookData {
  testament : option jsstring;
}.

(** [tokenLookup[abbr][book][cv]] as [doAlignmentQuery] leaves it. *)
Abbreviation TokenLookup := (gmap jsstring (gmap jsstring (gmap jsstring (list Token)))).

(** The collaborators of the core that are not part of the embedded file:
    the imported helpers and tables, and the built-ins whose full
    definition (JSON escaping, Unicode case tables) plays no role. *)
Class Collaborators : Type := {
  SlimToken : Type;
  slim_payload : SlimToken → jsstring;
  slimSourceTokens : list Token → list SlimToken;
  parseTsvToObjects : jsstring → list TsvRecord;
  tsvRecordToString : TsvRecord → jsstring;
  BibleBookData : gmap jsstring BookData;
  JSON_stringify_GL : list GLToken → jsstring;
  JSON_stringify_slim : list SlimToken → jsstring;
  toUpperCase : jsstring → jsstring;
  toLowerCase : jsstring → jsstring;
}.

(** ** The core: gloss matcher, projector, resolver *)

Section Core.
Context `{Collaborators}.

(** [/[-\s־]/], the separators of search words. *)
Definition isWordSeparator (c : N) : bool :=
  (c =? HYPHEN) || isWhiteSpace c || (c =? MAQAF).

(** The punctuation removed from search words (line 150): the straight
    and the curly quotes, braces, parentheses and [, ? : ; . !]. *)
Definition isSentencePunctuation (c : N) : bool :=
  (c =? 34) || (c =? 39) || (c =? 0x201C) || (c =? 0x2018) || (c =? 0x201D)
  || (c =? 0x2019) || (c =? 123) || (c =? 125) || (c =? 40) || (c =? 41)
  || (c =? 44) || (c =? 63) || (c =? 58) || (c =? 59) || (c =? 46) || (c =? 33).

(** One round of the [for] loop of [searchULTWordRecords]: what is pushed
    on [ret] for one piece of the search string. *)
Definition searchExprTuples (searchExpr : jsstring) : list MatchTriple :=
  let searchExpr := List.filter (λ c, negb (isSentencePunctuation c)) searchExpr in
  if includes searchExpr [ELLIPSIS] then
    let searchExprParts := split_char ELLIPSIS searchExpr in
    mkTriple (default [] (searchExprParts !! 0%nat)) false None
      :: map (λ p, mkTriple p true None) (drop 1 searchExprParts)
  else [mkTriple searchExpr false None].

(** The list of two-tuples (search word, ellipsis flag), without the
    paseq-only words. *)
Definition intermediateSearchList (ULTSearchString : jsstring) : list MatchTriple :=
  let ret := concat (map searchExprTuples (split_on isWordSeparator ULTSearchString)) in
  List.filter (λ t, negb (eqb (word t) [PASEQ])) ret.

(** [getFirstWordIndex]: [None] is [-1]; the loop runs at most
    [ULTTokenList.length - startAt] times. *)
Fixpoint getFirstWordIndex_loop (fuel : nat) (searchWord : jsstring)
    (ULTTokenList : list GLToken) (startAt : nat) : option nat :=
  match fuel with
  | O => None
  | S fuel' =>
      match ULTTokenList !! startAt with
      | None => None
      | Some t =>
          if eqb (gl_payload t) searchWord then Some startAt
          else getFirstWordIndex_loop fuel' searchWord ULTTokenList (S startAt)
      end
  end.

Definition getFirstWordIndex (searchWord : jsstring) (ULTTokenList : list GLToken)
    (startAt : nat) : option nat :=
  getFirstWordIndex_loop (length ULTTokenList - startAt) searchWord ULTTokenList startAt.

(** The inner [while] of the matcher; the result is [foundAllWords] when
    the loop is left, which also happens when the tokens run out. *)
Fixpoint compareFollowing (fuel : nat) (ULTTokens : list GLToken)
    (searchList : list MatchTriple) (ultIndex searchIndex : nat) : bool :=
  match fuel with
  | O => true
  | S fuel' =>
      match ULTTokens !! ultIndex, searchList !! searchIndex with
      | Some t, Some w =>
          if negb (eqb (gl_payload t) (word w)) then false
          else compareFollowing fuel' ULTTokens searchList (S ultIndex) (S searchIndex)
      | _, _ => true
      end
  end.

(** The outer [while]: [Some startULTIndex] when it is left with
    [foundAllWords] true, [None] when the first word is found no more. *)
Fixpoint findStart (fuel : nat) (firstWord : jsstring) (ULTTokens : list GLToken)
    (searchList : list MatchTriple) (startULTIndex : nat) : option nat :=
  match fuel with
  | O => None
  | S fuel' =>
      match getFirstWordIndex firstWord ULTTokens startULTIndex with
      | None => None
      | Some startULTIndex =>
          if compareFollowing (length ULTTokens - S startULTIndex) ULTTokens searchList
               (S startULTIndex) 1
          then Some startULTIndex
          else findStart fuel' firstWord ULTTokens searchList (S startULTIndex)
      end
  end.

Definition push_scopes (t : MatchTriple) (sc : list jsstring) : MatchTriple :=
  mkTriple (word t) (followsEllipsis t) (Some sc).

(** The last [while]: the scopes of the matched tokens are pushed on the
    two-tuples, as long as there are tokens. *)
Fixpoint addScopes (fuel : nat) (ULTTokens : list GLToken)
    (searchList : list MatchTriple) (startULTIndex searchIndex : nat) : list MatchTriple :=
  match fuel with
  | O => searchList
  | S fuel' =>
      match ULTTokens !! startULTIndex, searchList !! searchIndex with
      | Some t, Some w =>
          addScopes fuel' ULTTokens (<[searchIndex := push_scopes w (gl_scopes t)]> searchList)
            (S startULTIndex) (S searchIndex)
      | _, _ => searchList
      end
  end.

(** [ULTTokens] is [None] when the caller passes [undefined]. *)
Definition searchULTWordRecords (ULTSearchString : jsstring)
    (ULTTokens : option (list GLToken)) : result (list MatchTriple) :=
  let searchList := intermediateSearchList ULTSearchString in
  match searchList !! 0%nat with
  | None => undefined_property "0"
  | Some first =>
      match ULTTokens with
      | None => undefined_property "length"
      | Some ULTTokens =>
          match findStart (S (length ULTTokens)) (word first) ULTTokens searchList 0 with
          | None => Ok []
          | Some startULTIndex =>
              Ok (addScopes (length ULTTokens - startULTIndex) ULTTokens searchList
                    startULTIndex 0)
          end
      end
  end.

(** [`/${origLWord}:`] *)
Definition searchOrigLWord (origLWord : jsstring) : jsstring :=
  [SLASH] ++ origLWord ++ [COLON].

(** The inner [for] of the projector: does some three-tuple name the word?
    Scopes arrays of a length other than 1 or 2, and missing ones, are
    passed over with a warning. *)
Fixpoint namedByTuples (key : jsstring) (ULTSearchThreeTuples : list MatchTriple) : bool :=
  match ULTSearchThreeTuples with
  | [] => false
  | t :: rest =>
      match alignment t with
      | Some [s0] =>
          if negb (indexOf s0 key =? -1)%Z then true else namedByTuples key rest
      | Some [s0; s1] =>
          if negb (indexOf s0 key =? -1)%Z || negb (indexOf s1 key =? -1)%Z then true
          else namedByTuples key rest
      | _ => namedByTuples key rest
      end
  end.

(** The outer [for] of the projector. *)
Fixpoint origLQuoteWords (origLWordList : list jsstring)
    (ULTSearchThreeTuples : list MatchTriple) : list jsstring :=
  match origLWordList with
  | [] => []
  | origLWord :: rest =>
      if namedByTuples (searchOrigLWord origLWord) ULTSearchThreeTuples
      then origLWord :: origLQuoteWords rest ULTSearchThreeTuples
      else origLQuoteWords rest ULTSearchThreeTuples
  end.

(** An array of three-tuples in a template literal. *)
Definition tuple_toString (t : MatchTriple) : jsstring :=
  join [COMMA] ([word t; bool_toString (followsEllipsis t)]
                ++ match alignment t with
                   | Some sc => [join [COMMA] sc]
                   | None => []
                   end).

Definition tuples_toString (l : list MatchTriple) : jsstring :=
  join [COMMA] (map tuple_toString l).

Definition emptyMatchMessage (book cv ULTSearchString searchOccurrence : jsstring)
    (ULTTokens : list GLToken) (ULTSearchThreeTuples : list MatchTriple)
    (wordLikeOrigLTokens : list SlimToken) : jsstring :=
  js "EMPTY MATCH IN OrigL SOURCE" ++ [10] ++ js "    Search String: " ++ book
  ++ js " " ++ cv ++ js " '" ++ ULTSearchString ++ js "' occurrence=" ++ searchOccurrence
  ++ [10] ++ js "      from ULTTokens (" ++ nat_toString (length ULTTokens) ++ js ") "
  ++ JSON_stringify_GL ULTTokens
  ++ [10] ++ js "       then ULTSearchThreeTuples ("
  ++ nat_toString (length ULTSearchThreeTuples) ++ js ") "
  ++ tuples_toString ULTSearchThreeTuples
  ++ [10] ++ js "       then wordLikeOrigLTokens ("
  ++ nat_toString (length wordLikeOrigLTokens) ++ js ") "
  ++ JSON_stringify_slim wordLikeOrigLTokens.

Definition isWordLike (t : Token) : bool := eqb (subType t) (js "wordLike").

Definition origLFromGLQuote (book cv : jsstring) (sourceTokens : option (list Token))
    (ULTTokens : option (list GLToken)) (ULTSearchString searchOccurrence : jsstring)
    (prune : bool) : result ResultObject :=
  ULTSearchThreeTuples ← searchULTWordRecords ULTSearchString ULTTokens;
  match sourceTokens with
  | None => undefined_property "filter"
  | Some sourceTokens =>
      let wordLikeOrigLTokens := slimSourceTokens (List.filter isWordLike sourceTokens) in
      let origLWordList := map slim_payload wordLikeOrigLTokens in
      let words := origLQuoteWords origLWordList ULTSearchThreeTuples in
      if (length words =? 0)%nat then
        Ok {| data := None;
              error := Some (emptyMatchMessage book cv ULTSearchString searchOccurrence
                               (default [] ULTTokens) ULTSearchThreeTuples
                               wordLikeOrigLTokens) |}
      else Ok {| data := Some words; error := None |}
  end.

(** [getTidiedData] *)
Definition getTidiedData (wordList : list jsstring) : jsstring :=
  replace_re (around_ellipsis isWhiteSpace) (js " & ") (join [SPACE] wordList).

Definition prune : bool := true.

(** The class of line 276: U+0590-05FF, U+FB1D-FB4F, U+0370-03FF and
    U+1F00-1FFF. *)
Definition isHebrewOrGreek (c : N) : bool :=
  in_range 0x0590 0x05FF c || in_range 0xFB1D 0xFB4F c
  || in_range 0x0370 0x03FF c || in_range 0x1F00 0x1FFF c.

Definition containsHebrewOrGreek (text : jsstring) : bool :=
  existsb isHebrewOrGreek text.

(** *** The resolver (lines 296-407) *)

(** An entry of [quotesToTry]: a string or an array of strings. *)
Inductive QuoteToTry : Type :=
  | QuoteString (quote : jsstring)
  | QuoteParts (quote : list jsstring).

Record State : Type := mkState {
  output : list jsstring;
  errors : list jsstring;
  nRecords : nat;
  counts_pass : nat;
  counts_fail : nat;
}.

Definition QUOTE_NOT_FOUND : jsstring := js "QUOTE_NOT_FOUND: ".

(** Truthiness of a string that may be missing. *)
Definition truthy (x : option jsstring) : bool :=
  match x with
  | Some (_ :: _) => true
  | _ => false
  end.

(** The condition of line 301. *)
Definition isPassedThrough (tsvRecord : TsvRecord) : bool :=
  negb (truthy (tsv_ref tsvRecord))
  || negb (truthy (trim <$> tsv_quote tsvRecord))
  || negb (truthy (tsv_occurrence tsvRecord))
  || bool_decide (tsv_ref tsvRecord = Some (js "Reference"))
  || containsHebrewOrGreek (opt_toString (tsv_quote tsvRecord)).

(** Lines 313-324 for one [commaPart]. *)
Definition commaPartVerses (commaPart : jsstring) : list jsnum :=
  if includes commaPart [HYPHEN] then
    let verseRange := split_char HYPHEN (trim commaPart) in
    if (1 <? length verseRange)%nat then
      match parseInt (default [] (verseRange !! 0%nat)),
            parseInt (default [] (verseRange !! 1%nat)) with
      | Some first, Some last => Some <$> seqZ first (last - first + 1)
      | _, _ => []
      end
    else []
  else [parseInt commaPart].

Definition expandVerses (verseRef : jsstring) : list jsnum :=
  let verseCommaParts := split_char COMMA (trim verseRef) in
  concat (map commaPartVerses verseCommaParts).

(** Lines 334-335. *)
Definition cleanQuoteOf (quote : jsstring) : jsstring :=
  List.filter (λ c, negb ((c =? 123) || (c =? 125)))
    (map (λ c, if c =? AMPERSAND then ELLIPSIS else c) quote).

Definition splitOnEllipsis (quote : jsstring) : list jsstring :=
  split_re (around_ellipsis (N.eqb SPACE)) quote.

(** Lines 337-352. *)
Definition quotesToTry (quote : jsstring) : list QuoteToTry :=
  let cleanQuote := cleanQuoteOf quote in
  let cleanQuoteUC := upperFirstLower cleanQuote in
  [QuoteString cleanQuote]
  ++ (if negb (eqb quote cleanQuote) then [QuoteString quote] else [])
  ++ (if includes cleanQuote [ELLIPSIS] then
        [QuoteParts (splitOnEllipsis cleanQuote)]
        ++ (if negb (eqb quote cleanQuote) then [QuoteParts (splitOnEllipsis quote)] else [])
      else [])
  ++ (if negb (eqb cleanQuote cleanQuoteUC) then
        [QuoteString cleanQuoteUC]
        ++ (if includes cleanQuoteUC [ELLIPSIS] then
              [QuoteParts (splitOnEllipsis cleanQuoteUC)]
            else [])
      else []).

Definition hasData (resultObject : ResultObject) : bool :=
  bool_decide (is_Some (data resultObject)).

Section Verse.
(** What is fixed while one verse of one record is tried. *)
Variables (book cv : jsstring) (sourceTokens : option (list Token))
  (wordLikeULTTokens : option (list GLToken)) (occurrence : jsstring).

(** Lines 363-380: the loop over the parts of an array entry; it returns
    [resultObject] and [partsConverted] as the loop leaves them. *)
Fixpoint tryParts (parts : list jsstring) (resultObject : option ResultObject)
    (partsConverted : list jsstring) : result (option ResultObject * list jsstring) :=
  match parts with
  | [] => Ok (resultObject, partsConverted)
  | part :: parts' =>
      resultObject ← origLFromGLQuote book cv sourceTokens wordLikeULTTokens part
                       occurrence prune;
      if hasData resultObject then
        tryParts parts' (Some resultObject)
          (partsConverted ++ [getTidiedData (default [] (data resultObject))])
      else
        resultObject ← origLFromGLQuote book cv sourceTokens wordLikeULTTokens
                         (upperFirstLower part) occurrence prune;
        if hasData resultObject then
          tryParts parts' (Some resultObject)
            (partsConverted ++ [getTidiedData (default [] (data resultObject))])
        else Ok (Some resultObject, partsConverted)
  end.

(** Lines 354-386: the loop over [quotesToTry]; it returns [resultObject]
    as the loop leaves it. *)
Fixpoint tryQuotes (quotes : list QuoteToTry) (resultObject : option ResultObject)
    : result (option ResultObject) :=
  match quotes with
  | [] => Ok resultObject
  | QuoteString quote :: quotes' =>
      resultObject ← origLFromGLQuote book cv sourceTokens wordLikeULTTokens quote
                       occurrence prune;
      if hasData resultObject then Ok (Some resultObject)
      else tryQuotes quotes' (Some resultObject)
  | QuoteParts quote :: quotes' =>
      '(resultObject, partsConverted) ← tryParts quote resultObject [];
      if (length partsConverted =? length quote)%nat then
        match resultObject with
        | None => Throw (TypeError "Cannot set properties of null (setting 'data')")
        | Some resultObject =>
            Ok (Some {| data := Some [join (js " & ") partsConverted];
                        error := error resultObject |})
        end
      else tryQuotes quotes' resultObject
  end.

End Verse.

Section Book.
Variables (tokenLookup : TokenLookup) (book testament : jsstring).

(** [obj[key]] where [obj] may be undefined.  The message of the
    exception is that of the source without its [(reading '<key>')]. *)
Definition property {V} (obj : option (gmap jsstring V)) (key : jsstring)
    : result (option V) :=
  match obj with
  | None => Throw (TypeError "Cannot read properties of undefined")
  | Some m => Ok (m !! key)
  end.

(** Lines 327-386: one candidate verse. *)
Definition tryVerse (tsvRecord : TsvRecord) (chapter : jsstring) (verse : jsnum)
    : result (jsstring * option ResultObject) :=
  let cv := chapter ++ js ":" ++ num_toString verse in
  let source := if eqb testament (js "old") then tokenLookup !! js "uhb"
                else tokenLookup !! js "ugnt" in
  sourceBook ← property source (toUpperCase book);
  sourceTokens ← property sourceBook cv;
  ultBook ← property (tokenLookup !! js "ult") (toUpperCase book);
  allULTTokens ← property ultBook cv;
  let wordLikeULTTokens :=
    (λ l, map (λ t, mkGLToken (payload t) (scopes t)) (List.filter isWordLike l))
      <$> allULTTokens in
  match tsv_quote tsvRecord with
  | Some quote =>
      resultObject ← tryQuotes book cv sourceTokens wordLikeULTTokens
                       (opt_toString (tsv_occurrence tsvRecord)) (quotesToTry quote) None;
      Ok (cv, resultObject)
  | None => undefined_property "replace"
  end.

Definition commitPass (st : State) (tsvRecord : TsvRecord) (words : list jsstring)
    : State * TsvRecord :=
  let tsvRecord := set_quote tsvRecord (getTidiedData words) in
  (mkState (output st ++ [tsvRecordToString tsvRecord]) (errors st) (nRecords st)
     (S (counts_pass st)) (counts_fail st), tsvRecord).

Definition commitFail (st : State) (tsvRecord : TsvRecord) (cv : jsstring)
    (resultObject : ResultObject) : State * TsvRecord :=
  let tsvRecord := set_quote tsvRecord (QUOTE_NOT_FOUND ++ opt_toString (tsv_quote tsvRecord)) in
  let errorMsg := js "Error: " ++ book ++ js " " ++ cv ++ js " "
                  ++ opt_toString (tsv_id tsvRecord) ++ js " "
                  ++ opt_toString (error resultObject) in
  (mkState (output st ++ [tsvRecordToString tsvRecord]) (errors st ++ [errorMsg])
     (nRecords st) (counts_pass st) (S (counts_fail st)), tsvRecord).

(** Lines 326-405: the loop over the candidate verses.  [versesLength] is
    [verses.length], [verseIdx] the index of the head of [verses]. *)
Fixpoint verseLoop (versesLength verseIdx : nat) (chapter : jsstring)
    (verses : list jsnum) (st : State) (tsvRecord : TsvRecord)
    : result (State * TsvRecord) :=
  match verses with
  | [] => Ok (st, tsvRecord)
  | verse :: verses' =>
      '(cv, resultObject) ← tryVerse tsvRecord chapter verse;
      match resultObject with
      | None => Throw (TypeError "Cannot use 'in' operator to search for 'data' in null")
      | Some resultObject =>
          if hasData resultObject then
            Ok (commitPass st tsvRecord (default [] (data resultObject)))
          else if (verseIdx <? versesLength - 1)%nat then
            verseLoop versesLength (S verseIdx) chapter verses' st tsvRecord
          else
            let '(st, tsvRecord) := commitFail st tsvRecord cv resultObject in
            verseLoop versesLength (S verseIdx) chapter verses' st tsvRecord
      end
  end.

(** Lines 300-405: one record. *)
Definition processRecord (st : State) (tsvRecord : TsvRecord) : result State :=
  let st := mkState (output st) (errors st) (S (nRecords st)) (counts_pass st)
              (counts_fail st) in
  if isPassedThrough tsvRecord then
    Ok (mkState (output st ++ [tsvRecordToString tsvRecord]) (errors st) (nRecords st)
          (counts_pass st) (counts_fail st))
  else
    match tsv_quote tsvRecord with
    | None => undefined_property "replace"
    | Some quote =>
        let tsvRecord := set_quote tsvRecord (replace_first QUOTE_NOT_FOUND [] quote) in
        match tsv_ref tsvRecord with
        | None => undefined_property "split"
        | Some ref =>
            let parts := split_char COLON ref in
            let chapter := default [] (parts !! 0%nat) in
            match parts !! 1%nat with
            | None => undefined_property "trim"
            | Some verseRef =>
                let verses := expandVerses verseRef in
                fst <$> verseLoop (length verses) 0 chapter verses st tsvRecord
            end
        end
    end.

(** Lines 299-406: the loop over the records. *)
Fixpoint recordsLoop (tsvRecords : list TsvRecord) (st : State) : result State :=
  match tsvRecords with
  | [] => Ok st
  | tsvRecord :: tsvRecords' =>
      st ← processRecord st tsvRecord;
      recordsLoop tsvRecords' st
  end.

End Book.

(** How the promise of the exported function settles. *)
Inductive Settled : Type :=
  | Resolved (output errors : list jsstring)
  | Rejected (reason : jsstring)
  | RejectedWith (err : JsError).

Definition initialState : State := mkState [] [] 0 0 0.

(** [tokenLookup] is the index as it stands at line 296, after
    [getDocuments] and [doAlignmentQuery]. *)
Definition tsv7_ult_quotes_to_origl_quotes (tokenLookup : TokenLookup)
    (book tsvContent : jsstring) : Settled :=
  match (BibleBookData !! toLowerCase book) ≫= testament with
  | Some (c :: t) =>
      match recordsLoop tokenLookup book (c :: t) (parseTsvToObjects tsvContent)
              initialState with
      | Ok st => Resolved (output st) (errors st)
      | Throw err => RejectedWith err
      end
  | _ => Rejected (js "ERROR: Book " ++ book ++ js " not a valid Bible book")
  end.

End Core.

(** ** The token index (lines 85-129) *)

(** What the alignment query of lines 86-108 returns: the item groups of
    a document's main sequence, by chapter and verses scope. *)
Record ItemGroup : Type := mkItemGroup {
  ig_scopeLabels : list jsstring;
  ig_tokens : list Token;
}.

Record Document : Type := mkDocument {
  doc_book : jsstring;
  doc_itemGroups : list ItemGroup;
}.

Record DocSet : Type := mkDocSet {
  ds_abbr : jsstring;
  ds_documents : list Document;
}.

(** [qr_errors] is [result.errors] when there is one, as [new Error]
    renders it. *)
Record QueryResult : Type := mkQueryResult {
  qr_errors : option jsstring;
  qr_docSets : list DocSet;
}.

(** How [doAlignmentQuery] can fail: the [Error] of line 110, or an
    exception of the loops. *)
Inductive QueryFailure : Type :=
  | QueryErrors (errors : jsstring)
  | QueryThrew (err : JsError).

(** A [for ... of] loop whose body updates the module-level [tokenLookup]
    and may throw: the loop ends at the first exception, with the index as
    it stands then. *)
Fixpoint forEach {A} (body : A → TokenLookup → TokenLookup * option JsError)
    (items : list A) (tokenLookup : TokenLookup) : TokenLookup * option JsError :=
  match items with
  | [] => (tokenLookup, None)
  | item :: items' =>
      match body item tokenLookup with
      | (tokenLookup, None) => forEach body items' tokenLookup
      | thrown => thrown
      end
  end.

(** [scopeLabels.filter((s) => s.startsWith(prefix))[0].split('/')[1]]. *)
Definition scopeValue (prefix : jsstring) (scopeLabels : list jsstring)
    : result (option jsstring) :=
  match List.filter (startsWith prefix) scopeLabels !! 0%nat with
  | None => undefined_property "split"
  | Some label => Ok (split_char SLASH label !! 1%nat)
  end.

(** Lines 123-124. *)
Definition setVerse (abbr book : jsstring) (chapter : option jsstring)
    (tokens : list Token) (verse : jsstring) (tokenLookup : TokenLookup)
    : TokenLookup * option JsError :=
  let cv := opt_toString chapter ++ js ":" ++ verse in
  match tokenLookup !! abbr with
  | None => (tokenLookup, Some (TypeError "Cannot read properties of undefined"))
  | Some books =>
      match books !! book with
      | None => (tokenLookup, Some (TypeError "Cannot set properties of undefined"))
      | Some verses => (<[abbr := <[book := <[cv := tokens]> verses]> books]> tokenLookup, None)
      end
  end.

(** Lines 117-126: one item group. *)
Definition registerItemGroup (abbr book : jsstring) (itemGroup : ItemGroup)
    (tokenLookup : TokenLookup) : TokenLookup * option JsError :=
  match scopeValue (js "chapter/") (ig_scopeLabels itemGroup) with
  | Throw e => (tokenLookup, Some e)
  | Ok chapter =>
      match scopeValue (js "verses/") (ig_scopeLabels itemGroup) with
      | Throw e => (tokenLookup, Some e)
      | Ok None => (tokenLookup, Some (TypeError "Cannot read properties of undefined (reading 'split')"))
      | Ok (Some verses) =>
          forEach (setVerse abbr book chapter (ig_tokens itemGroup))
            (split_char HYPHEN verses) tokenLookup
      end
  end.

(** Lines 115-127: one document. *)
Definition registerDocument (abbr : jsstring) (document : Document)
    (tokenLookup : TokenLookup) : TokenLookup * option JsError :=
  match tokenLookup !! abbr with
  | None => (tokenLookup, Some (TypeError "Cannot set properties of undefined"))
  | Some books =>
      forEach (registerItemGroup abbr (doc_book document)) (doc_itemGroups document)
        (<[abbr := <[doc_book document := ∅]> books]> tokenLookup)
  end.

(** Lines 113-128: one docSet. *)
Definition registerDocSet (docSet : DocSet) (tokenLookup : TokenLookup)
    : TokenLookup * option JsError :=
  forEach (registerDocument (ds_abbr docSet)) (ds_documents docSet)
    (<[ds_abbr docSet := ∅]> tokenLookup).

(** Lines 108-128.  [result] is what [pk.gqlQuery] returned, [tokenLookup]
    the index before the call; the index after the call is returned with
    the failure, if any. *)
Definition doAlignmentQuery (result : QueryResult) (tokenLookup : TokenLookup)
    : TokenLookup * option QueryFailure :=
  match qr_errors result with
  | Some errors => (tokenLookup, Some (QueryErrors errors))
  | None =>
      let '(tokenLookup, thrown) := forEach registerDocSet (qr_docSets result) ∅ in
      (tokenLookup, QueryThrew <$> thrown)
  end.

(** The test of line 293: is the book missing from the gloss corpus or
    from the original-language corpus of its testament?  [testament] is
    [None] when the book table has none for the book. *)
Definition indexStale `{Collaborators} (tokenLookup : TokenLookup) (book : jsstring)
    (testament : option jsstring) : bool :=
  let source := if bool_decide (testament = Some (js "old")) then tokenLookup !! js "uhb"
                else tokenLookup !! js "ugnt" in
  negb (bool_decide (is_Some (tokenLookup !! js "ult"
                              ≫= (λ books, books !! toUpperCase book))))
  || negb (bool_decide (is_Some (source ≫= (λ books, books !! toUpperCase book)))).

(** ** A concrete table format and token index

    The closed examples need collaborators and a token index to run on;
    every general theorem holds for arbitrary collaborators. *)

Module Example.

Definition TAB : N := 9.
Definition LF : N := 10.

(** Modelled from the spec: [parseTsvToObjects] of [../utils/tsv] is not
    part of the embedded file.  Section 6 has it parse the table into
    records that keep every field; the columns are those the core reads
    ([ref], [id], [quote], [occurrence]) among the seven of a notes
    table, one row per line, tab-separated. *)
Definition parseRow (line : jsstring) : TsvRecord :=
  let fields := split_char TAB line in
  {| tsv_ref := fields !! 0%nat;
     tsv_id := fields !! 1%nat;
     tsv_quote := fields !! 4%nat;
     tsv_occurrence := fields !! 5%nat;
     tsv_others := [(js "tags", default [] (fields !! 2%nat));
                    (js "supportReference", default [] (fields !! 3%nat));
                    (js "note", default [] (fields !! 6%nat))] |}.

Definition other (r : TsvRecord) (key : jsstring) : jsstring :=
  default [] (snd <$> List.find (λ kv, eqb (fst kv) key) (tsv_others r)).

(** Modelled from the spec: [tsvRecordToString] of [../utils/tsv] is not
    part of the embedded file.  Section 6 has it serialize a record back
    to the row format, the field order preserved. *)
Definition rowToString (r : TsvRecord) : jsstring :=
  join [TAB] [default [] (tsv_ref r); default [] (tsv_id r); other r (js "tags");
              other r (js "supportReference"); default [] (tsv_quote r);
              default [] (tsv_occurrence r); other r (js "note")].

(** The case mappings on the ASCII letters, which is what book
    identifiers consist of. *)
Definition upperChar (c : N) : N := if in_range 97 122 c then c - 32 else c.
Definition lowerChar (c : N) : N := if in_range 65 90 c then c + 32 else c.

(** A dump of the payloads stands for [JSON.stringify]. *)
Definition stringifyGL (l : list GLToken) : jsstring :=
  js "[" ++ join [COMMA] (map gl_payload l) ++ js "]".

(** Modelled from the spec: [slimSourceTokens] of [../utils/tokens] is
    not part of the embedded file.  Section 4.4 has the original-language
    tokens reduced to payload-only. *)
Definition slimPayloads (tokens : list Token) : list jsstring :=
  map payload tokens.

(** Modelled from the spec: [BibleBookData] of [../common/books] is not
    part of the embedded file.  Two of the canonical books, with the
    testament that selects the original-language corpus. *)
Definition books : gmap jsstring BookData :=
  {[ js "gen" := mkBookData (Some (js "old"));
     js "mat" := mkBookData (Some (js "new")) ]}.

#[global] Instance collaborators : Collaborators := {|
  SlimToken := jsstring;
  slim_payload := λ p, p;
  slimSourceTokens := slimPayloads;
  parseTsvToObjects := λ content, map parseRow (split_char LF content);
  tsvRecordToString := rowToString;
  BibleBookData := books;
  JSON_stringify_GL := stringifyGL;
  JSON_stringify_slim := λ l, js "[" ++ join [COMMA] l ++ js "]";
  toUpperCase := map upperChar;
  toLowerCase := map lowerChar;
|}.

Definition wordToken (w : jsstring) (sc : list jsstring) : Token :=
  mkToken (js "wordLike") w 0 sc.

Definition row (ref quote occurrence : jsstring) : jsstring :=
  join [TAB] [ref; js "abcd"; []; []; quote; occurrence; js "note"].

(** The scope label that aligns a gloss word with the source word [w]. *)
Definition aligned (w : jsstring) : jsstring :=
  js "attribute/milestone/zaln/x-align/0/" ++ w ++ js ":1:1".

(** A token index for Matthew 5:3-4 with Latin stand-ins for the source
    words. *)
Definition lookup : TokenLookup :=
  {[ js "ult" := {[ js "MAT" :=
        {[ js "5:3" := [wordToken (js "Blessed") [aligned (js "makarioi")];
                        wordToken (js "are") [aligned (js "makarioi")];
                        wordToken (js "the") [aligned (js "hoi")];
                        wordToken (js "meek") [aligned (js "praeis")]];
           js "5:4" := [wordToken (js "the") [aligned (js "hoi")];
                        wordToken (js "poor") [aligned (js "ptochoi")];
                        wordToken (js "in") [aligned (js "to")];
                        wordToken (js "spirit") [aligned (js "to"); aligned (js "pneumati")]] ]} ]};
     js "ugnt" := {[ js "MAT" :=
        {[ js "5:3" := [wordToken (js "makarioi") []; wordToken (js "hoi") [];
                        wordToken (js "praeis") []];
           js "5:4" := [wordToken (js "makarioi") []; wordToken (js "hoi") [];
                        wordToken (js "ptochoi") []; wordToken (js "to") [];
                        wordToken (js "pneumati") []] ]} ]} ]}.

Definition run (content : jsstring) : Settled :=
  tsv7_ult_quotes_to_origl_quotes lookup (js "MAT") content.

(** A token index whose gloss has a token [&]. *)
Definition lookupAmpersand : TokenLookup :=
  {[ js "ult" := {[ js "MAT" :=
        {[ js "5:3" := [wordToken (js "a") [aligned (js "alpha")];
                        wordToken (js "&") [aligned (js "kai")];
                        wordToken (js "b") [aligned (js "beta")]] ]} ]};
     js "ugnt" := {[ js "MAT" :=
        {[ js "5:3" := [wordToken (js "alpha") []; wordToken (js "kai") [];
                        wordToken (js "beta") []] ]} ]} ]}.

(** The tokens of [lookup] for a verse of Matthew. *)
Definition tokensAt (abbr cv : jsstring) : list Token :=
  match lookup !! abbr with
  | Some corpus =>
      match corpus !! js "MAT" with
      | Some verses => default [] (verses !! cv)
      | None => []
      end
  | None => []
  end.

(** A query result with the two corpora of [lookup], one item group for
    each verse. *)
Definition queryResult : QueryResult :=
  {| qr_errors := None;
     qr_docSets :=
       [mkDocSet (js "ugnt")
          [mkDocument (js "MAT")
             [mkItemGroup [js "chapter/5"; js "verses/3"] (tokensAt (js "ugnt") (js "5:3"));
              mkItemGroup [js "chapter/5"; js "verses/4"] (tokensAt (js "ugnt") (js "5:4"))]];
        mkDocSet (js "ult")
          [mkDocument (js "MAT")
             [mkItemGroup [js "chapter/5"; js "verses/3"] (tokensAt (js "ult") (js "5:3"));
              mkItemGroup [js "chapter/5"; js "verses/4"] (tokensAt (js "ult") (js "5:4"))]]]
  |}.

End Example.

(** ** Vocabulary of the statements *)

(** [pat] is a substring of [s]. *)
Definition occursIn (pat s : jsstring) : Prop :=
  ∃ pre post, s = pre ++ pat ++ post.

(** The gloss tokens agree with the search words from token [i] on,
    word by word, as far as both sequences go. *)
Definition matchesAt (ULTTokens : list GLToken) (searchList : list MatchTriple)
    (i : nat) : Prop :=
  (i < length ULTTokens)%nat ∧
  ∀ k t w, ULTTokens !! (i + k)%nat = Some t → searchList !! k = Some w →
           gl_payload t = word w.

(** Every search word equals the payload of the correspondingly-offset
    gloss token: the full contiguous match of the spec. *)
Definition fullMatchAt (ULTTokens : list GLToken) (searchList : list MatchTriple)
    (i : nat) : Prop :=
  ∀ k w, searchList !! k = Some w →
         ∃ t, ULTTokens !! (i + k)%nat = Some t ∧ gl_payload t = word w.

(** How often [w] occurs in [l]. *)
Definition occurrences (w : jsstring) (l : list jsstring) : nat :=
  length (List.filter (eqb w) l).

(** The candidate verses of a row, as lines 307-324 expand its ref. *)
Definition versesOf (tsvRecord : TsvRecord) : list jsnum :=
  match tsv_ref tsvRecord with
  | Some ref =>
      match split_char COLON ref !! 1%nat with
      | Some verseRef => expandVerses verseRef
      | None => []
      end
  | None => []
  end.

(** Two serialized rows that come from one record, up to its occurrence
    field. *)
Definition occurrenceVariants `{Collaborators} (o1 o2 : jsstring) (x y : jsstring)
    : Prop :=
  ∃ r, x = tsvRecordToString (set_occurrence r (Some o1))
       ∧ y = tsvRecordToString (set_occurrence r (Some o2)).

(** Results that differ at most in their error message. *)
Definition sameData (a b : ResultObject) : Prop := data a = data b.

Definition sameDataOpt (a b : option ResultObject) : Prop :=
  match a, b with
  | Some a, Some b => sameData a b
  | None, None => True
  | _, _ => False
  end.

(** Two records that agree up to their occurrence fields [o1] and [o2]. *)
Definition sameRecord (o1 o2 : jsstring) (r1 r2 : TsvRecord) : Prop :=
  tsv_ref r1 = tsv_ref r2 ∧ tsv_id r1 = tsv_id r2 ∧ tsv_quote r1 = tsv_quote r2
  ∧ tsv_others r1 = tsv_others r2
  ∧ tsv_occurrence r1 = Some o1 ∧ tsv_occurrence r2 = Some o2.

(** States that agree up to the occurrence fields in the rows emitted
    since [before], and up to the text of the errors. *)
Definition sameState `{Collaborators} (o1 o2 : jsstring) (before : list jsstring)
    (st1 st2 : State) : Prop :=
  nRecords st1 = nRecords st2
  ∧ counts_pass st1 = counts_pass st2
  ∧ counts_fail st1 = counts_fail st2
  ∧ length (errors st1) = length (errors st2)
  ∧ ∃ new1 new2, output st1 = before ++ new1 ∧ output st2 = before ++ new2
                 ∧ Forall2 (occurrenceVariants o1 o2) new1 new2.

(** An entry of [quotesToTry] without paseq; an array entry has a part. *)
Definition paseqFree (quote : QuoteToTry) : Prop :=
  match quote with
  | QuoteString quote => PASEQ ∉ quote
  | QuoteParts quote => quote ≠ [] ∧ Forall (λ part, PASEQ ∉ part) quote
  end.

(** Two computations that throw the same exception or return related
    values. *)
Definition result_rel {A} (R : A → A → Prop) (m1 m2 : result A) : Prop :=
  match m1, m2 with
  | Ok a, Ok b => R a b
  | Throw e1, Throw e2 => e1 = e2
  | _, _ => False
  end.




(** A three-tuple whose scopes array has one or two entries, the only
    shapes the projector reads. *)
Definition wellShaped (t : MatchTriple) : bool :=
  match alignment t with
  | Some [_] | Some [_; _] => true
  | _ => false
  end.

(** The three-tuple of a search word matched against the gloss token at
    index [i], when there is one. *)
Definition matchedTriple (ULTTokens : list GLToken) (i : nat) (w : MatchTriple)
    : MatchTriple :=
  mkTriple (word w) (followsEllipsis w) (gl_scopes <$> ULTTokens !! i).

(** A verse specifier between commas: one verse, or a range of verses. *)
Inductive VerseSpec : Type :=
  | OneVerse (verse : nat)
  | VerseRange (first last : nat).

(** How a verse specifier is written in a ref. *)
Definition verseSpecString (spec : VerseSpec) : jsstring :=
  match spec with
  | OneVerse verse => nat_toString verse
  | VerseRange first last => nat_toString first ++ [HYPHEN] ++ nat_toString last
  end.

(** The verses a verse specifier stands for. *)
Definition verseSpecVerses (spec : VerseSpec) : list jsnum :=
  match spec with
  | OneVerse verse => [Some (Z.of_nat verse)]
  | VerseRange first last =>
      Some <$> seqZ (Z.of_nat first) (Z.of_nat last - Z.of_nat first + 1)
  end.

(** The verse specifiers on which the exact integers of the model are the
    numbers of the source: every number is below 2^53, so that [parseInt]
    and the [i++] of the range loop are exact. *)
Definition verseSpecInRange (spec : VerseSpec) : Prop :=
  match spec with
  | OneVerse verse => (Z.of_nat verse < 2 ^ 53)%Z
  | VerseRange first last => (Z.of_nat first < 2 ^ 53)%Z ∧ (Z.of_nat last < 2 ^ 53)%Z
  end.

(** The corpus of the original-language text of a testament. *)
Definition sourceCorpus (testament : jsstring) : jsstring :=
  if eqb testament (js "old") then js "uhb" else js "ugnt".

(** The two token lists of a verse, when the index has both. *)
Definition verseTokens `{Collaborators} (tokenLookup : TokenLookup)
    (book testament cv : jsstring) : option (list Token * list Token) :=
  sourceBook ← (tokenLookup !! sourceCorpus testament) ≫= (λ m, m !! toUpperCase book);
  sourceTokens ← sourceBook !! cv;
  ultBook ← (tokenLookup !! js "ult") ≫= (λ m, m !! toUpperCase book);
  allULTTokens ← ultBook !! cv;
  Some (sourceTokens, allULTTokens).

(** What the counters, the errors and the output of a run keep true. *)
Definition countersAgree (st : State) : Prop :=
  length (errors st) = counts_fail st
  ∧ (counts_pass st + counts_fail st ≤ length (output st))%nat
  ∧ (length (output st) ≤ nRecords st)%nat.

(** The verses of the index under one corpus and book. *)
Definition bookIndex (tokenLookup : TokenLookup) (abbr book : jsstring)
    : option (gmap jsstring (list Token)) :=
  tokenLookup !! abbr ≫= (λ books, books !! book).

(** The tokens of the index under one corpus, book and verse. *)
Definition indexLookup (tokenLookup : TokenLookup) (abbr book cv : jsstring)
    : option (list Token) :=
  bookIndex tokenLookup abbr book ≫= (λ verses, verses !! cv).

(** An item group has a chapter label and a verses label. *)
Definition labelled (itemGroup : ItemGroup) : Prop :=
  Exists (λ label, startsWith (js "chapter/") label = true) (ig_scopeLabels itemGroup)
  ∧ Exists (λ label, startsWith (js "verses/") label = true) (ig_scopeLabels itemGroup).

(** The keys under which an item group is registered, when it has both
    labels. *)
Definition groupKeys (itemGroup : ItemGroup) : option (list jsstring) :=
  match scopeValue (js "chapter/") (ig_scopeLabels itemGroup),
        scopeValue (js "verses/") (ig_scopeLabels itemGroup) with
  | Ok chapter, Ok (Some verses) =>
      Some (map (λ verse, opt_toString chapter ++ js ":" ++ verse)
              (split_char HYPHEN verses))
  | _, _ => None
  end.

(** The item groups of a query result. *)
Definition itemGroupsOf (docSets : list DocSet) : list ItemGroup :=
  concat (map doc_itemGroups (concat (map ds_documents docSets))).

(** The last writer of a key: the last docSet of the corpus, in it the
    last document of the book, in it the last item group registered under
    the verse. *)
Definition lastWriter (docSets : list DocSet) (abbr book cv : jsstring)
    : option (list Token) :=
  docSet ← last (filter (λ docSet, ds_abbr docSet = abbr) docSets);
  document ← last (filter (λ document, doc_book document = book) (ds_documents docSet));
  itemGroup ← last (filter (λ itemGroup, cv ∈ default [] (groupKeys itemGroup))
                      (doc_itemGroups document));
  Some (ig_tokens itemGroup).

(** The index after the item groups, documents and docSets of a result
    were registered, with no exception on the way. *)
Definition withKeys (tokens : list Token) (keys : list jsstring)
    (verses : gmap jsstring (list Token)) : gmap jsstring (list Token) :=
  foldl (λ verses cv, <[cv := tokens]> verses) verses keys.

Definition withItemGroups (itemGroups : list ItemGroup)
    (verses : gmap jsstring (list Token)) : gmap jsstring (list Token) :=
  foldl (λ verses itemGroup,
           withKeys (ig_tokens itemGroup) (default [] (groupKeys itemGroup)) verses)
    verses itemGroups.

Definition withDocuments (documents : list Document)
    (books : gmap jsstring (gmap jsstring (list Token)))
    : gmap jsstring (gmap jsstring (list Token)) :=
  foldl (λ books document,
           <[doc_book document := withItemGroups (doc_itemGroups document) ∅]> books)
    books documents.

Definition withDocSets (docSets : list DocSet) (tokenLookup : TokenLookup) : TokenLookup :=
  foldl (λ tokenLookup docSet,
           <[ds_abbr docSet := withDocuments (ds_documents docSet) ∅]> tokenLookup)
    tokenLookup docSets.

(** The item groups, documents and docSets that the loops accept. *)
Abbreviation groupOk :=
  (λ itemGroup : ItemGroup, bool_decide (is_Some (groupKeys itemGroup))).
Abbreviation documentOk :=
  (λ document : Document, forallb groupOk (doc_itemGroups document)).
Abbreviation docSetOk :=
  (λ docSet : DocSet, forallb documentOk (ds_documents docSet)).

(** An object with data or with an error, not both and not neither. *)
Definition dataOrError (ro : ResultObject) : Prop :=
  (is_Some (data ro) ∧ error ro = None) ∨ (data ro = None ∧ is_Some (error ro)).

(** Two search lists with the same words and scopes, whatever their
    flags. *)
Definition sameWords (searchList1 searchList2 : list MatchTriple) : Prop :=
  map (λ t, (word t, alignment t)) searchList1
  = map (λ t, (word t, alignment t)) searchList2.

(** The last docSet of a corpus has a document of the book. *)
Definition hasDocument (docSets : list DocSet) (abbr book : jsstring) : Prop :=
  ∃ docSet, last (filter (λ docSet, ds_abbr docSet = abbr) docSets) = Some docSet
            ∧ Exists (λ document, doc_book document = book) (ds_documents docSet).

Local Close Scope N_scope.

#[global] Arguments js : simpl never.
#[global] Arguments QUOTE_NOT_FOUND : simpl never.
#[global] Arguments commitPass : simpl never.
#[global] Arguments commitFail : simpl never.
#[global] Arguments tryVerse : simpl never.
#[global] Arguments expandVerses : simpl never.
#[global] Arguments getTidiedData : simpl never.

(** ** Strings *)

Section Strings.
Implicit Types (s pat : jsstring).

Lemma eqb_true s t : eqb s t = true ↔ s = t.
Proof. unfold eqb. by rewrite bool_decide_eq_true. Qed.

Lemma eqb_false s t : eqb s t = false ↔ s ≠ t.
Proof. unfold eqb. by rewrite bool_decide_eq_false. Qed.

Lemma startsWith_spec pat s : startsWith pat s = true ↔ ∃ post, s = pat ++ post.
Proof.
  revert s. induction pat as [|p pat IH]; intros s; simpl.
  - split; [by exists s|done].
  - destruct s as [|c s]; simpl.
    + split; [done|]. by intros [post ?].
    + rewrite andb_true_iff, N.eqb_eq, IH. split.
      * intros [-> [post ->]]. by exists post.
      * intros [post [= -> ->]]. eauto.
Qed.

Lemma occursIn_cons pat c s :
  occursIn pat (c :: s) ↔ startsWith pat (c :: s) = true ∨ occursIn pat s.
Proof.
  rewrite startsWith_spec. split.
  - intros [[|c' pre] [post Heq]]; simpl in Heq.
    + left. by exists post.
    + right. injection Heq as -> ->. by exists pre, post.
  - intros [[post ->]|[pre [post ->]]].
    + by exists [], post.
    + by exists (c :: pre), post.
Qed.

Lemma indexOf_from_range pat s i :
  (0 ≤ i)%Z → (indexOf_from pat s i = -1 ∨ i ≤ indexOf_from pat s i)%Z.
Proof.
  revert i. induction s as [|c s IH]; intros i Hi; simpl.
  - destruct (startsWith pat []); lia.
  - destruct (startsWith pat (c :: s)); [lia|].
    destruct (IH (i + 1)%Z) as [->| ?]; lia.
Qed.

Lemma indexOf_from_found pat s i :
  (0 ≤ i)%Z → indexOf_from pat s i ≠ (-1)%Z ↔ occursIn pat s.
Proof.
  revert i. induction s as [|c s IH]; intros i Hi; simpl.
  - destruct (startsWith pat []) eqn:Hsw.
    + split; [|lia]. intros _. apply startsWith_spec in Hsw as [post ->].
      by exists [], post.
    + split; [done|]. intros [pre [post Heq]].
      symmetry in Heq. apply app_eq_nil in Heq as [_ [-> _]%app_eq_nil].
      done.
  - rewrite occursIn_cons. destruct (startsWith pat (c :: s)) eqn:Hsw.
    + split; [auto|lia].
    + rewrite (IH (i + 1)%Z) by lia. split; [auto|]. by intros [?|?].
Qed.

(** [indexOf] finds exactly the substrings. *)
Lemma indexOf_found s pat : (indexOf s pat =? -1)%Z = false ↔ occursIn pat s.
Proof. rewrite Z.eqb_neq. by apply indexOf_from_found. Qed.

Lemma includes_spec s pat : includes s pat = true ↔ occursIn pat s.
Proof. unfold includes. by rewrite negb_true_iff, indexOf_found. Qed.

Lemma occursIn_app_l pat s post : occursIn pat s → occursIn pat (s ++ post).
Proof. intros [a [b ->]]. exists a, (b ++ post). by rewrite <-!(assoc_L (++)). Qed.

Lemma occursIn_app_r pat pre s : occursIn pat s → occursIn pat (pre ++ s).
Proof. intros [a [b ->]]. exists (pre ++ a), b. by rewrite <-!(assoc_L (++)). Qed.

Lemma occursIn_here pat post : occursIn pat (pat ++ post).
Proof. by exists [], post. Qed.

End Strings.

(** ** The gloss matcher *)

Section Matcher.
Implicit Types (ULTTokens : list GLToken) (searchList : list MatchTriple).

Lemma getFirstWordIndex_loop_Some fuel searchWord ULTTokens startAt i :
  getFirstWordIndex_loop fuel searchWord ULTTokens startAt = Some i →
  startAt ≤ i
  ∧ (∃ t, ULTTokens !! i = Some t ∧ gl_payload t = searchWord)
  ∧ ∀ j t, startAt ≤ j < i → ULTTokens !! j = Some t → gl_payload t ≠ searchWord.
Proof.
  revert startAt. induction fuel as [|fuel IH]; intros startAt; simpl; [done|].
  destruct (ULTTokens !! startAt) as [t|] eqn:Ht; [|done].
  destruct (eqb (gl_payload t) searchWord) eqn:Heq.
  - intros [= <-]. apply eqb_true in Heq. split; [lia|]. split; [eauto|]. lia.
  - intros (Hle & Hi & Hfirst)%IH. apply eqb_false in Heq.
    split; [lia|]. split; [done|]. intros j t' Hj Hj'.
    destruct (decide (j = startAt)) as [->|]; [congruence|].
    apply (Hfirst j); [lia|done].
Qed.

Lemma getFirstWordIndex_loop_None fuel searchWord ULTTokens startAt :
  length ULTTokens - startAt ≤ fuel →
  getFirstWordIndex_loop fuel searchWord ULTTokens startAt = None →
  ∀ j t, startAt ≤ j → ULTTokens !! j = Some t → gl_payload t ≠ searchWord.
Proof.
  revert startAt. induction fuel as [|fuel IH]; intros startAt Hfuel; simpl.
  - intros _ j t Hj Ht. apply lookup_lt_Some in Ht. lia.
  - destruct (ULTTokens !! startAt) as [t|] eqn:Ht.
    + destruct (eqb (gl_payload t) searchWord) eqn:Heq; [done|].
      apply eqb_false in Heq. intros Hnone j t' Hj Hj'.
      destruct (decide (j = startAt)) as [->|]; [congruence|].
      apply (IH (S startAt)) with j; [lia|done|lia|done].
    + intros _ j t Hj Hj'. apply lookup_ge_None in Ht. apply lookup_lt_Some in Hj'. lia.
Qed.

(** The first index from [startAt] on whose payload is the search word. *)
Lemma getFirstWordIndex_Some searchWord ULTTokens startAt i :
  getFirstWordIndex searchWord ULTTokens startAt = Some i →
  startAt ≤ i
  ∧ (∃ t, ULTTokens !! i = Some t ∧ gl_payload t = searchWord)
  ∧ ∀ j t, startAt ≤ j < i → ULTTokens !! j = Some t → gl_payload t ≠ searchWord.
Proof. apply getFirstWordIndex_loop_Some. Qed.

Lemma getFirstWordIndex_None searchWord ULTTokens startAt :
  getFirstWordIndex searchWord ULTTokens startAt = None →
  ∀ j t, startAt ≤ j → ULTTokens !! j = Some t → gl_payload t ≠ searchWord.
Proof. by apply getFirstWordIndex_loop_None. Qed.

(** The inner loop answers whether tokens and words agree as far as both
    go; the words that are left when the tokens run out are not looked
    at. *)
Lemma compareFollowing_spec fuel ULTTokens searchList ultIndex searchIndex :
  length ULTTokens - ultIndex ≤ fuel →
  compareFollowing fuel ULTTokens searchList ultIndex searchIndex = true ↔
  ∀ k t w, ULTTokens !! (ultIndex + k) = Some t →
           searchList !! (searchIndex + k) = Some w → gl_payload t = word w.
Proof.
  revert ultIndex searchIndex.
  induction fuel as [|fuel IH]; intros ultIndex searchIndex Hfuel; simpl.
  - split; [|done]. intros _ k t w Ht _. apply lookup_lt_Some in Ht. lia.
  - destruct (ULTTokens !! ultIndex) as [t|] eqn:Ht.
    + destruct (searchList !! searchIndex) as [w|] eqn:Hw.
      * destruct (eqb (gl_payload t) (word w)) eqn:Heq; simpl.
        -- apply eqb_true in Heq. rewrite IH by lia. split.
           ++ intros Hrest [|k] t' w'.
              ** rewrite !Nat.add_0_r. congruence.
              ** rewrite !Nat.add_succ_r. apply Hrest.
           ++ intros Hall k t' w'. specialize (Hall (S k) t' w').
              by rewrite !Nat.add_succ_r in Hall.
        -- apply eqb_false in Heq. split; [done|]. intros Hall.
           destruct Heq. apply (Hall 0); by rewrite Nat.add_0_r.
      * split; [|done]. intros _ k t' w' _ Hw'.
        apply lookup_ge_None in Hw. apply lookup_lt_Some in Hw'. lia.
    + split; [|done]. intros _ k t' w' Ht' _.
      apply lookup_ge_None in Ht. apply lookup_lt_Some in Ht'. lia.
Qed.

Lemma matchesAt_split ULTTokens searchList first i :
  searchList !! 0 = Some first →
  matchesAt ULTTokens searchList i ↔
  (∃ t, ULTTokens !! i = Some t ∧ gl_payload t = word first)
  ∧ ∀ k t w, ULTTokens !! (S i + k) = Some t → searchList !! (1 + k) = Some w →
             gl_payload t = word w.
Proof.
  intros Hfirst. unfold matchesAt. split.
  - intros [Hlt Hall]. split.
    + apply lookup_lt_is_Some in Hlt as [t Ht]. exists t. split; [done|].
      apply (Hall 0); by rewrite ?Nat.add_0_r.
    + intros k t w Ht Hw. apply (Hall (S k)); [|done].
      by rewrite Nat.add_succ_r.
  - intros [(t & Ht & Heq) Hrest]. split; [by eapply lookup_lt_Some|].
    intros [|k] t' w'.
    + rewrite Nat.add_0_r. congruence.
    + rewrite Nat.add_succ_r. apply Hrest.
Qed.

Lemma findStart_Some fuel first ULTTokens searchList startULTIndex i :
  searchList !! 0 = Some first →
  findStart fuel (word first) ULTTokens searchList startULTIndex = Some i →
  startULTIndex ≤ i ∧ matchesAt ULTTokens searchList i
  ∧ ∀ j, startULTIndex ≤ j < i → ¬ matchesAt ULTTokens searchList j.
Proof.
  intros Hfirst. revert startULTIndex.
  induction fuel as [|fuel IH]; intros startULTIndex; simpl; [done|].
  destruct (getFirstWordIndex _ _ _) as [start|] eqn:Hidx; [|done].
  apply getFirstWordIndex_Some in Hidx as (Hle & Hhere & Hnotbefore).
  assert (∀ j, startULTIndex ≤ j < start → ¬ matchesAt ULTTokens searchList j) as Hbefore.
  { intros j Hj [(t & Ht & Heq) _]%(matchesAt_split _ _ first); [|done].
    by apply (Hnotbefore j t). }
  destruct (compareFollowing _ _ _ _ _) eqn:Hcmp.
  - intros [= <-]. rewrite compareFollowing_spec in Hcmp by lia.
    split; [done|]. split; [|done]. by apply (matchesAt_split _ _ first).
  - intros (Hle' & Hmatch & Hnone)%IH. split; [lia|]. split; [done|].
    intros j Hj. destruct (decide (j < start)); [apply Hbefore; lia|].
    destruct (decide (j = start)) as [->|]; [|apply Hnone; lia].
    intros [_ Hrest]%(matchesAt_split _ _ first); [|done].
    rewrite <-compareFollowing_spec in Hrest by reflexivity. congruence.
Qed.

Lemma findStart_None fuel first ULTTokens searchList startULTIndex :
  searchList !! 0 = Some first →
  length ULTTokens - startULTIndex < fuel →
  findStart fuel (word first) ULTTokens searchList startULTIndex = None →
  ∀ j, startULTIndex ≤ j → ¬ matchesAt ULTTokens searchList j.
Proof.
  intros Hfirst. revert startULTIndex.
  induction fuel as [|fuel IH]; intros startULTIndex Hfuel; simpl; [lia|].
  destruct (getFirstWordIndex _ _ _) as [start|] eqn:Hidx.
  - pose proof Hidx as (Hle & [t [Ht _]] & Hnotbefore)%getFirstWordIndex_Some.
    apply lookup_lt_Some in Ht.
    destruct (compareFollowing _ _ _ _ _) eqn:Hcmp; [done|].
    intros Hnone j Hj. destruct (decide (j < start)).
    + intros [(t' & Ht' & Heq) _]%(matchesAt_split _ _ first); [|done].
      by apply (Hnotbefore j t').
    + destruct (decide (j = start)) as [->|].
      * intros [_ Hrest]%(matchesAt_split _ _ first); [|done].
        rewrite <-compareFollowing_spec in Hrest by reflexivity. congruence.
      * apply (IH (S start)); [lia|done|lia].
  - intros _ j Hj [(t & Ht & Heq) _]%(matchesAt_split _ _ first); [|done].
    by eapply getFirstWordIndex_None.
Qed.

Lemma addScopes_length fuel ULTTokens searchList startULTIndex searchIndex :
  length (addScopes fuel ULTTokens searchList startULTIndex searchIndex)
  = length searchList.
Proof.
  revert searchList startULTIndex searchIndex.
  induction fuel as [|fuel IH]; intros searchList startULTIndex searchIndex; simpl; [done|].
  destruct (ULTTokens !! startULTIndex); [|done].
  destruct (searchList !! searchIndex); [|done].
  by rewrite IH, length_insert.
Qed.

(** A full contiguous match is a match. *)
Lemma fullMatchAt_matchesAt ULTTokens searchList first i :
  searchList !! 0 = Some first →
  fullMatchAt ULTTokens searchList i → matchesAt ULTTokens searchList i.
Proof.
  intros Hfirst Hfull. split.
  - destruct (Hfull 0 first Hfirst) as (t & Ht & _).
    rewrite Nat.add_0_r in Ht. by eapply lookup_lt_Some.
  - intros k t w Ht Hw. destruct (Hfull k w Hw) as (t' & Ht' & Heq). congruence.
Qed.

(** What the matcher returns: the empty list exactly when no start index
    matches as far as the tokens go, and otherwise the search list with
    scopes pushed from the first such index. *)
Lemma searchULTWordRecords_result ULTSearchString ULTTokens first :
  intermediateSearchList ULTSearchString !! 0 = Some first →
  (searchULTWordRecords ULTSearchString (Some ULTTokens) = Ok []
   ∧ ∀ j, ¬ matchesAt ULTTokens (intermediateSearchList ULTSearchString) j)
  ∨ (∃ i l, searchULTWordRecords ULTSearchString (Some ULTTokens) = Ok l
      ∧ length l = length (intermediateSearchList ULTSearchString)
      ∧ matchesAt ULTTokens (intermediateSearchList ULTSearchString) i
      ∧ ∀ j, j < i → ¬ matchesAt ULTTokens (intermediateSearchList ULTSearchString) j).
Proof.
  intros Hfirst. unfold searchULTWordRecords. cbv zeta. rewrite Hfirst.
  destruct (findStart _ _ _ _ _) as [i|] eqn:Hfind.
  - right. apply (findStart_Some _ first) in Hfind as (_ & Hmatch & Hleast); [|done].
    eexists i, _. split; [done|]. rewrite addScopes_length.
    split; [done|]. split; [done|]. intros j Hj. apply Hleast. lia.
  - left. split; [done|]. intros j.
    eapply (findStart_None _ first); [done| |done|]; lia.
Qed.

(** A full contiguous match makes the matcher succeed. *)
Lemma searchULTWordRecords_complete ULTSearchString ULTTokens first i :
  intermediateSearchList ULTSearchString !! 0 = Some first →
  fullMatchAt ULTTokens (intermediateSearchList ULTSearchString) i →
  ∃ l, searchULTWordRecords ULTSearchString (Some ULTTokens) = Ok l ∧ l ≠ [].
Proof.
  intros Hfirst Hfull.
  destruct (searchULTWordRecords_result ULTSearchString ULTTokens first Hfirst)
    as [[_ Hnone]|(i' & l & Hl & Hlen & _)].
  - destruct (Hnone i). by eapply fullMatchAt_matchesAt.
  - exists l. split; [done|]. intros ->.
    apply lookup_lt_Some in Hfirst. simpl in Hlen. lia.
Qed.

End Matcher.

(** ** The projector *)

Section Projector.
Context `{Collaborators}.

(** A word is taken exactly when a three-tuple with one or two scopes has
    a scope that contains the search key. *)
Lemma namedByTuples_spec key ULTSearchThreeTuples :
  namedByTuples key ULTSearchThreeTuples = true ↔
  ∃ t refs ref, t ∈ ULTSearchThreeTuples ∧ alignment t = Some refs
    ∧ (length refs = 1 ∨ length refs = 2) ∧ ref ∈ refs ∧ occursIn key ref.
Proof.
  induction ULTSearchThreeTuples as [|t rest IH]; simpl.
  - split; [done|]. intros (t & ? & ? & Hin & _). by apply elem_of_nil in Hin.
  - assert (namedByTuples key rest = true →
            ∃ t0 refs ref, t0 ∈ t :: rest ∧ alignment t0 = Some refs
              ∧ (length refs = 1 ∨ length refs = 2) ∧ ref ∈ refs ∧ occursIn key ref)
      as Hlater.
    { intros (t0 & refs & ref & Hin & Hrest)%IH. exists t0, refs, ref.
      split; [by apply list_elem_of_further|done]. }
    assert (∀ refs ref, alignment t = Some refs → (length refs = 1 ∨ length refs = 2) →
              ref ∈ refs → occursIn key ref →
              ∃ t0 refs ref, t0 ∈ t :: rest ∧ alignment t0 = Some refs
                ∧ (length refs = 1 ∨ length refs = 2) ∧ ref ∈ refs ∧ occursIn key ref)
      as Hhere.
    { intros refs ref ????. exists t, refs, ref. split; [apply list_elem_of_here|done]. }
    assert ((∃ t0 refs ref, t0 ∈ t :: rest ∧ alignment t0 = Some refs
              ∧ (length refs = 1 ∨ length refs = 2) ∧ ref ∈ refs ∧ occursIn key ref) →
            (∃ refs ref, alignment t = Some refs ∧ (length refs = 1 ∨ length refs = 2)
              ∧ ref ∈ refs ∧ occursIn key ref)
            ∨ namedByTuples key rest = true) as Hsplit.
    { intros (t0 & refs & ref & [->|Hin]%elem_of_cons & Hrest).
      - left. by exists refs, ref.
      - right. apply IH. by exists t0, refs, ref. }
    destruct (alignment t) as [[|s0 [|s1 [|s2 refs]]]|] eqn:Hal.
    + split; [done|]. intros [(refs & ref & [= <-] & _ & Hin & _)|?]%Hsplit; [|done].
      by apply elem_of_nil in Hin.
    + destruct (indexOf s0 key =? -1)%Z eqn:Hidx; simpl.
      * split; [done|].
        intros [(refs & ref & [= <-] & _ & Hin & Hocc)|?]%Hsplit; [|done].
        apply list_elem_of_singleton in Hin as ->.
        apply indexOf_found in Hocc. congruence.
      * split; [|done]. intros _. apply (Hhere [s0] s0); [done|by left| |].
        -- apply list_elem_of_here.
        -- by apply indexOf_found.
    + destruct (indexOf s0 key =? -1)%Z eqn:Hidx0;
        destruct (indexOf s1 key =? -1)%Z eqn:Hidx1; simpl.
      * split; [done|].
        intros [(refs & ref & [= <-] & _ & Hin & Hocc)|?]%Hsplit; [|done].
        apply indexOf_found in Hocc.
        apply elem_of_cons in Hin as [->|Hin]; [congruence|].
        apply list_elem_of_singleton in Hin as ->. congruence.
      * split; [|done]. intros _. apply (Hhere [s0; s1] s1); [done|by right| |].
        -- apply list_elem_of_further, list_elem_of_here.
        -- by apply indexOf_found.
      * split; [|done]. intros _. apply (Hhere [s0; s1] s0); [done|by right| |].
        -- apply list_elem_of_here.
        -- by apply indexOf_found.
      * split; [|done]. intros _. apply (Hhere [s0; s1] s0); [done|by right| |].
        -- apply list_elem_of_here.
        -- by apply indexOf_found.
    + split; [done|].
      intros [(refs' & ref & [= <-] & [?|?] & _)|?]%Hsplit; simpl in *; done || lia.
    + split; [done|]. by intros [(refs' & ref & [=] & _)|?]%Hsplit.
Qed.

(** The outer loop keeps the words of the list that are named, in order. *)
Lemma origLQuoteWords_filter origLWordList ULTSearchThreeTuples :
  origLQuoteWords origLWordList ULTSearchThreeTuples
  = List.filter (λ w, namedByTuples (searchOrigLWord w) ULTSearchThreeTuples) origLWordList.
Proof.
  induction origLWordList as [|w l IH]; simpl; [done|].
  by destruct (namedByTuples _ _); rewrite IH.
Qed.

Lemma origLQuoteWords_elem w origLWordList ULTSearchThreeTuples :
  w ∈ origLQuoteWords origLWordList ULTSearchThreeTuples →
  w ∈ origLWordList ∧ namedByTuples (searchOrigLWord w) ULTSearchThreeTuples = true.
Proof.
  induction origLWordList as [|w' l IH]; simpl.
  - intros Hin. by apply elem_of_nil in Hin.
  - destruct (namedByTuples (searchOrigLWord w') _) eqn:Hnamed.
    + intros [->|Hin]%elem_of_cons.
      * split; [apply list_elem_of_here|done].
      * destruct (IH Hin). split; [by apply list_elem_of_further|done].
    + intros Hin. destruct (IH Hin). split; [by apply list_elem_of_further|done].
Qed.

Lemma origLQuoteWords_sublist origLWordList ULTSearchThreeTuples :
  sublist (origLQuoteWords origLWordList ULTSearchThreeTuples) origLWordList.
Proof.
  induction origLWordList as [|w l IH]; simpl; [constructor|].
  destruct (namedByTuples _ _); by constructor.
Qed.

Lemma origLQuoteWords_occurrences w origLWordList ULTSearchThreeTuples :
  occurrences w (origLQuoteWords origLWordList ULTSearchThreeTuples)
  ≤ occurrences w origLWordList.
Proof.
  unfold occurrences. induction origLWordList as [|w' l IH]; simpl; [done|].
  destruct (namedByTuples _ _); simpl; destruct (eqb w w'); simpl; lia.
Qed.

Lemma origLFromGLQuote_unfold book cv sourceTokens ULTTokens ULTSearchString
    searchOccurrence prune triples tokens :
  searchULTWordRecords ULTSearchString ULTTokens = Ok triples →
  sourceTokens = Some tokens →
  origLFromGLQuote book cv sourceTokens ULTTokens ULTSearchString searchOccurrence prune
  = let slim := slimSourceTokens (List.filter isWordLike tokens) in
    match origLQuoteWords (map slim_payload slim) triples with
    | [] => Ok {| data := None;
                  error := Some (emptyMatchMessage book cv ULTSearchString searchOccurrence
                                   (default [] ULTTokens) triples slim) |}
    | w :: ws => Ok {| data := Some (w :: ws); error := None |}
    end.
Proof.
  intros Hsearch ->. unfold origLFromGLQuote. rewrite Hsearch. simpl.
  by destruct (origLQuoteWords _ _).
Qed.

Lemma emptyMatchMessage_embeds book cv ULTSearchString searchOccurrence ULTTokens
    triples slim :
  let msg := emptyMatchMessage book cv ULTSearchString searchOccurrence ULTTokens
               triples slim in
  occursIn ULTSearchString msg ∧ occursIn searchOccurrence msg
  ∧ occursIn (JSON_stringify_GL ULTTokens) msg
  ∧ occursIn (tuples_toString triples) msg
  ∧ occursIn (JSON_stringify_slim slim) msg.
Proof.
  unfold emptyMatchMessage.
  repeat split;
    repeat first [ apply occursIn_here
                 | apply occursIn_app_r, occursIn_app_l, occursIn_here
                 | exists [], []; by rewrite app_nil_r
                 | apply occursIn_app_r ].
Qed.

End Projector.

(** ** Claims about the projector *)

Section ProjectorClaims.
Context `{Collaborators}.

(** C4 (projection soundness).  When [origLFromGLQuote] returns
    [{ data: words }], the matcher has returned three-tuples and every
    word of [words] has, among them, an alignment reference that contains
    [/<word>:] as a substring; [words] is a subsequence of the verse's
    original-language word list, so a word of the verse is emitted at
    most once however many three-tuples name it. *)
Theorem C4_projection_soundness book cv sourceTokens ULTTokens ULTSearchString
    searchOccurrence prune resultObject words :
  origLFromGLQuote book cv sourceTokens ULTTokens ULTSearchString searchOccurrence prune
    = Ok resultObject →
  data resultObject = Some words →
  ∃ triples tokens,
    searchULTWordRecords ULTSearchString ULTTokens = Ok triples
    ∧ sourceTokens = Some tokens
    ∧ (∀ w, w ∈ words →
         ∃ t refs ref, t ∈ triples ∧ alignment t = Some refs ∧ ref ∈ refs
                       ∧ occursIn (searchOrigLWord w) ref)
    ∧ sublist words (map slim_payload (slimSourceTokens (List.filter isWordLike tokens)))
    ∧ ∀ w, occurrences w words
           ≤ occurrences w (map slim_payload
                              (slimSourceTokens (List.filter isWordLike tokens))).
Proof.
  intros Hres Hdata.
  destruct (searchULTWordRecords ULTSearchString ULTTokens) as [triples|e] eqn:Hsearch;
    [|by unfold origLFromGLQuote in Hres; rewrite Hsearch in Hres].
  destruct sourceTokens as [tokens|];
    [|by unfold origLFromGLQuote in Hres; rewrite Hsearch in Hres].
  rewrite (origLFromGLQuote_unfold _ _ _ _ _ _ _ triples tokens) in Hres by done.
  cbv zeta in Hres.
  destruct (origLQuoteWords _ triples) as [|w0 ws] eqn:Hwords;
    injection Hres as <-; simpl in Hdata; [done|]. injection Hdata as <-.
  exists triples, tokens. split; [done|]. split; [done|]. rewrite <-Hwords.
  split; [|split].
  - intros w [_ Hnamed]%origLQuoteWords_elem.
    apply namedByTuples_spec in Hnamed as (t & refs & ref & ? & ? & _ & ? & ?).
    by exists t, refs, ref.
  - apply origLQuoteWords_sublist.
  - intros w. apply origLQuoteWords_occurrences.
Qed.

(** C7.  [origLFromGLQuote] returns [{ data: words }] exactly when the
    list of matched original-language words is not empty and
    [{ error: message }] exactly when it is empty; the message embeds the
    search phrase, the occurrence and the dumps of the gloss tokens, of the
    three-tuples and of the original-language tokens.  (The function
    throws when the matcher throws or the source tokens are undefined.) *)
Theorem C7_data_or_error book cv sourceTokens ULTTokens ULTSearchString
    searchOccurrence prune :
  match searchULTWordRecords ULTSearchString ULTTokens, sourceTokens with
  | Ok triples, Some tokens =>
      let slim := slimSourceTokens (List.filter isWordLike tokens) in
      match origLQuoteWords (map slim_payload slim) triples with
      | [] =>
          ∃ message,
            origLFromGLQuote book cv sourceTokens ULTTokens ULTSearchString
              searchOccurrence prune = Ok {| data := None; error := Some message |}
            ∧ occursIn ULTSearchString message
            ∧ occursIn searchOccurrence message
            ∧ occursIn (JSON_stringify_GL (default [] ULTTokens)) message
            ∧ occursIn (tuples_toString triples) message
            ∧ occursIn (JSON_stringify_slim slim) message
      | w :: words =>
          origLFromGLQuote book cv sourceTokens ULTTokens ULTSearchString
            searchOccurrence prune = Ok {| data := Some (w :: words); error := None |}
      end
  | Ok _, None =>
      ∃ e, origLFromGLQuote book cv sourceTokens ULTTokens ULTSearchString
             searchOccurrence prune = Throw e
  | Throw e, _ =>
      origLFromGLQuote book cv sourceTokens ULTTokens ULTSearchString
        searchOccurrence prune = Throw e
  end.
Proof.
  destruct (searchULTWordRecords ULTSearchString ULTTokens) as [triples|e] eqn:Hsearch.
  - destruct sourceTokens as [tokens|].
    + rewrite (origLFromGLQuote_unfold _ _ _ _ _ _ _ triples tokens) by done.
      cbv zeta. destruct (origLQuoteWords _ triples) as [|w ws]; [|done].
      eexists. split; [done|]. apply emptyMatchMessage_embeds.
    + unfold origLFromGLQuote. rewrite Hsearch. simpl. by eexists.
  - unfold origLFromGLQuote. by rewrite Hsearch.
Qed.

End ProjectorClaims.

(** C4 at Matthew 5:4 of the example index: [the poor] projects to
    [hoi ptochoi]. *)
Lemma C4_projection_soundness_witness :
  ∃ triples tokens,
    searchULTWordRecords (js "the poor")
      (Some [mkGLToken (js "the") [Example.aligned (js "hoi")];
             mkGLToken (js "poor") [Example.aligned (js "ptochoi")]]) = Ok triples
    ∧ Some [Example.wordToken (js "makarioi") []; Example.wordToken (js "hoi") [];
            Example.wordToken (js "ptochoi") []] = Some tokens
    ∧ (∀ w, w ∈ [js "hoi"; js "ptochoi"] →
         ∃ t refs ref, t ∈ triples ∧ alignment t = Some refs ∧ ref ∈ refs
                       ∧ occursIn (searchOrigLWord w) ref)
    ∧ sublist [js "hoi"; js "ptochoi"]
        (map slim_payload (slimSourceTokens (List.filter isWordLike tokens)))
    ∧ ∀ w, occurrences w [js "hoi"; js "ptochoi"]
           ≤ occurrences w (map slim_payload
                              (slimSourceTokens (List.filter isWordLike tokens))).
Proof.
  apply (C4_projection_soundness (js "MAT") (js "5:4") _ _ _ (js "1") true
           {| data := Some [js "hoi"; js "ptochoi"]; error := None |});
    vm_compute; reflexivity.
Defined.

(** ** The resolver *)

Section Resolver.
Context `{Collaborators}.
Variables (tokenLookup : TokenLookup) (book testament : jsstring).

(** One round of the verse loop when [verseIdx] is the index of the verse
    in an array of [versesLength] verses: the test of line 395 asks
    whether verses are left. *)
Lemma verseLoop_cons versesLength verseIdx chapter verse verses st tsvRecord :
  verseIdx + S (length verses) = versesLength →
  verseLoop tokenLookup book testament versesLength verseIdx chapter (verse :: verses)
    st tsvRecord
  = '(cv, resultObject) ← tryVerse tokenLookup book testament tsvRecord chapter verse;
    match resultObject with
    | None => Throw (TypeError "Cannot use 'in' operator to search for 'data' in null")
    | Some resultObject =>
        if hasData resultObject then
          Ok (commitPass st tsvRecord (default [] (data resultObject)))
        else match verses with
             | [] => Ok (commitFail book st tsvRecord cv resultObject)
             | _ :: _ =>
                 verseLoop tokenLookup book testament versesLength (S verseIdx) chapter
                   verses st tsvRecord
             end
    end.
Proof.
  intros Hlen. cbn [verseLoop].
  destruct (tryVerse _ _ _ _ _ _) as [[cv [resultObject|]]|e];
    cbn [mbind result_bind]; [|done..].
  destruct (hasData resultObject); [done|].
  destruct (verseIdx <? versesLength - 1) eqn:Hlt;
    [apply Nat.ltb_lt in Hlt|apply Nat.ltb_ge in Hlt];
    destruct verses as [|verse' verses]; cbn [length] in Hlen; try lia; [done|].
  by destruct (commitFail _ _ _ _ _).
Qed.

(** The verses are tried in order; the first result with data is
    committed, and a result without data is committed only for the last
    verse. *)
Lemma verseLoop_first_data versesLength verseIdx chapter pre verse post st tsvRecord
    cv resultObject :
  verseIdx + length (pre ++ verse :: post) = versesLength →
  Forall (λ u, ∃ cvu rou,
            tryVerse tokenLookup book testament tsvRecord chapter u = Ok (cvu, Some rou)
            ∧ hasData rou = false) pre →
  tryVerse tokenLookup book testament tsvRecord chapter verse = Ok (cv, Some resultObject) →
  (hasData resultObject = false → post = []) →
  verseLoop tokenLookup book testament versesLength verseIdx chapter
    (pre ++ verse :: post) st tsvRecord
  = Ok (if hasData resultObject
        then commitPass st tsvRecord (default [] (data resultObject))
        else commitFail book st tsvRecord cv resultObject).
Proof.
  revert verseIdx. induction pre as [|u pre IH]; intros verseIdx Hlen Hpre Hverse Hlast.
  - simpl app. rewrite verseLoop_cons by (simpl in Hlen; lia).
    rewrite Hverse. cbn [mbind result_bind].
    destruct (hasData resultObject); [done|]. by rewrite Hlast.
  - apply Forall_cons in Hpre as [(cvu & rou & Hu & Hnodata) Hpre].
    simpl app. rewrite verseLoop_cons by (simpl in Hlen; lia).
    rewrite Hu. cbn [mbind result_bind]. rewrite Hnodata.
    assert (S verseIdx + length (pre ++ verse :: post) = versesLength) as Hlen'
      by (simpl in Hlen; lia).
    pose proof (IH (S verseIdx) Hlen' Hpre Hverse Hlast) as Hrest. clear IH.
    destruct (pre ++ verse :: post) eqn:Heq; [by destruct pre|]. exact Hrest.
Qed.

(** An exception in a verse ends the loop, whatever verses are left. *)
Lemma verseLoop_throw versesLength verseIdx chapter pre verse post st tsvRecord e :
  verseIdx + length (pre ++ verse :: post) = versesLength →
  Forall (λ u, ∃ cvu rou,
            tryVerse tokenLookup book testament tsvRecord chapter u = Ok (cvu, Some rou)
            ∧ hasData rou = false) pre →
  tryVerse tokenLookup book testament tsvRecord chapter verse = Throw e →
  verseLoop tokenLookup book testament versesLength verseIdx chapter
    (pre ++ verse :: post) st tsvRecord
  = Throw e.
Proof.
  revert verseIdx. induction pre as [|u pre IH]; intros verseIdx Hlen Hpre Hverse.
  - simpl app. rewrite verseLoop_cons by (simpl in Hlen; lia). by rewrite Hverse.
  - apply Forall_cons in Hpre as [(cvu & rou & Hu & Hnodata) Hpre].
    simpl app. rewrite verseLoop_cons by (simpl in Hlen; lia).
    rewrite Hu. cbn [mbind result_bind]. rewrite Hnodata.
    assert (S verseIdx + length (pre ++ verse :: post) = versesLength) as Hlen'
      by (simpl in Hlen; lia).
    pose proof (IH (S verseIdx) Hlen' Hpre Hverse) as Hrest. clear IH.
    destruct (pre ++ verse :: post) eqn:Heq; [by destruct pre|]. exact Hrest.
Qed.

(** What the verse loop can have done when it returns. *)
Lemma verseLoop_outcome versesLength verseIdx chapter verses st tsvRecord st' tsvRecord' :
  verseIdx + length verses = versesLength →
  verseLoop tokenLookup book testament versesLength verseIdx chapter verses st tsvRecord
    = Ok (st', tsvRecord') →
  (verses = [] ∧ st' = st ∧ tsvRecord' = tsvRecord)
  ∨ (∃ words, (st', tsvRecord') = commitPass st tsvRecord words)
  ∨ (∃ cv resultObject, (st', tsvRecord') = commitFail book st tsvRecord cv resultObject).
Proof.
  revert verseIdx. induction verses as [|verse verses IH]; intros verseIdx Hlen.
  - simpl. intros [= <- <-]. by left.
  - rewrite verseLoop_cons by (simpl in Hlen; lia).
    destruct (tryVerse _ _ _ _ _ _) as [[cv [resultObject|]]|e];
      cbn [mbind result_bind]; [|done..].
    destruct (hasData resultObject).
    + intros Heq. right. left. exists (default [] (data resultObject)). congruence.
    + destruct verses as [|verse' verses].
      * intros Heq. right. right. exists cv, resultObject. congruence.
      * intros Hloop. apply IH in Hloop; [|simpl in Hlen |- *; lia].
        destruct Hloop as [[? _]|Hloop]; [done|by right].
Qed.

Lemma isPassedThrough_false tsvRecord :
  isPassedThrough tsvRecord = false →
  ∃ ref quote occurrence,
    tsv_ref tsvRecord = Some ref ∧ tsv_quote tsvRecord = Some quote
    ∧ tsv_occurrence tsvRecord = Some occurrence
    ∧ ref ≠ [] ∧ occurrence ≠ [] ∧ trim quote ≠ []
    ∧ containsHebrewOrGreek quote = false.
Proof.
  unfold isPassedThrough. rewrite !orb_false_iff, !negb_false_iff.
  intros ((((Href & Hquote) & Hocc) & _) & Hscript).
  destruct (tsv_ref tsvRecord) as [[|c ref]|]; [done| |done].
  destruct (tsv_quote tsvRecord) as [quote|]; [|done].
  destruct (tsv_occurrence tsvRecord) as [[|c' occurrence]|]; [done| |done].
  eexists _, _, _. repeat split; try done.
  simpl in Hquote. by destruct (trim quote).
Qed.

Lemma processRecord_passed_through st tsvRecord :
  isPassedThrough tsvRecord = true →
  processRecord tokenLookup book testament st tsvRecord
  = Ok {| output := output st ++ [tsvRecordToString tsvRecord]; errors := errors st;
          nRecords := S (nRecords st); counts_pass := counts_pass st;
          counts_fail := counts_fail st |}.
Proof. intros Hpass. unfold processRecord. by rewrite Hpass. Qed.

(** A processed record enters the verse loop with the tag stripped from
    its quote. *)
Lemma processRecord_processed st tsvRecord quote ref chapter verseRef more :
  isPassedThrough tsvRecord = false →
  tsv_quote tsvRecord = Some quote →
  tsv_ref tsvRecord = Some ref →
  split_char COLON ref = chapter :: verseRef :: more →
  processRecord tokenLookup book testament st tsvRecord
  = fst <$> verseLoop tokenLookup book testament (length (expandVerses verseRef)) 0
              chapter (expandVerses verseRef)
              {| output := output st; errors := errors st; nRecords := S (nRecords st);
                 counts_pass := counts_pass st; counts_fail := counts_fail st |}
              (set_quote tsvRecord (replace_first QUOTE_NOT_FOUND [] quote)).
Proof.
  intros Hpass Hquote Href Hsplit. unfold processRecord.
  rewrite Hpass, Hquote. cbn [tsv_ref set_quote]. by rewrite Href, Hsplit.
Qed.

End Resolver.

(** ** Claims about the resolver *)

Section ResolverClaims.
Context `{Collaborators}.
Variables (tokenLookup : TokenLookup) (book testament : jsstring).

(** Where the verses are tried as C5 has it.  A processed row whose ref
    expands to the verses [pre ++ verse :: post]: when every verse of
    [pre] gives a result without data (none of them throws) and [verse]
    is the first that gives a result with data, the row is committed as a
    pass with the projection of [verse] and no error is recorded,
    whatever failed before; a result without data is committed as the
    row's failure, with one recorded error, only when [verse] is the last
    candidate. *)
Lemma first_resolving_verse_wins st tsvRecord quote ref chapter verseRef more
    pre verse post cv resultObject :
  isPassedThrough tsvRecord = false →
  tsv_quote tsvRecord = Some quote →
  tsv_ref tsvRecord = Some ref →
  split_char COLON ref = chapter :: verseRef :: more →
  expandVerses verseRef = pre ++ verse :: post →
  Forall (λ u, ∃ cvu rou,
            tryVerse tokenLookup book testament
              (set_quote tsvRecord (replace_first QUOTE_NOT_FOUND [] quote)) chapter u
            = Ok (cvu, Some rou) ∧ hasData rou = false) pre →
  tryVerse tokenLookup book testament
    (set_quote tsvRecord (replace_first QUOTE_NOT_FOUND [] quote)) chapter verse
  = Ok (cv, Some resultObject) →
  (hasData resultObject = false → post = []) →
  processRecord tokenLookup book testament st tsvRecord
  = Ok (if hasData resultObject then
          {| output := output st
                       ++ [tsvRecordToString
                             (set_quote tsvRecord
                                (getTidiedData (default [] (data resultObject))))];
             errors := errors st;
             nRecords := S (nRecords st);
             counts_pass := S (counts_pass st);
             counts_fail := counts_fail st |}
        else
          {| output := output st
                       ++ [tsvRecordToString
                             (set_quote tsvRecord
                                (QUOTE_NOT_FOUND
                                 ++ replace_first QUOTE_NOT_FOUND [] quote))];
             errors := errors st
                       ++ [js "Error: " ++ book ++ js " " ++ cv ++ js " "
                           ++ opt_toString (tsv_id tsvRecord) ++ js " "
                           ++ opt_toString (error resultObject)];
             nRecords := S (nRecords st);
             counts_pass := counts_pass st;
             counts_fail := S (counts_fail st) |}).
Proof.
  intros Hpass Hquote Href Hsplit Hverses Hpre Hverse Hlast.
  rewrite (processRecord_processed _ _ _ _ _ quote ref chapter verseRef more) by done.
  rewrite Hverses.
  rewrite (verseLoop_first_data _ _ _ _ _ _ pre verse post _ _ cv resultObject)
    by done.
  by destruct (hasData resultObject).
Qed.

(** C8.  A row whose quote contains a Hebrew or Greek character (the
    class of [containsHebrewOrGreek]), or whose quote is missing, empty or
    blank, or whose ref is the header label [Reference], is emitted as
    the serialization of the unchanged record; no resolution is
    attempted, the counters of passes and failures and the error list
    stay as they are. *)
Theorem C8_pass_through st tsvRecord :
  (∃ quote c, tsv_quote tsvRecord = Some quote ∧ c ∈ quote ∧ isHebrewOrGreek c = true)
  ∨ tsv_quote tsvRecord = None
  ∨ (∃ quote, tsv_quote tsvRecord = Some quote ∧ trim quote = [])
  ∨ tsv_ref tsvRecord = Some (js "Reference") →
  processRecord tokenLookup book testament st tsvRecord
  = Ok {| output := output st ++ [tsvRecordToString tsvRecord];
          errors := errors st;
          nRecords := S (nRecords st);
          counts_pass := counts_pass st;
          counts_fail := counts_fail st |}.
Proof.
  intros Hcases. apply processRecord_passed_through. unfold isPassedThrough.
  destruct Hcases as [(quote & c & Hquote & Hin & Hc)|[Hquote|[(quote & Hquote & Hblank)|Href]]].
  - rewrite Hquote. simpl opt_toString.
    assert (containsHebrewOrGreek quote = true) as ->; [|by rewrite !orb_true_r].
    apply existsb_exists. exists c. by rewrite <-list_elem_of_In.
  - rewrite Hquote. simpl. by rewrite orb_true_r.
  - rewrite Hquote. simpl. rewrite Hblank. simpl. by rewrite orb_true_r.
  - rewrite Href. rewrite bool_decide_true by done. by rewrite !orb_true_r.
Qed.

End ResolverClaims.

(** The row [5:3,4 / the poor] of the example index: verse 3 has no
    [poor], verse 4 resolves. *)
Lemma first_resolving_verse_wins_example :
  processRecord Example.lookup (js "MAT") (js "new") initialState
    (Example.parseRow (Example.row (js "5:3,4") (js "the poor") (js "1")))
  = Ok {| output := [Example.row (js "5:3,4") (js "hoi ptochoi") (js "1")];
          errors := [];
          nRecords := 1;
          counts_pass := 1;
          counts_fail := 0 |}.
Proof.
  refine (first_resolving_verse_wins Example.lookup (js "MAT") (js "new") initialState
            (Example.parseRow (Example.row (js "5:3,4") (js "the poor") (js "1")))
            (js "the poor") (js "5:3,4") (js "5") (js "3,4") []
            [Some 3%Z] (Some 4%Z) [] (js "5:4")
            {| data := Some [js "hoi"; js "ptochoi"]; error := None |}
            _ _ _ _ _ _ _ _).
  1-5, 7: vm_compute; reflexivity.
  - constructor; [|constructor]. eexists _, _. split; reflexivity.
  - intros Hdata. vm_compute in Hdata. discriminate.
Defined.

(** C8 on a row whose quote is Greek. *)
Lemma C8_pass_through_witness :
  processRecord Example.lookup (js "MAT") (js "new") initialState
    (Example.parseRow (Example.row (js "5:3") [0x3C0; 0x3C4; 0x3C9; 0x3C7; 0x3BF; 0x3AF]%N (js "1")))
  = Ok {| output := [Example.row (js "5:3") [0x3C0; 0x3C4; 0x3C9; 0x3C7; 0x3BF; 0x3AF]%N (js "1")];
          errors := [];
          nRecords := 1;
          counts_pass := 0;
          counts_fail := 0 |}.
Proof.
  refine (C8_pass_through Example.lookup (js "MAT") (js "new") initialState
            (Example.parseRow
               (Example.row (js "5:3") [0x3C0; 0x3C4; 0x3C9; 0x3C7; 0x3BF; 0x3AF]%N (js "1")))
            _).
  left. exists [0x3C0; 0x3C4; 0x3C9; 0x3C7; 0x3BF; 0x3AF]%N, 0x3C0%N.
  split; [vm_compute; reflexivity|]. split; [apply list_elem_of_here|reflexivity].
Defined.

Section TagClaims.
Context `{Collaborators}.
Variables (tokenLookup : TokenLookup) (book testament : jsstring).

Lemma startsWith_app pat post : startsWith pat (pat ++ post) = true.
Proof. apply startsWith_spec. by exists post. Qed.

Lemma replace_first_prefix pat repl post :
  replace_first pat repl (pat ++ post) = repl ++ post.
Proof.
  pose proof (startsWith_app pat post) as Hstarts.
  assert (replace_first pat repl (pat ++ post)
          = repl ++ drop (length pat) (pat ++ post)) as ->.
  { destruct (pat ++ post); cbn [replace_first]; by rewrite Hstarts. }
  by rewrite drop_app_length.
Qed.

Lemma startsWith_app_same pat s t :
  startsWith (pat ++ s) (pat ++ t) = startsWith s t.
Proof.
  induction pat as [|p pat IH]; [done|]. simpl. by rewrite N.eqb_refl, IH.
Qed.

Lemma replace_first_absent pat s : ¬ occursIn pat s → replace_first pat [] s = s.
Proof.
  induction s as [|c s IH]; intros Habsent.
  - cbn [replace_first]. destruct (startsWith pat []) eqn:Hstarts; [|done].
    destruct Habsent. apply startsWith_spec in Hstarts as [post ->]. by exists [], post.
  - cbn [replace_first]. destruct (startsWith pat (c :: s)) eqn:Hstarts.
    + destruct Habsent. apply startsWith_spec in Hstarts as [post ->]. by exists [], post.
    + rewrite IH; [done|]. intros (pre & post & ->). apply Habsent.
      by exists (c :: pre), post.
Qed.

(** C6, amended.  For a processed row whose quote begins with the tag
    [QUOTE_NOT_FOUND: ], line 306 strips that tag before any variant is
    generated: the verse loop runs over the candidate verses of the ref on
    the row with the stripped quote; in every verse the variants tried are
    those of the stripped quote; and when what follows the tag holds no
    further tag and is not blank, the row is processed exactly as the same
    row without the tag.  So when the row fails to resolve it is emitted
    with the quote it came with, the tag put back once: a row that came
    with one tag is emitted with one tag, and the emitted quote begins
    with a doubled tag exactly when the incoming quote did. *)
Theorem C6_tag_stripped_and_restored st tsvRecord quote :
  tsv_quote tsvRecord = Some (QUOTE_NOT_FOUND ++ quote) →
  isPassedThrough tsvRecord = false →
  (∀ ref chapter verseRef more,
     tsv_ref tsvRecord = Some ref →
     split_char COLON ref = chapter :: verseRef :: more →
     processRecord tokenLookup book testament st tsvRecord
     = fst <$> verseLoop tokenLookup book testament (length (expandVerses verseRef)) 0
                 chapter (expandVerses verseRef)
                 {| output := output st; errors := errors st; nRecords := S (nRecords st);
                    counts_pass := counts_pass st; counts_fail := counts_fail st |}
                 (set_quote tsvRecord quote))
  ∧ (∀ chapter verse,
       tryVerse tokenLookup book testament (set_quote tsvRecord quote) chapter verse
       = let cv := chapter ++ js ":" ++ num_toString verse in
         sourceBook ← property (if eqb testament (js "old") then tokenLookup !! js "uhb"
                                else tokenLookup !! js "ugnt") (toUpperCase book);
         sourceTokens ← property sourceBook cv;
         ultBook ← property (tokenLookup !! js "ult") (toUpperCase book);
         allULTTokens ← property ultBook cv;
         resultObject ← tryQuotes book cv sourceTokens
                          ((λ l, map (λ t, mkGLToken (payload t) (scopes t))
                                   (List.filter isWordLike l)) <$> allULTTokens)
                          (opt_toString (tsv_occurrence tsvRecord)) (quotesToTry quote) None;
         Ok (cv, resultObject))
  ∧ (¬ occursIn QUOTE_NOT_FOUND quote →
     isPassedThrough (set_quote tsvRecord quote) = false →
     processRecord tokenLookup book testament st tsvRecord
     = processRecord tokenLookup book testament st (set_quote tsvRecord quote))
  ∧ (∀ st',
       processRecord tokenLookup book testament st tsvRecord = Ok st' →
       counts_fail st' = S (counts_fail st) →
       output st' = output st
                    ++ [tsvRecordToString (set_quote tsvRecord (QUOTE_NOT_FOUND ++ quote))])
  ∧ startsWith (QUOTE_NOT_FOUND ++ QUOTE_NOT_FOUND) (QUOTE_NOT_FOUND ++ quote)
    = startsWith QUOTE_NOT_FOUND quote.
Proof.
  intros Hquote Hpass.
  pose proof (replace_first_prefix QUOTE_NOT_FOUND [] quote) as Hstrip.
  simpl app in Hstrip at 2.
  assert (∀ ref chapter verseRef more,
            tsv_ref tsvRecord = Some ref →
            split_char COLON ref = chapter :: verseRef :: more →
            processRecord tokenLookup book testament st tsvRecord
            = fst <$> verseLoop tokenLookup book testament (length (expandVerses verseRef)) 0
                        chapter (expandVerses verseRef)
                        {| output := output st; errors := errors st;
                           nRecords := S (nRecords st); counts_pass := counts_pass st;
                           counts_fail := counts_fail st |}
                        (set_quote tsvRecord quote)) as Hloop.
  { intros ref chapter verseRef more Href Hsplit.
    rewrite (processRecord_processed _ _ _ _ _ _ ref chapter verseRef more) by done.
    by rewrite Hstrip. }
  split; [done|]. split; [|split; [|split]].
  - intros chapter verse. unfold tryVerse. by destruct tsvRecord.
  - intros Habsent Hpass'. unfold processRecord.
    rewrite Hpass, Hpass', Hquote. cbn [tsv_quote set_quote].
    rewrite Hstrip, (replace_first_absent _ _ Habsent). by destruct tsvRecord.
  - intros st' Hproc Hfail.
    destruct (isPassedThrough_false _ Hpass) as (ref & quote' & _ & Href & _).
    destruct (split_char COLON ref) as [|chapter [|verseRef more]] eqn:Hsplit.
    + unfold processRecord in Hproc. rewrite Hpass, Hquote in Hproc.
      cbn [tsv_ref set_quote] in Hproc. by rewrite Href, Hsplit in Hproc.
    + unfold processRecord in Hproc. rewrite Hpass, Hquote in Hproc.
      cbn [tsv_ref set_quote] in Hproc. by rewrite Href, Hsplit in Hproc.
    + rewrite (Hloop ref chapter verseRef more) in Hproc by done.
      destruct (verseLoop _ _ _ _ _ _ _ _ _) as [[st1 tsvRecord1]|e] eqn:Hrun; [|done].
      injection Hproc as <-.
      apply verseLoop_outcome in Hrun
          as [(_ & -> & _)|[[words Hcommit]|(cv & ro & Hcommit)]];
        [| |injection Hcommit as -> _|done].
      * simpl in Hfail. lia.
      * injection Hcommit as -> _. simpl in Hfail. lia.
      * done.
  - apply startsWith_app_same.
Qed.

End TagClaims.

(** C6 as stated fails on a row that comes with the tag twice: only the
    first tag is stripped, and the failing row is emitted with a doubled
    tag. *)
Lemma C6_counterexample :
  ∃ errors,
    Example.run (Example.row (js "5:3")
                   (QUOTE_NOT_FOUND ++ QUOTE_NOT_FOUND ++ js "foo bar") (js "1"))
    = Resolved [Example.row (js "5:3")
                  (QUOTE_NOT_FOUND ++ QUOTE_NOT_FOUND ++ js "foo bar") (js "1")]
        errors
    ∧ length errors = 1.
Proof.
  exists (match Example.run (Example.row (js "5:3")
                   (QUOTE_NOT_FOUND ++ QUOTE_NOT_FOUND ++ js "foo bar") (js "1")) with
          | Resolved _ errors => errors
          | _ => []
          end).
  split; vm_compute; reflexivity.
Qed.

(** The amended C6 on the singly tagged row [5:3 / QUOTE_NOT_FOUND: foo
    bar]: it is emitted as it came. *)
Lemma C6_tag_stripped_and_restored_witness :
  ∃ st',
    processRecord Example.lookup (js "MAT") (js "new") initialState
      (Example.parseRow (Example.row (js "5:3") (QUOTE_NOT_FOUND ++ js "foo bar") (js "1")))
    = Ok st'
    ∧ counts_fail st' = 1
    ∧ output st' = [Example.row (js "5:3") (QUOTE_NOT_FOUND ++ js "foo bar") (js "1")].
Proof.
  exists (match processRecord Example.lookup (js "MAT") (js "new") initialState
                  (Example.parseRow
                     (Example.row (js "5:3") (QUOTE_NOT_FOUND ++ js "foo bar") (js "1"))) with
          | Ok st' => st'
          | Throw _ => initialState
          end).
  split; [vm_compute; reflexivity|]. split; [vm_compute; reflexivity|].
  refine (proj1 (proj2 (proj2 (proj2
    (C6_tag_stripped_and_restored Example.lookup (js "MAT") (js "new") initialState
       (Example.parseRow (Example.row (js "5:3") (QUOTE_NOT_FOUND ++ js "foo bar") (js "1")))
       (js "foo bar") _ _)))) _ _ _); vm_compute; reflexivity.
Defined.

(** ** The occurrence field *)

Section Occurrence.
Context `{Collaborators}.
Variables (tokenLookup : TokenLookup) (book testament : jsstring).
Variables (o1 o2 : jsstring).

Lemma result_rel_bind {A B} (R : A → A → Prop) (S : B → B → Prop)
    (m1 m2 : result A) (f1 f2 : A → result B) :
  result_rel R m1 m2 →
  (∀ a b, R a b → result_rel S (f1 a) (f2 b)) →
  result_rel S (m1 ≫= f1) (m2 ≫= f2).
Proof. destruct m1, m2; simpl; intros ? Hf; try done. by apply Hf. Qed.

Lemma result_rel_fmap {A B} (R : A → A → Prop) (S : B → B → Prop)
    (m1 m2 : result A) (f : A → B) :
  result_rel R m1 m2 →
  (∀ a b, R a b → S (f a) (f b)) →
  result_rel S (f <$> m1) (f <$> m2).
Proof. destruct m1, m2; simpl; intros ? Hf; try done. by apply Hf. Qed.

Lemma result_rel_eq {A} (m : result A) : result_rel eq m m.
Proof. by destruct m. Qed.

Lemma hasData_sameData a b : sameData a b → hasData a = hasData b.
Proof. unfold sameData, hasData. by intros ->. Qed.

(** The occurrence reaches the error message only. *)
Lemma origLFromGLQuote_occurrence cv sourceTokens ULTTokens ULTSearchString p :
  result_rel sameData
    (origLFromGLQuote book cv sourceTokens ULTTokens ULTSearchString o1 p)
    (origLFromGLQuote book cv sourceTokens ULTTokens ULTSearchString o2 p).
Proof.
  unfold origLFromGLQuote.
  destruct (searchULTWordRecords ULTSearchString ULTTokens) as [triples|e];
    cbn [mbind result_bind]; [|done].
  destruct sourceTokens as [tokens|]; [|done].
  by destruct (length _ =? 0).
Qed.

Lemma tryParts_occurrence cv sourceTokens ULTTokens parts a b partsConverted :
  sameDataOpt a b →
  result_rel (λ x y, sameDataOpt x.1 y.1 ∧ x.2 = y.2)
    (tryParts book cv sourceTokens ULTTokens o1 parts a partsConverted)
    (tryParts book cv sourceTokens ULTTokens o2 parts b partsConverted).
Proof.
  revert a b partsConverted.
  induction parts as [|part parts IH]; intros a b partsConverted Hab; [done|].
  cbn [tryParts].
  eapply result_rel_bind; [apply origLFromGLQuote_occurrence|].
  intros r1 r2 Hr. rewrite <-(hasData_sameData r1 r2 Hr).
  destruct (hasData r1).
  - rewrite <-Hr. by apply IH.
  - eapply result_rel_bind; [apply origLFromGLQuote_occurrence|].
    intros r1' r2' Hr'. rewrite <-(hasData_sameData r1' r2' Hr').
    destruct (hasData r1'); [|done]. rewrite <-Hr'. by apply IH.
Qed.

Lemma tryQuotes_occurrence cv sourceTokens ULTTokens quotes a b :
  sameDataOpt a b →
  result_rel sameDataOpt
    (tryQuotes book cv sourceTokens ULTTokens o1 quotes a)
    (tryQuotes book cv sourceTokens ULTTokens o2 quotes b).
Proof.
  revert a b. induction quotes as [|[quote|quote] quotes IH]; intros a b Hab; [done|..];
    cbn [tryQuotes].
  - eapply result_rel_bind; [apply origLFromGLQuote_occurrence|].
    intros r1 r2 Hr. rewrite <-(hasData_sameData r1 r2 Hr).
    destruct (hasData r1); [done|]. by apply IH.
  - eapply result_rel_bind; [by apply tryParts_occurrence|].
    intros [r1 pc1] [r2 pc2] [Hr Hpc]. simpl in Hr, Hpc. subst pc2.
    destruct (length pc1 =? length quote); [|by apply IH].
    by destruct r1, r2.
Qed.

Lemma sameRecord_variants r1 r2 :
  sameRecord o1 o2 r1 r2 →
  occurrenceVariants o1 o2 (tsvRecordToString r1) (tsvRecordToString r2).
Proof.
  intros (Href & Hid & Hquote & Hothers & Ho1 & Ho2). exists r1.
  destruct r1, r2. simpl in *. by subst.
Qed.

Lemma sameRecord_set_quote r1 r2 q :
  sameRecord o1 o2 r1 r2 → sameRecord o1 o2 (set_quote r1 q) (set_quote r2 q).
Proof. by intros (? & ? & ? & ? & ? & ?). Qed.

Lemma tryVerse_occurrence r1 r2 chapter verse :
  sameRecord o1 o2 r1 r2 →
  result_rel (λ x y, x.1 = y.1 ∧ sameDataOpt x.2 y.2)
    (tryVerse tokenLookup book testament r1 chapter verse)
    (tryVerse tokenLookup book testament r2 chapter verse).
Proof.
  intros (_ & _ & Hquote & _ & Ho1 & Ho2). unfold tryVerse.
  eapply result_rel_bind; [apply result_rel_eq|]. intros sourceBook ? <-.
  eapply result_rel_bind; [apply result_rel_eq|]. intros sourceTokens ? <-.
  eapply result_rel_bind; [apply result_rel_eq|]. intros ultBook ? <-.
  eapply result_rel_bind; [apply result_rel_eq|]. intros allULTTokens ? <-.
  rewrite <-Hquote, Ho1, Ho2. destruct (tsv_quote r1) as [quote|]; [|done].
  eapply result_rel_bind; [by apply tryQuotes_occurrence|]. by intros a b Hab.
Qed.

Lemma sameState_emit before st1 st2 r1 r2 e1 e2 n p f n' p' f' :
  sameState o1 o2 before st1 st2 → sameRecord o1 o2 r1 r2 → length e1 = length e2 →
  sameState o1 o2 before
    (mkState (output st1 ++ [tsvRecordToString r1]) (errors st1 ++ e1) n p f)
    (mkState (output st2 ++ [tsvRecordToString r2]) (errors st2 ++ e2) n' p' f') ↔
  n = n' ∧ p = p' ∧ f = f'.
Proof.
  intros (_ & _ & _ & Herr & new1 & new2 & -> & -> & Hnew) Hrec He.
  unfold sameState. simpl. rewrite !length_app, He, Herr.
  split; [by intros (? & ? & ? & _)|].
  intros (-> & -> & ->). repeat split; try done.
  exists (new1 ++ [tsvRecordToString r1]), (new2 ++ [tsvRecordToString r2]).
  rewrite !(assoc_L (++)). repeat split; try done.
  apply Forall2_app; [done|]. constructor; [|constructor].
  by apply sameRecord_variants.
Qed.

Lemma commitPass_occurrence before st1 st2 r1 r2 words :
  sameState o1 o2 before st1 st2 → sameRecord o1 o2 r1 r2 →
  sameState o1 o2 before (commitPass st1 r1 words).1 (commitPass st2 r2 words).1
  ∧ sameRecord o1 o2 (commitPass st1 r1 words).2 (commitPass st2 r2 words).2.
Proof.
  intros Hst Hrec. pose proof Hst as (Hn & Hp & Hf & _).
  unfold commitPass. cbn [fst snd]. split; [|by apply sameRecord_set_quote].
  rewrite <-(app_nil_r (errors st1)), <-(app_nil_r (errors st2)).
  apply sameState_emit; [done|by apply sameRecord_set_quote|done|].
  by rewrite Hn, Hp, Hf.
Qed.

Lemma commitFail_occurrence before st1 st2 r1 r2 cv a b :
  sameState o1 o2 before st1 st2 → sameRecord o1 o2 r1 r2 →
  sameState o1 o2 before (commitFail book st1 r1 cv a).1 (commitFail book st2 r2 cv b).1
  ∧ sameRecord o1 o2 (commitFail book st1 r1 cv a).2 (commitFail book st2 r2 cv b).2.
Proof.
  intros Hst Hrec. pose proof Hst as (Hn & Hp & Hf & _).
  pose proof Hrec as (_ & _ & Hquote & _).
  unfold commitFail. cbn [fst snd]. rewrite <-Hquote.
  split; [|by apply sameRecord_set_quote].
  apply sameState_emit; [done|by apply sameRecord_set_quote|done|].
  by rewrite Hn, Hp, Hf.
Qed.

Lemma verseLoop_occurrence before versesLength verseIdx chapter verses st1 st2 r1 r2 :
  sameState o1 o2 before st1 st2 → sameRecord o1 o2 r1 r2 →
  result_rel (λ x y, sameState o1 o2 before x.1 y.1 ∧ sameRecord o1 o2 x.2 y.2)
    (verseLoop tokenLookup book testament versesLength verseIdx chapter verses st1 r1)
    (verseLoop tokenLookup book testament versesLength verseIdx chapter verses st2 r2).
Proof.
  revert verseIdx st1 st2 r1 r2.
  induction verses as [|verse verses IH]; intros verseIdx st1 st2 r1 r2 Hst Hrec; [done|].
  cbn [verseLoop].
  eapply result_rel_bind; [by apply tryVerse_occurrence|].
  intros [cv1 a] [cv2 b] [Hcv Hab]. simpl in Hcv, Hab. subst cv2.
  destruct a as [a|], b as [b|]; try done.
  rewrite <-(hasData_sameData a b Hab). red in Hab.
  destruct (hasData a).
  - rewrite <-Hab. by apply commitPass_occurrence.
  - destruct (verseIdx <? versesLength - 1); [by apply IH|].
    pose proof (commitFail_occurrence before st1 st2 r1 r2 cv1 a b Hst Hrec) as [? ?].
    destruct (commitFail book st1 r1 cv1 a), (commitFail book st2 r2 cv1 b).
    by apply IH.
Qed.

Lemma isPassedThrough_occurrence tsvRecord :
  o1 ≠ [] → o2 ≠ [] →
  isPassedThrough (set_occurrence tsvRecord (Some o1))
  = isPassedThrough (set_occurrence tsvRecord (Some o2)).
Proof. unfold isPassedThrough. simpl. by destruct o1, o2. Qed.

(** C9.  Two rows that differ only in their (non-empty) occurrence are
    processed alike: both runs throw the same exception, or both return
    with the same counters of passes and failures and as many errors,
    and the rows they emit are serializations of one record up to the
    occurrence field, so the rewritten quote is the same. *)
Theorem C9_occurrence_independence st tsvRecord :
  o1 ≠ [] → o2 ≠ [] →
  match processRecord tokenLookup book testament st (set_occurrence tsvRecord (Some o1)),
        processRecord tokenLookup book testament st (set_occurrence tsvRecord (Some o2)) with
  | Ok st1, Ok st2 =>
      counts_pass st1 = counts_pass st2
      ∧ counts_fail st1 = counts_fail st2
      ∧ length (errors st1) = length (errors st2)
      ∧ ∃ new1 new2, output st1 = output st ++ new1 ∧ output st2 = output st ++ new2
                     ∧ Forall2 (occurrenceVariants o1 o2) new1 new2
  | Throw e1, Throw e2 => e1 = e2
  | _, _ => False
  end.
Proof.
  intros Ho1 Ho2.
  assert (sameRecord o1 o2 (set_occurrence tsvRecord (Some o1))
            (set_occurrence tsvRecord (Some o2))) as Hrec by done.
  assert (sameState o1 o2 (output st) st st) as Hst.
  { repeat split. exists [], []. by rewrite app_nil_r. }
  enough (result_rel (sameState o1 o2 (output st))
            (processRecord tokenLookup book testament st (set_occurrence tsvRecord (Some o1)))
            (processRecord tokenLookup book testament st (set_occurrence tsvRecord (Some o2))))
    as Hrel.
  { destruct (processRecord _ _ _ _ _), (processRecord _ _ _ _ _); try done.
    by destruct Hrel as (_ & ? & ? & ? & ?). }
  unfold processRecord. rewrite <-(isPassedThrough_occurrence tsvRecord) by done.
  destruct (isPassedThrough _).
  - simpl. rewrite <-(app_nil_r (errors st)).
    by apply sameState_emit.
  - cbn [tsv_quote tsv_ref set_occurrence set_quote].
    destruct (tsv_quote tsvRecord) as [quote|]; [|done].
    destruct (tsv_ref tsvRecord) as [ref|]; [|done]. cbv zeta.
    destruct (split_char COLON ref !! 1) as [verseRef|]; [|done].
    eapply result_rel_fmap.
    + apply (verseLoop_occurrence (output st)); [|by apply sameRecord_set_quote].
      repeat split. exists [], []. by rewrite app_nil_r.
    + by intros x y [? _].
Qed.

End Occurrence.

(** C9 on the row [5:3,4 / the poor] with occurrence 1 and 2. *)
Lemma C9_occurrence_independence_witness :
  match processRecord Example.lookup (js "MAT") (js "new") initialState
          (set_occurrence (Example.parseRow (Example.row (js "5:3,4") (js "the poor") []))
             (Some (js "1"))),
        processRecord Example.lookup (js "MAT") (js "new") initialState
          (set_occurrence (Example.parseRow (Example.row (js "5:3,4") (js "the poor") []))
             (Some (js "2"))) with
  | Ok st1, Ok st2 =>
      counts_pass st1 = counts_pass st2
      ∧ counts_fail st1 = counts_fail st2
      ∧ length (errors st1) = length (errors st2)
      ∧ ∃ new1 new2, output st1 = output initialState ++ new1
                     ∧ output st2 = output initialState ++ new2
                     ∧ Forall2 (occurrenceVariants (js "1") (js "2")) new1 new2
  | Throw e1, Throw e2 => e1 = e2
  | _, _ => False
  end.
Proof.
  apply (C9_occurrence_independence Example.lookup (js "MAT") (js "new") (js "1") (js "2")
           initialState
           (Example.parseRow (Example.row (js "5:3,4") (js "the poor") [])));
    vm_compute; discriminate.
Defined.

(** ** The ampersand *)

Section Ampersand.
Context `{Collaborators}.

Lemma occursIn_singleton c s : occursIn [c] s ↔ c ∈ s.
Proof.
  split.
  - intros (pre & post & ->). apply elem_of_app. right. apply list_elem_of_here.
  - intros (pre & post & ->)%list_elem_of_split. by exists pre, post.
Qed.

Lemma cleanQuoteOf_elem c quote :
  c ∈ cleanQuoteOf quote ↔
  c ≠ 123%N ∧ c ≠ 125%N
  ∧ ((c = ELLIPSIS ∧ AMPERSAND ∈ quote) ∨ (c ≠ AMPERSAND ∧ c ∈ quote)).
Proof.
  unfold cleanQuoteOf.
  rewrite list_elem_of_In, filter_In, <-list_elem_of_In, list_elem_of_fmap.
  rewrite negb_true_iff, orb_false_iff, !N.eqb_neq. split.
  - intros [(c' & -> & Hin) [??]]. split; [done|]. split; [done|].
    destruct (N.eqb_spec c' AMPERSAND) as [->|?]; [by left|by right].
  - intros (? & ? & [[-> Hin]|[? Hin]]); (split; [|done]).
    + exists AMPERSAND. by rewrite N.eqb_refl.
    + exists c. split; [|done]. by destruct (N.eqb_spec c AMPERSAND).
Qed.










End Ampersand.



(** ** One output row per input row *)

Section Rows.
Context `{Collaborators}.
Variables (tokenLookup : TokenLookup) (book testament : jsstring).

(** A row that is passed through or has a candidate verse is emitted
    once when it is processed without exception, with at most its quote
    rewritten. *)
Lemma processRecord_emits_one st tsvRecord st' :
  isPassedThrough tsvRecord = true ∨ versesOf tsvRecord ≠ [] →
  processRecord tokenLookup book testament st tsvRecord = Ok st' →
  ∃ row, output st' = output st ++ [row]
         ∧ (row = tsvRecordToString tsvRecord
            ∨ ∃ quote, row = tsvRecordToString (set_quote tsvRecord quote)).
Proof.
  intros Hcond. destruct (isPassedThrough tsvRecord) eqn:Hpass.
  - rewrite processRecord_passed_through by done. intros [= <-].
    eexists. split; [done|]. by left.
  - destruct Hcond as [?|Hverses]; [done|].
    destruct (isPassedThrough_false _ Hpass) as (ref & quote & _ & Href & Hquote & _).
    unfold versesOf in Hverses. rewrite Href in Hverses.
    destruct (split_char COLON ref) as [|chapter [|verseRef more]] eqn:Hsplit;
      cbn [lookup list_lookup] in Hverses; [done..|].
    rewrite (processRecord_processed _ _ _ _ _ quote ref chapter verseRef more) by done.
    destruct (verseLoop _ _ _ _ _ _ _ _ _) as [[st1 tsvRecord1]|e] eqn:Hloop; [|done].
    intros [= <-].
    apply verseLoop_outcome in Hloop as [(? & _)|[[words Hcommit]|(cv & ro & Hcommit)]];
      [done| | |done]; injection Hcommit as -> ->;
      (eexists; split; [done|]; right; by eexists).
Qed.

(** A processed row without candidate verse is dropped: nothing is
    emitted and nothing recorded for it. *)
Lemma processRecord_emits_none st tsvRecord st' :
  isPassedThrough tsvRecord = false → versesOf tsvRecord = [] →
  processRecord tokenLookup book testament st tsvRecord = Ok st' →
  output st' = output st ∧ errors st' = errors st
  ∧ counts_pass st' = counts_pass st ∧ counts_fail st' = counts_fail st.
Proof.
  intros Hpass Hverses Hproc.
  destruct (isPassedThrough_false _ Hpass) as (ref & quote & _ & Href & Hquote & _).
  unfold versesOf in Hverses. rewrite Href in Hverses.
  destruct (split_char COLON ref) as [|chapter [|verseRef more]] eqn:Hsplit.
  - unfold processRecord in Hproc. rewrite Hpass, Hquote in Hproc.
    cbn [tsv_ref set_quote] in Hproc. by rewrite Href, Hsplit in Hproc.
  - unfold processRecord in Hproc. rewrite Hpass, Hquote in Hproc.
    cbn [tsv_ref set_quote] in Hproc. by rewrite Href, Hsplit in Hproc.
  - cbn [lookup list_lookup] in Hverses.
    rewrite (processRecord_processed _ _ _ _ _ quote ref chapter verseRef more) in Hproc
      by done.
    rewrite Hverses in Hproc. by injection Hproc as <-.
Qed.

(** When every row is passed through or has a candidate verse and no
    exception is thrown, the output has one entry per row, in the order
    of the rows, each the serialization of its row with at most the
    quote rewritten. *)
Lemma recordsLoop_one_per_row tsvRecords st st' :
  Forall (λ r, isPassedThrough r = true ∨ versesOf r ≠ []) tsvRecords →
  recordsLoop tokenLookup book testament tsvRecords st = Ok st' →
  ∃ rows, output st' = output st ++ rows
          ∧ Forall2 (λ r row, row = tsvRecordToString r
                              ∨ ∃ quote, row = tsvRecordToString (set_quote r quote))
              tsvRecords rows.
Proof.
  intros Hall. revert st. induction Hall as [|r tsvRecords Hr _ IH]; intros st; simpl.
  - intros [= <-]. exists []. by rewrite app_nil_r.
  - destruct (processRecord tokenLookup book testament st r) as [st1|e] eqn:Hproc;
      cbn [mbind result_bind]; [|done].
    intros (rows & Hout & Hrows)%IH.
    destruct (processRecord_emits_one st r st1 Hr Hproc) as (row & Hst1 & Hrow).
    exists (row :: rows). rewrite Hout, Hst1, <-(assoc_L (++)). split; [done|].
    by constructor.
Qed.

End Rows.

(** The same for the exported function, when its promise resolves. *)
Lemma resolved_one_per_row `{Collaborators} tokenLookup book content out errs :
  Forall (λ r, isPassedThrough r = true ∨ versesOf r ≠ []) (parseTsvToObjects content) →
  tsv7_ult_quotes_to_origl_quotes tokenLookup book content = Resolved out errs →
  length out = length (parseTsvToObjects content)
  ∧ Forall2 (λ r row, row = tsvRecordToString r
                      ∨ ∃ quote, row = tsvRecordToString (set_quote r quote))
      (parseTsvToObjects content) out.
Proof.
  intros Hall. unfold tsv7_ult_quotes_to_origl_quotes.
  destruct (_ ≫= _) as [[|c t]|]; [done| |done].
  destruct (recordsLoop _ _ _ _ _) as [st|e] eqn:Hloop; [|done].
  intros [= <- <-].
  apply recordsLoop_one_per_row in Hloop as (rows & Hout & Hrows); [|done].
  simpl in Hout. subst rows. split; [|done]. symmetry. by eapply Forall2_length.
Qed.

(** ** Empty and missing verses *)

Section Verses.
Context `{Collaborators}.

Lemma split_on_nonempty p s : split_on p s ≠ [].
Proof. destruct s as [|c s]; simpl; [done|]. destruct (p c); [done|]. by destruct (split_on p s). Qed.

Lemma split_on_elem p s piece c : piece ∈ split_on p s → c ∈ piece → c ∈ s.
Proof.
  revert piece. induction s as [|c' s IH]; intros piece; simpl.
  - by intros ->%list_elem_of_singleton.
  - destruct (p c').
    + intros [->|Hin]%elem_of_cons Hc; [by apply elem_of_nil in Hc|].
      apply list_elem_of_further. by eapply IH.
    + destruct (split_on p s) as [|piece' pieces]; simpl.
      * intros ->%list_elem_of_singleton ->%list_elem_of_singleton. apply list_elem_of_here.
      * intros [->|Hin]%elem_of_cons Hc.
        -- apply elem_of_cons in Hc as [->|Hc]; [apply list_elem_of_here|].
           apply list_elem_of_further. apply (IH piece'); [apply list_elem_of_here|done].
        -- apply list_elem_of_further. apply (IH piece); [|done].
           by apply list_elem_of_further.
Qed.

Lemma searchExprTuples_word searchExpr t c :
  t ∈ searchExprTuples searchExpr → c ∈ word t → c ∈ searchExpr.
Proof.
  unfold searchExprTuples.
  assert (∀ part, part ∈ split_char ELLIPSIS
                    (List.filter (λ c, negb (isSentencePunctuation c)) searchExpr) →
                  c ∈ part → c ∈ searchExpr) as Hpart.
  { intros part Hin Hc. pose proof (split_on_elem _ _ _ _ Hin Hc) as Hfiltered.
    apply list_elem_of_In, filter_In in Hfiltered as [? _]. by apply list_elem_of_In. }
  destruct (includes _ _).
  - intros [->|Hin]%elem_of_cons; cbn [word].
    + destruct (split_char ELLIPSIS _ !! 0) as [part|] eqn:Hpart0; cbn [default].
      * apply Hpart. by eapply list_elem_of_lookup_2.
      * intros Hc. by apply elem_of_nil in Hc.
    + apply list_elem_of_fmap in Hin as (part & -> & Hin). cbn [word].
      apply Hpart. by eapply subseteq_drop.
  - intros ->%list_elem_of_singleton. cbn [word]. intros Hc.
    apply list_elem_of_In, filter_In in Hc as [? _]. by apply list_elem_of_In.
Qed.

Lemma searchExprTuples_nonempty searchExpr : searchExprTuples searchExpr ≠ [].
Proof. unfold searchExprTuples. by destruct (includes _ _). Qed.

(** A search string without paseq has a first search word. *)
Lemma intermediateSearchList_first ULTSearchString :
  PASEQ ∉ ULTSearchString → is_Some (intermediateSearchList ULTSearchString !! 0).
Proof.
  intros Hfree. unfold intermediateSearchList.
  destruct (split_on isWordSeparator ULTSearchString) as [|piece pieces] eqn:Hsplit;
    [by apply split_on_nonempty in Hsplit|].
  cbn [map concat].
  destruct (searchExprTuples piece) as [|t ts] eqn:Htuples;
    [by apply searchExprTuples_nonempty in Htuples|].
  cbn [app List.filter].
  assert (eqb (word t) [PASEQ] = false) as ->; [|by eexists].
  apply eqb_false. intros Hword. apply Hfree.
  apply (split_on_elem isWordSeparator _ piece); [rewrite Hsplit; apply list_elem_of_here|].
  apply (searchExprTuples_word _ t); [rewrite Htuples; apply list_elem_of_here|].
  rewrite Hword. apply list_elem_of_here.
Qed.

Lemma upperFirstLower_paseq s : PASEQ ∉ s → PASEQ ∉ upperFirstLower s.
Proof.
  induction s as [|c s IH]; simpl; [done|].
  intros [Hc Hs]%not_elem_of_cons. destruct (in_range 97 122 c) eqn:Hrange.
  - apply not_elem_of_cons. split; [|done].
    unfold in_range in Hrange. apply andb_true_iff in Hrange as [_ Hle%N.leb_le].
    unfold PASEQ. lia.
  - apply not_elem_of_cons. split; [done|]. by apply IH.
Qed.

Lemma origLQuoteWords_nil origLWordList : origLQuoteWords origLWordList [] = [].
Proof. induction origLWordList as [|w l IH]; [done|]. by simpl. Qed.

(** With no gloss token at all the matcher finds nothing and the
    projector returns an error object. *)
Lemma origLFromGLQuote_empty_gloss book cv sourceTokens ULTSearchString occurrence p :
  PASEQ ∉ ULTSearchString →
  ∃ message,
    origLFromGLQuote book cv (Some sourceTokens) (Some []) ULTSearchString occurrence p
    = Ok {| data := None; error := Some message |}.
Proof.
  intros [first Hfirst]%intermediateSearchList_first.
  assert (searchULTWordRecords ULTSearchString (Some []) = Ok []) as Hsearch.
  { unfold searchULTWordRecords. cbv zeta. by rewrite Hfirst. }
  rewrite (origLFromGLQuote_unfold _ _ _ _ _ _ _ [] sourceTokens) by done.
  cbv zeta. rewrite origLQuoteWords_nil. by eexists.
Qed.

(** With undefined gloss tokens the matcher throws, whatever the search
    string. *)
Lemma origLFromGLQuote_undefined_gloss book cv sourceTokens ULTSearchString occurrence p :
  ∃ e, origLFromGLQuote book cv sourceTokens None ULTSearchString occurrence p = Throw e.
Proof.
  unfold origLFromGLQuote, searchULTWordRecords. cbv zeta.
  destruct (intermediateSearchList ULTSearchString !! 0); by eexists.
Qed.

(** An empty verse: every variant fails with an error object and the
    loop over the variants returns the last one. *)
Lemma tryQuotes_empty_gloss book cv sourceTokens occurrence quotes resultObject :
  Forall paseqFree quotes →
  quotes ≠ [] ∨ (∃ ro, resultObject = Some ro ∧ hasData ro = false) →
  ∃ ro, tryQuotes book cv (Some sourceTokens) (Some []) occurrence quotes resultObject
        = Ok (Some ro)
        ∧ hasData ro = false.
Proof.
  intros Hfree. revert resultObject.
  induction Hfree as [|quote quotes Hquote _ IH]; intros resultObject Hstart.
  - destruct Hstart as [?|(ro & -> & Hro)]; [done|]. by exists ro.
  - destruct quote as [quote|parts]; cbn [tryQuotes].
    + simpl in Hquote.
      destruct (origLFromGLQuote_empty_gloss book cv sourceTokens quote occurrence prune
                  Hquote) as [message ->].
      cbn [mbind result_bind]. replace (hasData _) with false by done.
      apply IH. right. by eexists.
    + destruct Hquote as [Hparts Hall]. destruct parts as [|part parts]; [done|].
      apply Forall_cons in Hall as [Hpart _]. cbn [tryParts].
      destruct (origLFromGLQuote_empty_gloss book cv sourceTokens part occurrence prune
                  Hpart) as [message ->].
      cbn [mbind result_bind]. replace (hasData _) with false by done.
      destruct (origLFromGLQuote_empty_gloss book cv sourceTokens (upperFirstLower part)
                  occurrence prune (upperFirstLower_paseq _ Hpart)) as [message' ->].
      cbn [mbind result_bind]. replace (hasData _) with false by done.
      cbn [length Nat.eqb]. apply IH. right. by eexists.
Qed.

(** A missing verse: the first variant already throws. *)
Lemma tryQuotes_undefined_gloss book cv sourceTokens occurrence quote resultObject :
  ∃ e, tryQuotes book cv sourceTokens None occurrence (quotesToTry quote) resultObject
       = Throw e.
Proof.
  unfold quotesToTry. cbv zeta. cbn [app tryQuotes].
  destruct (origLFromGLQuote_undefined_gloss book cv sourceTokens (cleanQuoteOf quote)
              occurrence prune) as [e ->].
  by exists e.
Qed.

(** A candidate verse that the gloss index of the book lacks makes
    [tryVerse] throw, whatever the quote. *)
Lemma tryVerse_absent_verse tokenLookup book testament tsvRecord chapter verse
    sourceBook sourceTokens glossBooks glossVerses quote :
  (if eqb testament (js "old") then tokenLookup !! js "uhb" else tokenLookup !! js "ugnt")
    = Some sourceBook →
  sourceBook !! toUpperCase book = Some sourceTokens →
  tokenLookup !! js "ult" = Some glossBooks →
  glossBooks !! toUpperCase book = Some glossVerses →
  glossVerses !! (chapter ++ js ":" ++ num_toString verse) = None →
  tsv_quote tsvRecord = Some quote →
  ∃ e, tryVerse tokenLookup book testament tsvRecord chapter verse = Throw e.
Proof.
  intros Hsource Hbook Hult Hgloss Hverse Hquote. unfold tryVerse.
  rewrite Hsource, Hult. cbn [property mbind result_bind].
  rewrite Hbook, Hgloss. cbn [property mbind result_bind].
  rewrite Hverse, Hquote. cbn [fmap option_fmap option_map].
  destruct (tryQuotes_undefined_gloss book (chapter ++ js ":" ++ num_toString verse)
              (sourceTokens !! (chapter ++ js ":" ++ num_toString verse))
              (opt_toString (tsv_occurrence tsvRecord)) quote None) as [e ->].
  by exists e.
Qed.

(** A row with a candidate verse that the gloss index of the book lacks,
    after verses that gave no data: processing the row throws, whatever
    the verses after it would give. *)
Lemma processRecord_absent_verse tokenLookup book testament st tsvRecord quote ref chapter
    verseRef more pre verse post sourceBook sourceTokens glossBooks glossVerses :
  isPassedThrough tsvRecord = false →
  tsv_quote tsvRecord = Some quote →
  tsv_ref tsvRecord = Some ref →
  split_char COLON ref = chapter :: verseRef :: more →
  expandVerses verseRef = pre ++ verse :: post →
  Forall (λ u, ∃ cvu rou,
            tryVerse tokenLookup book testament
              (set_quote tsvRecord (replace_first QUOTE_NOT_FOUND [] quote)) chapter u
            = Ok (cvu, Some rou) ∧ hasData rou = false) pre →
  (if eqb testament (js "old") then tokenLookup !! js "uhb" else tokenLookup !! js "ugnt")
    = Some sourceBook →
  sourceBook !! toUpperCase book = Some sourceTokens →
  tokenLookup !! js "ult" = Some glossBooks →
  glossBooks !! toUpperCase book = Some glossVerses →
  glossVerses !! (chapter ++ js ":" ++ num_toString verse) = None →
  ∃ e, processRecord tokenLookup book testament st tsvRecord = Throw e.
Proof.
  intros Hpass Hquote Href Hsplit Hverses Hpre Hsource Hbook Hult Hgloss Hverse.
  destruct (tryVerse_absent_verse tokenLookup book testament
              (set_quote tsvRecord (replace_first QUOTE_NOT_FOUND [] quote)) chapter verse
              sourceBook sourceTokens glossBooks glossVerses
              (replace_first QUOTE_NOT_FOUND [] quote)) as [e He]; [done..|by destruct tsvRecord|].
  exists e.
  rewrite (processRecord_processed _ _ _ _ _ quote ref chapter verseRef more) by done.
  rewrite Hverses. by rewrite (verseLoop_throw _ _ _ _ _ _ pre verse post _ _ e).
Qed.

End Verses.

(** ** Evaluations at the inputs where the code departs from the claims *)

(** C1 at a row whose verse range is descending: the row is processed,
    its list of candidate verses is empty, the verse loop does not run and
    nothing is emitted for the row; the promise resolves with no output
    row for one input row. *)
Theorem C1_row_without_verse_is_dropped :
  length (parseTsvToObjects (Example.row (js "5:3-2") (js "the poor") (js "1"))) = 1
  ∧ versesOf (Example.parseRow (Example.row (js "5:3-2") (js "the poor") (js "1"))) = []
  ∧ Example.run (Example.row (js "5:3-2") (js "the poor") (js "1")) = Resolved [] [].
Proof. vm_compute. done. Qed.

(** C2 at the phrase [the poor] over the gloss [Blessed are the]: no
    start index gives a full contiguous match, yet the matcher returns a
    non-empty list, in which the word [poor] has no scopes, because the
    inner loop stops at the end of the tokens with [foundAllWords] still
    true. *)
Theorem C2_match_cut_short_at_the_end :
  searchULTWordRecords (js "the poor")
    (Some [mkGLToken (js "Blessed") [Example.aligned (js "makarioi")];
           mkGLToken (js "are") [Example.aligned (js "makarioi")];
           mkGLToken (js "the") [Example.aligned (js "hoi")]])
  = Ok [mkTriple (js "the") false (Some [Example.aligned (js "hoi")]);
        mkTriple (js "poor") false None]
  ∧ ∀ i, ¬ fullMatchAt
             [mkGLToken (js "Blessed") [Example.aligned (js "makarioi")];
              mkGLToken (js "are") [Example.aligned (js "makarioi")];
              mkGLToken (js "the") [Example.aligned (js "hoi")]]
             (intermediateSearchList (js "the poor")) i.
Proof.
  split; [vm_compute; done|]. intros i Hfull.
  destruct (Hfull 1 (mkTriple (js "poor") false None)) as (t & Ht & Heq);
    [vm_compute; done|].
  destruct i as [|[|[|i]]]; simpl in Ht; try done; injection Ht as <-;
    vm_compute in Heq; done.
Qed.

(** C3 at a row whose verse is missing from the token index: the gloss
    tokens are [undefined], the optional chaining of line 332 lets that
    through, [getFirstWordIndex] reads [length] of it, and the exception
    rejects the whole invocation; no row is emitted. *)
Theorem C3_absent_verse_rejects_the_invocation :
  ((Example.lookup !! js "ult") ≫= (λ books, books !! js "MAT"))
    ≫= (λ verses, verses !! js "5:9") = None
  ∧ Example.run (Example.row (js "5:9") (js "the poor") (js "1"))
    = RejectedWith (TypeError "Cannot read properties of undefined (reading 'length')").
Proof. vm_compute. done. Qed.

(** C5 at a row whose first candidate verse is missing from the token
    index and whose second resolves: verse 4 alone resolves the quote, and
    so does the row [5:4,9], whose missing verse is never read; but on the
    row [5:9,4] the missing verse is tried first, [getFirstWordIndex] reads
    [length] of its undefined gloss tokens, and the exception rejects the
    whole invocation before verse 4 is tried.  The first resolving verse
    does not win. *)
Theorem C5_verse_after_an_absent_one_never_wins :
  expandVerses (js "9,4") = [Some 9%Z; Some 4%Z]
  ∧ ((Example.lookup !! js "ult") ≫= (λ books, books !! js "MAT"))
      ≫= (λ verses, verses !! js "5:9") = None
  ∧ Example.run (Example.row (js "5:4") (js "the poor") (js "1"))
    = Resolved [Example.row (js "5:4") (js "hoi ptochoi") (js "1")] []
  ∧ Example.run (Example.row (js "5:4,9") (js "the poor") (js "1"))
    = Resolved [Example.row (js "5:4,9") (js "hoi ptochoi") (js "1")] []
  ∧ Example.run (Example.row (js "5:9,4") (js "the poor") (js "1"))
    = RejectedWith (TypeError "Cannot read properties of undefined (reading 'length')").
Proof. vm_compute. done. Qed.

(** ** The model on small inputs *)

Example split_on_separators :
  split_on isWordSeparator (js "in-law  now") = [js "in"; js "law"; []; js "now"].
Proof. vm_compute. done. Qed.

Example parseInt_examples :
  parseInt (js " 12a") = Some 12%Z ∧ parseInt (js "") = None
  ∧ parseInt (js "0x1f") = Some 31%Z.
Proof. vm_compute. done. Qed.

Example expandVerses_examples :
  expandVerses (js "3,4") = [Some 3%Z; Some 4%Z]
  ∧ expandVerses (js "3-5,7") = [Some 3%Z; Some 4%Z; Some 5%Z; Some 7%Z]
  ∧ expandVerses (js "3-2") = []
  ∧ expandVerses (js "x") = [None].
Proof. vm_compute. done. Qed.

Example intermediateSearchList_example :
  intermediateSearchList (js "(son-in-law)," ++ [ELLIPSIS] ++ js "now")
  = [mkTriple (js "son") false None; mkTriple (js "in") false None;
     mkTriple (js "law") false None; mkTriple (js "now") true None].
Proof. vm_compute. done. Qed.

Example quotesToTry_example :
  quotesToTry (js "the {poor} & meek")
  = [QuoteString (js "the poor " ++ [ELLIPSIS] ++ js " meek");
     QuoteString (js "the {poor} & meek");
     QuoteParts [js "the poor"; js "meek"];
     QuoteParts [js "the {poor} & meek"];
     QuoteString (js "The poor " ++ [ELLIPSIS] ++ js " meek");
     QuoteParts [js "The poor"; js "meek"]].
Proof. vm_compute. done. Qed.

Example getTidiedData_example :
  getTidiedData [js "agapao"; [ELLIPSIS]; js "plesion"] = js "agapao & plesion".
Proof. vm_compute. done. Qed.

(** The ellipsis round trip of the spec, on the example index: the two
    parts of [Blessed & meek] project to [makarioi] and [praeis]. *)
Example ellipsis_round_trip :
  Example.run (Example.row (js "5:3") (js "Blessed " ++ [ELLIPSIS] ++ js " meek") (js "1"))
  = Resolved [Example.row (js "5:3") (js "makarioi & praeis") (js "1")] [].
Proof. vm_compute. done. Qed.

(** ** More on the gloss matcher *)

Section MatcherResult.
Implicit Types (ULTTokens : list GLToken) (searchList : list MatchTriple).

Lemma split_on_not_separator p s piece c :
  piece ∈ split_on p s → c ∈ piece → p c = false.
Proof.
  revert piece. induction s as [|c' s IH]; intros piece; simpl.
  - intros ->%list_elem_of_singleton Hc. by apply elem_of_nil in Hc.
  - destruct (p c') eqn:Hsep.
    + intros [->|Hin]%elem_of_cons Hc; [by apply elem_of_nil in Hc|]. by eapply IH.
    + destruct (split_on p s) as [|piece' pieces]; simpl.
      * by intros ->%list_elem_of_singleton ->%list_elem_of_singleton.
      * intros [->|Hin]%elem_of_cons Hc.
        -- apply elem_of_cons in Hc as [->|Hc]; [done|].
           apply (IH piece'); [apply list_elem_of_here|done].
        -- apply (IH piece); [by apply list_elem_of_further|done].
Qed.

Lemma searchExprTuples_clean searchExpr t c :
  t ∈ searchExprTuples searchExpr → c ∈ word t →
  isSentencePunctuation c = false ∧ c ≠ ELLIPSIS.
Proof.
  unfold searchExprTuples.
  set (cleaned := List.filter (λ c, negb (isSentencePunctuation c)) searchExpr).
  assert (∀ c, c ∈ cleaned → isSentencePunctuation c = false) as Hcleaned.
  { intros c' [_ Hc']%list_elem_of_In%filter_In. by apply negb_true_iff. }
  assert (∀ part, part ∈ split_char ELLIPSIS cleaned → c ∈ part →
                  isSentencePunctuation c = false ∧ c ≠ ELLIPSIS) as Hpart.
  { intros part Hin Hc. split.
    - apply Hcleaned. by eapply split_on_elem.
    - pose proof (split_on_not_separator _ _ _ _ Hin Hc) as Hne.
      apply N.eqb_neq in Hne. congruence. }
  destruct (includes cleaned [ELLIPSIS]) eqn:Hincl.
  - intros [->|Hin]%elem_of_cons; cbn [word].
    + destruct (split_char ELLIPSIS cleaned !! 0) as [part|] eqn:Hpart0; cbn [default].
      * apply Hpart. by eapply list_elem_of_lookup_2.
      * intros Hc. by apply elem_of_nil in Hc.
    + apply list_elem_of_fmap in Hin as (part & -> & Hin). cbn [word].
      apply Hpart. by eapply subseteq_drop.
  - intros ->%list_elem_of_singleton. cbn [word]. intros Hc. split; [by apply Hcleaned|].
    intros ->. apply not_true_iff_false in Hincl. apply Hincl.
    by apply includes_spec, occursIn_singleton.
Qed.

Lemma searchExprTuples_alignment searchExpr t :
  t ∈ searchExprTuples searchExpr → alignment t = None.
Proof.
  unfold searchExprTuples. destruct (includes _ _).
  - intros [->|Hin]%elem_of_cons; [done|].
    by apply list_elem_of_fmap in Hin as (part & -> & _).
  - by intros ->%list_elem_of_singleton.
Qed.

Lemma intermediateSearchList_elem ULTSearchString t :
  t ∈ intermediateSearchList ULTSearchString →
  word t ≠ [PASEQ]
  ∧ ∃ piece, piece ∈ split_on isWordSeparator ULTSearchString
             ∧ t ∈ searchExprTuples piece.
Proof.
  unfold intermediateSearchList.
  intros [Hin Hword]%list_elem_of_In%filter_In. apply list_elem_of_In in Hin.
  apply negb_true_iff, eqb_false in Hword. split; [done|].
  apply list_elem_of_In, in_concat in Hin as (tuples & Htuples & Ht).
  apply list_elem_of_In, list_elem_of_fmap in Htuples as (piece & -> & Hpiece).
  exists piece. split; [done|]. by apply list_elem_of_In.
Qed.

(** X1.  The search words: no word of the search list contains a word
    separator (hyphen, white space, maqaf), a character of the
    punctuation class or the ellipsis, every character of a word comes
    from the search string, no word is the paseq, and no scopes are
    attached yet. *)
Theorem intermediateSearchList_words_clean ULTSearchString t :
  t ∈ intermediateSearchList ULTSearchString →
  word t ≠ [PASEQ]
  ∧ alignment t = None
  ∧ ∀ c, c ∈ word t →
         c ∈ ULTSearchString ∧ isWordSeparator c = false
         ∧ isSentencePunctuation c = false ∧ c ≠ ELLIPSIS.
Proof.
  intros (Hword & piece & Hpiece & Ht)%intermediateSearchList_elem.
  split; [done|]. split; [by eapply searchExprTuples_alignment|].
  intros c Hc. pose proof (searchExprTuples_word _ _ _ Ht Hc) as Hin.
  destruct (searchExprTuples_clean _ _ _ Ht Hc) as [Hpunct Hell].
  split; [by eapply split_on_elem|]. split; [by eapply split_on_not_separator|done].
Qed.

Lemma addScopes_lookup fuel ULTTokens searchList startULTIndex searchIndex k :
  length ULTTokens - startULTIndex ≤ fuel →
  addScopes fuel ULTTokens searchList startULTIndex searchIndex !! k
  = if decide (searchIndex ≤ k) then
      (λ w, match ULTTokens !! (startULTIndex + (k - searchIndex)) with
            | Some t => push_scopes w (gl_scopes t)
            | None => w
            end) <$> searchList !! k
    else searchList !! k.
Proof.
  revert searchList startULTIndex searchIndex.
  induction fuel as [|fuel IH]; intros searchList startULTIndex searchIndex Hfuel; simpl.
  - case_decide; [|done].
    rewrite (lookup_ge_None_2 ULTTokens) by lia. by destruct (searchList !! k).
  - destruct (ULTTokens !! startULTIndex) as [t|] eqn:Ht.
    + destruct (searchList !! searchIndex) as [w|] eqn:Hw.
      * rewrite IH by lia. destruct (decide (k = searchIndex)) as [->|Hne].
        -- rewrite decide_False by lia. rewrite decide_True by lia.
           rewrite list_lookup_insert_eq by (by eapply lookup_lt_Some).
           by rewrite Hw, Nat.sub_diag, Nat.add_0_r, Ht.
        -- rewrite list_lookup_insert_ne by done.
           repeat case_decide; try lia; [|done].
           by replace (S startULTIndex + (k - S searchIndex))
             with (startULTIndex + (k - searchIndex)) by lia.
      * case_decide; [|done].
        rewrite (lookup_ge_None_2 searchList); [done|].
        apply lookup_ge_None in Hw. lia.
    + case_decide; [|done]. apply lookup_ge_None in Ht.
      rewrite (lookup_ge_None_2 ULTTokens) by lia. by destruct (searchList !! k).
Qed.

Lemma intermediateSearchList_lookup_alignment ULTSearchString k w :
  intermediateSearchList ULTSearchString !! k = Some w → alignment w = None.
Proof.
  intros (_ & piece & _ & Hw)%list_elem_of_lookup_2%intermediateSearchList_elem.
  by eapply searchExprTuples_alignment.
Qed.

(** X2.  What a successful match returns: the search list itself, each
    entry with the scopes of the gloss token it was matched against,
    from the leftmost start index at which tokens and search words agree
    as far as the tokens go; an entry beyond the last token keeps no
    scopes. *)
Theorem searchULTWordRecords_matched ULTSearchString ULTTokens l :
  searchULTWordRecords ULTSearchString (Some ULTTokens) = Ok l →
  l ≠ [] →
  ∃ i, matchesAt ULTTokens (intermediateSearchList ULTSearchString) i
       ∧ (∀ j, j < i → ¬ matchesAt ULTTokens (intermediateSearchList ULTSearchString) j)
       ∧ ∀ k, l !! k = matchedTriple ULTTokens (i + k)
                         <$> intermediateSearchList ULTSearchString !! k.
Proof.
  unfold searchULTWordRecords. cbv zeta.
  destruct (intermediateSearchList ULTSearchString !! 0) as [first|] eqn:Hfirst; [|done].
  destruct (findStart _ _ _ _ _) as [i|] eqn:Hfind; [|by intros [= <-]].
  intros [= <-] _.
  apply (findStart_Some _ first) in Hfind as (_ & Hmatch & Hleast); [|done].
  exists i. split; [done|]. split; [intros j Hj; apply Hleast; lia|].
  intros k. rewrite addScopes_lookup by done. rewrite decide_True by lia.
  rewrite Nat.sub_0_r.
  destruct (intermediateSearchList ULTSearchString !! k) as [w|] eqn:Hw; [|done].
  simpl. unfold matchedTriple, push_scopes.
  destruct (ULTTokens !! (i + k)); simpl; [done|].
  apply intermediateSearchList_lookup_alignment in Hw. destruct w. simpl in *. by subst.
Qed.

(** X3.  When the search words occur contiguously among the gloss
    tokens, the matcher returns their first occurrence: every search word
    comes back with the scopes of its token, none without. *)
Theorem searchULTWordRecords_first_occurrence ULTSearchString ULTTokens first j :
  intermediateSearchList ULTSearchString !! 0 = Some first →
  fullMatchAt ULTTokens (intermediateSearchList ULTSearchString) j →
  ∃ i l, searchULTWordRecords ULTSearchString (Some ULTTokens) = Ok l
         ∧ i ≤ j
         ∧ fullMatchAt ULTTokens (intermediateSearchList ULTSearchString) i
         ∧ (∀ j', j' < i →
              ¬ fullMatchAt ULTTokens (intermediateSearchList ULTSearchString) j')
         ∧ length l = length (intermediateSearchList ULTSearchString)
         ∧ ∀ k w, intermediateSearchList ULTSearchString !! k = Some w →
                  ∃ t, ULTTokens !! (i + k) = Some t
                       ∧ l !! k = Some (mkTriple (word w) (followsEllipsis w)
                                          (Some (gl_scopes t))).
Proof.
  intros Hfirst Hfull.
  destruct (searchULTWordRecords_complete _ _ _ _ Hfirst Hfull) as (l & Hl & Hne).
  assert (∃ i, matchesAt ULTTokens (intermediateSearchList ULTSearchString) i
               ∧ (∀ j, j < i →
                    ¬ matchesAt ULTTokens (intermediateSearchList ULTSearchString) j)
               ∧ l = addScopes (length ULTTokens - i) ULTTokens
                       (intermediateSearchList ULTSearchString) i 0)
    as (i & Hmatch & Hleast & Hscopes).
  { revert Hl Hne. unfold searchULTWordRecords. cbv zeta. rewrite Hfirst.
    destruct (findStart _ _ _ _ _) as [i|] eqn:Hfind; [|by intros [= <-]].
    intros [= <-] _.
    apply (findStart_Some _ first) in Hfind as (_ & Hmatch & Hleast); [|done].
    exists i. split; [done|]. split; [|done]. intros j' Hj'. apply Hleast. lia. }
  assert (i ≤ j) as Hij.
  { destruct (decide (i ≤ j)); [done|]. destruct (Hleast j); [lia|].
    by eapply fullMatchAt_matchesAt. }
  assert (fullMatchAt ULTTokens (intermediateSearchList ULTSearchString) i) as Hfulli.
  { intros k w Hw. destruct (Hfull k w Hw) as (t & Ht & _).
    destruct (ULTTokens !! (i + k)) as [t'|] eqn:Ht'.
    - exists t'. split; [done|]. by apply (proj2 Hmatch k).
    - apply lookup_ge_None in Ht'. apply lookup_lt_Some in Ht. lia. }
  exists i, l. split; [done|]. split; [done|]. split; [done|].
  split; [|split].
  - intros j' Hj' Hfull'. apply (Hleast j' Hj'). by eapply fullMatchAt_matchesAt.
  - destruct (searchULTWordRecords_result _ ULTTokens _ Hfirst)
      as [[Hnil _]|(? & l' & Hl' & Hlen & _)]; [congruence|]. congruence.
  - intros k w Hw. destruct (Hfulli k w Hw) as (t & Ht & _). exists t.
    split; [done|]. rewrite Hscopes, addScopes_lookup by done.
    rewrite decide_True by lia. by rewrite Nat.sub_0_r, Hw, Ht.
Qed.

End MatcherResult.

(** ** More on the projector *)

Section ProjectorResult.
Context `{Collaborators}.

Lemma origLQuoteWords_elem_iff w origLWordList ULTSearchThreeTuples :
  w ∈ origLQuoteWords origLWordList ULTSearchThreeTuples ↔
  w ∈ origLWordList ∧ namedByTuples (searchOrigLWord w) ULTSearchThreeTuples = true.
Proof.
  rewrite origLQuoteWords_filter, list_elem_of_In, filter_In.
  by rewrite <-list_elem_of_In.
Qed.

(** X4.  Completeness of the projection: a word of the verse's
    original-language word list that some three-tuple with one or two
    scopes names (a scope contains [/<word>:]) is in the data that
    [origLFromGLQuote] returns; together with C4, the data are exactly
    the named words of the verse. *)
Theorem origLFromGLQuote_complete book cv tokens ULTTokens ULTSearchString
    searchOccurrence p triples w t refs ref :
  searchULTWordRecords ULTSearchString ULTTokens = Ok triples →
  w ∈ map slim_payload (slimSourceTokens (List.filter isWordLike tokens)) →
  t ∈ triples → alignment t = Some refs → length refs = 1 ∨ length refs = 2 →
  ref ∈ refs → occursIn (searchOrigLWord w) ref →
  ∃ words,
    origLFromGLQuote book cv (Some tokens) ULTTokens ULTSearchString searchOccurrence p
    = Ok {| data := Some words; error := None |}
    ∧ w ∈ words.
Proof.
  intros Hsearch Hw Ht Hal Hlen Href Hocc.
  rewrite (origLFromGLQuote_unfold _ _ _ _ _ _ _ triples tokens) by done. cbv zeta.
  assert (w ∈ origLQuoteWords
                (map slim_payload (slimSourceTokens (List.filter isWordLike tokens)))
                triples) as Hin.
  { apply origLQuoteWords_elem_iff. split; [done|]. apply namedByTuples_spec.
    by exists t, refs, ref. }
  destruct (origLQuoteWords _ triples) as [|w0 ws]; [by apply elem_of_nil in Hin|].
  by eexists.
Qed.

Lemma wellShaped_spec t :
  wellShaped t = true ↔ ∃ refs, alignment t = Some refs ∧ (length refs = 1 ∨ length refs = 2).
Proof.
  unfold wellShaped. destruct (alignment t) as [[|s0 [|s1 [|s2 refs]]]|]; split;
    try done; try (intros (refs' & [= <-] & [?|?]); simpl in *; lia);
    try (intros (refs' & [=] & _)); intros _; eexists; (split; [done|]); simpl; auto.
Qed.

(** X5.  The projection depends only on the set of three-tuples that
    have one or two scopes: their order, their repetition, and the
    three-tuples with another number of scopes or with none make no
    difference; the words come out in the order of the verse. *)
Theorem origLQuoteWords_well_shaped_set origLWordList triples1 triples2 :
  (∀ t, wellShaped t = true → t ∈ triples1 ↔ t ∈ triples2) →
  origLQuoteWords origLWordList triples1 = origLQuoteWords origLWordList triples2
  ∧ origLQuoteWords origLWordList triples1
    = origLQuoteWords origLWordList (List.filter wellShaped triples1)
  ∧ sublist (origLQuoteWords origLWordList triples1) origLWordList.
Proof.
  assert (∀ l1 l2, (∀ t, wellShaped t = true → t ∈ l1 ↔ t ∈ l2) →
                   origLQuoteWords origLWordList l1 = origLQuoteWords origLWordList l2)
    as Hset.
  { intros l1 l2 Hsame. rewrite !origLQuoteWords_filter. apply filter_ext. intros w.
    apply eq_true_iff_eq. rewrite !namedByTuples_spec.
    split; intros (t & refs & ref & Hin & Hal & Hlen & Hrest);
      exists t, refs, ref; (split; [|done]); apply (Hsame t); try done;
      apply wellShaped_spec; by exists refs. }
  intros Hsame. split; [by apply Hset|]. split; [|apply origLQuoteWords_sublist].
  apply Hset. intros t Hshape. rewrite !list_elem_of_In, filter_In.
  split; [done|by intros [? _]].
Qed.

End ProjectorResult.

(** ** [getTidiedData] *)

Section Tidy.

Lemma count_while_all p ws rest :
  Forall (λ c, p c = true) ws → (∀ c, head rest = Some c → p c = false) →
  count_while p (ws ++ rest) = length ws.
Proof.
  intros Hws Hrest. induction Hws as [|c ws Hc _ IH]; simpl.
  - destruct rest as [|c rest]; [done|]. simpl. by rewrite (Hrest c).
  - by rewrite Hc, IH.
Qed.

Lemma around_ellipsis_elem p s n : around_ellipsis p s = Some n → ELLIPSIS ∈ s.
Proof.
  unfold around_ellipsis.
  destruct (drop (count_while p s) s) as [|c r] eqn:Hdrop; [done|].
  destruct (N.eqb_spec c ELLIPSIS) as [->|]; [|done]. intros _.
  rewrite <-(take_drop (count_while p s) s), Hdrop.
  apply elem_of_app. right. apply list_elem_of_here.
Qed.

Lemma replace_re_no_match m repl s :
  (∀ n u, m (drop n s) = Some u → False) → replace_re m repl s = s.
Proof.
  induction s as [|c s IH]; intros Hnone; simpl.
  - destruct (m []) eqn:Hm; [|done]. by destruct (Hnone 0 n).
  - destruct (m (c :: s)) eqn:Hm; [by destruct (Hnone 0 n)|].
    f_equal. apply IH. intros n u. apply (Hnone (S n) u).
Qed.

Lemma join_elem c sep l :
  c ∈ join sep l → c ∈ sep ∨ ∃ w, w ∈ l ∧ c ∈ w.
Proof.
  induction l as [|w [|w' l] IH]; simpl.
  - intros Hc. by apply elem_of_nil in Hc.
  - intros Hc. right. exists w. split; [apply list_elem_of_here|done].
  - intros [Hc|[Hc|Hc]%elem_of_app]%elem_of_app.
    + right. exists w. split; [apply list_elem_of_here|done].
    + by left.
    + destruct (IH Hc) as [?|(w0 & Hw0 & ?)]; [by left|].
      right. exists w0. split; [by apply list_elem_of_further|done].
Qed.

(** X6.  Words without an ellipsis are joined with single spaces and
    nothing else is changed. *)
Theorem getTidiedData_plain wordList :
  Forall (λ w, ELLIPSIS ∉ w) wordList →
  getTidiedData wordList = join [SPACE] wordList.
Proof.
  intros Hwords. unfold getTidiedData. apply replace_re_no_match.
  intros n u Hell%around_ellipsis_elem.
  assert (ELLIPSIS ∈ join [SPACE] wordList) as Hin.
  { rewrite <-(take_drop n (join [SPACE] wordList)). apply elem_of_app. by right. }
  apply join_elem in Hin as [Hsp|(w & Hw & Hc)].
  - by apply list_elem_of_singleton in Hsp.
  - rewrite Forall_forall in Hwords. by apply (Hwords w).
Qed.

Lemma around_ellipsis_cons_space p c s :
  p c = true →
  around_ellipsis p (c :: s) = S <$> around_ellipsis p s.
Proof.
  intros Hc. unfold around_ellipsis. simpl. rewrite Hc. simpl.
  destruct (drop (count_while p s) s) as [|c' r]; [done|].
  by destruct (c' =? ELLIPSIS)%N.
Qed.

Lemma around_ellipsis_here p ws1 ws2 rest :
  p ELLIPSIS = false →
  Forall (λ c, p c = true) ws1 → Forall (λ c, p c = true) ws2 →
  (∀ c, head rest = Some c → p c = false) →
  around_ellipsis p (ws1 ++ [ELLIPSIS] ++ ws2 ++ rest)
  = Some (length ws1 + 1 + length ws2).
Proof.
  intros Hell Hws1 Hws2 Hrest. unfold around_ellipsis.
  rewrite (count_while_all p ws1) by (done || by intros c [= <-]).
  rewrite drop_app_length. simpl. by rewrite (count_while_all p ws2).
Qed.

Lemma around_ellipsis_before p pre rest :
  pre ≠ [] → ELLIPSIS ∉ pre → (∀ c, last pre = Some c → p c = false) →
  around_ellipsis p (pre ++ rest) = None.
Proof.
  induction pre as [|c pre IH]; intros Hne Hell Hlast; [done|].
  apply not_elem_of_cons in Hell as [Hc Hell]. simpl.
  destruct (p c) eqn:Hpc.
  - rewrite around_ellipsis_cons_space by done.
    destruct pre as [|c' pre]; [by rewrite (Hlast c) in Hpc|].
    rewrite IH; [done|done|done|]. intros c0 Hc0. apply Hlast. by rewrite last_cons, Hc0.
  - unfold around_ellipsis. simpl. rewrite Hpc. simpl.
    by destruct (N.eqb_spec c ELLIPSIS).
Qed.

(** X7.  The first ellipsis of the joined words is replaced, together
    with the white space around it, by [ & ]; what stands before and
    after it is kept as it is, a later ellipsis included. *)
Theorem getTidiedData_first_ellipsis wordList pre ws1 ws2 rest :
  join [SPACE] wordList = pre ++ ws1 ++ [ELLIPSIS] ++ ws2 ++ rest →
  ELLIPSIS ∉ pre → (∀ c, last pre = Some c → isWhiteSpace c = false) →
  Forall (λ c, isWhiteSpace c = true) ws1 → Forall (λ c, isWhiteSpace c = true) ws2 →
  (∀ c, head rest = Some c → isWhiteSpace c = false) →
  getTidiedData wordList = pre ++ js " & " ++ rest.
Proof.
  intros Hjoin Hell Hlast Hws1 Hws2 Hrest. unfold getTidiedData.
  rewrite Hjoin. clear Hjoin. induction pre as [|c pre IH].
  - rewrite !app_nil_l. assert (replace_re (around_ellipsis isWhiteSpace) (js " & ")
                              (ws1 ++ [ELLIPSIS] ++ ws2 ++ rest)
                            = js " & " ++ drop (length ws1 + 1 + length ws2)
                                            (ws1 ++ [ELLIPSIS] ++ ws2 ++ rest)) as ->.
    { pose proof (around_ellipsis_here isWhiteSpace ws1 ws2 rest eq_refl Hws1 Hws2 Hrest)
        as Hhere.
      destruct (ws1 ++ [ELLIPSIS] ++ ws2 ++ rest); cbn [replace_re]; by rewrite Hhere. }
    f_equal.
    replace (ws1 ++ [ELLIPSIS] ++ ws2 ++ rest) with ((ws1 ++ [ELLIPSIS] ++ ws2) ++ rest)
      by (by rewrite <-!(assoc_L (++))).
    apply drop_app_length'. rewrite !length_app. simpl. lia.
  - pose proof (around_ellipsis_before isWhiteSpace (c :: pre)
                  (ws1 ++ [ELLIPSIS] ++ ws2 ++ rest) ltac:(done) Hell Hlast) as Hnone.
    apply not_elem_of_cons in Hell as [Hc Hell].
    set (X := ws1 ++ [ELLIPSIS] ++ ws2 ++ rest) in *.
    change ((c :: pre) ++ X) with (c :: (pre ++ X)) in Hnone |- *.
    cbn [replace_re]. rewrite Hnone.
    change ((c :: pre) ++ js " & " ++ rest) with (c :: (pre ++ js " & " ++ rest)).
    f_equal. apply IH; [done|]. intros c0 Hc0. apply Hlast.
    destruct pre; [done|]. by rewrite last_cons, Hc0.
Qed.

End Tidy.

(** ** Verse numbers *)

Section Numbers.

Lemma digit_value_decimal c :
  in_range 48 57 c = true → digit_value 10 c = Some (c - 48)%N.
Proof.
  unfold in_range. intros [Hlo%N.leb_le Hhi%N.leb_le]%andb_true_iff.
  unfold digit_value, in_range.
  replace (48 <=? c)%N with true by (symmetry; apply N.leb_le; lia).
  replace (c <=? 57)%N with true by (symmetry; apply N.leb_le; lia).
  simpl. by replace (c - 48 <? 10)%N with true by (symmetry; apply N.ltb_lt; lia).
Qed.

Lemma uint_digits_range d c : c ∈ uint_digits d → in_range 48 57 c = true.
Proof.
  induction d; simpl; [by intros ?%elem_of_nil|..];
    (intros [->|?]%elem_of_cons; [done|auto]).
Qed.

Lemma parse_digits_acc d acc :
  parse_digits 10 (uint_digits d) (Some (Npos acc))
  = Some (Npos (Pos.of_uint_acc d acc)).
Proof.
  revert acc. induction d as [|d IH|d IH|d IH|d IH|d IH|d IH|d IH|d IH|d IH|d IH];
    intros acc; [done|..];
    cbn [uint_digits parse_digits Pos.of_uint_acc];
    rewrite digit_value_decimal by done; cbn [default];
    rewrite <-IH; do 2 f_equal; unfold id; lia.
Qed.

Lemma parse_digits_zero d :
  parse_digits 10 (uint_digits d) (Some 0%N) = Some (Pos.of_uint d).
Proof.
  induction d as [|d IH|d IH|d IH|d IH|d IH|d IH|d IH|d IH|d IH|d IH]; [done|..];
    cbn [uint_digits parse_digits Pos.of_uint];
    rewrite digit_value_decimal by done; cbn [default]; [done|..];
    rewrite <-parse_digits_acc; do 2 f_equal.
Qed.

Lemma parse_digits_start d :
  d ≠ Decimal.Nil →
  parse_digits 10 (uint_digits d) None = Some (Pos.of_uint d).
Proof.
  intros Hd. rewrite <-parse_digits_zero.
  destruct d; [done|..]; cbn [uint_digits parse_digits];
    by rewrite digit_value_decimal by done.
Qed.

Lemma to_uint_nonnil n : N.to_uint n ≠ Decimal.Nil.
Proof. destruct n; [done|]. apply DecimalPos.Unsigned.to_uint_nonnil. Qed.

Lemma trimStart_not_space c s : isWhiteSpace c = false → trimStart (c :: s) = c :: s.
Proof. intros Hc. unfold trimStart. simpl. by rewrite Hc. Qed.

(** A string of decimal digits is read by [parseInt] as its decimal
    value: no white space to skip, no sign, no [0x]. *)
Lemma parseInt_digits d :
  d ≠ Decimal.Nil → parseInt (uint_digits d) = Some (Z.of_N (Pos.of_uint d)).
Proof.
  intros Hd. pose proof (parse_digits_start d Hd) as Hparse.
  destruct d as [|d|d|d|d|d|d|d|d|d|d]; [done|..];
    try (unfold parseInt; cbn [uint_digits] in *; rewrite trimStart_not_space by done;
         cbv beta iota zeta; by rewrite Hparse).
  destruct d as [|d|d|d|d|d|d|d|d|d|d];
    unfold parseInt; cbn [uint_digits] in *; rewrite trimStart_not_space by done;
    cbv beta iota zeta; by rewrite Hparse.
Qed.

Lemma parseInt_minus_digits d :
  d ≠ Decimal.Nil →
  parseInt (HYPHEN :: uint_digits d) = Some (- Z.of_N (Pos.of_uint d))%Z.
Proof.
  intros Hd. pose proof (parse_digits_start d Hd) as Hparse.
  destruct d as [|d|d|d|d|d|d|d|d|d|d]; [done|..];
    try (unfold parseInt, HYPHEN; cbn [uint_digits] in *; rewrite trimStart_not_space by done;
         cbv beta iota zeta; by rewrite Hparse).
  destruct d as [|d|d|d|d|d|d|d|d|d|d];
    unfold parseInt, HYPHEN; cbn [uint_digits] in *; rewrite trimStart_not_space by done;
    cbv beta iota zeta; by rewrite Hparse.
Qed.

(** The number in a template literal reads back: [parseInt] of the
    decimal string of an integer is that integer. *)
Lemma parseInt_decimal z : parseInt (num_toString (Some z)) = Some z.
Proof.
  unfold num_toString. destruct (Z.ltb_spec z 0) as [Hneg|Hpos].
  - cbn [app]. rewrite parseInt_minus_digits by apply to_uint_nonnil.
    change (Pos.of_uint ?d) with (N.of_uint d).
    rewrite DecimalN.Unsigned.of_to. f_equal. lia.
  - rewrite app_nil_l, parseInt_digits by apply to_uint_nonnil.
    change (Pos.of_uint ?d) with (N.of_uint d).
    rewrite DecimalN.Unsigned.of_to. f_equal. lia.
Qed.

End Numbers.

(** ** Verse specifiers *)

Section VerseSpecs.

Lemma split_on_none p s : (∀ c, c ∈ s → p c = false) → split_on p s = [s].
Proof.
  induction s as [|c s IH]; intros Hs; simpl; [done|].
  rewrite (Hs c) by apply list_elem_of_here.
  rewrite IH; [done|]. intros c' Hc'. apply Hs. by apply list_elem_of_further.
Qed.

Lemma split_on_app p a sep b :
  (∀ c, c ∈ a → p c = false) → p sep = true →
  split_on p (a ++ sep :: b) = a :: split_on p b.
Proof.
  induction a as [|c a IH]; intros Ha Hsep; simpl.
  - by rewrite Hsep.
  - rewrite (Ha c) by apply list_elem_of_here.
    rewrite IH; [done| |done]. intros c' Hc'. apply Ha. by apply list_elem_of_further.
Qed.

Lemma split_on_join p sep parts :
  parts ≠ [] → p sep = true → Forall (λ part, ∀ c, c ∈ part → p c = false) parts →
  split_on p (join [sep] parts) = parts.
Proof.
  intros Hne Hsep Hparts. induction Hparts as [|part parts Hpart Hrest IH]; [done|].
  destruct parts as [|part' parts].
  - simpl. by apply split_on_none.
  - change (join [sep] (part :: part' :: parts))
      with (part ++ sep :: join [sep] (part' :: parts)).
    rewrite split_on_app by done. by rewrite IH.
Qed.

Lemma trimStart_head s :
  (∀ c, head s = Some c → isWhiteSpace c = false) → trimStart s = s.
Proof. destruct s as [|c s]; [done|]. intros Hc. apply trimStart_not_space. by apply Hc. Qed.

Lemma trim_not_space s :
  (∀ c, head s = Some c → isWhiteSpace c = false) →
  (∀ c, last s = Some c → isWhiteSpace c = false) →
  trim s = s.
Proof.
  intros Hhead Hlast. unfold trim. rewrite (trimStart_head s) by done.
  rewrite trimStart_head; [by rewrite reverse_involutive|].
  intros c Hc. apply Hlast. by rewrite <-head_reverse.
Qed.

Lemma digit_not_space c : in_range 48 57 c = true → isWhiteSpace c = false.
Proof.
  unfold in_range. intros [Hlo%N.leb_le Hhi%N.leb_le]%andb_true_iff.
  unfold isWhiteSpace, in_range.
  repeat match goal with
         | |- context [(?a <=? ?b)%N] => destruct (N.leb_spec a b); try lia
         | |- context [(?a =? ?b)%N] => destruct (N.eqb_spec a b); try lia
         end; done.
Qed.

Lemma nat_toString_digits n :
  nat_toString n ≠ []
  ∧ (∀ c, c ∈ nat_toString n → in_range 48 57 c = true).
Proof.
  unfold nat_toString, num_toString.
  replace (Z.of_nat n <? 0)%Z with false by (symmetry; apply Z.ltb_ge; lia).
  rewrite app_nil_l. split; [|apply uint_digits_range].
  pose proof (to_uint_nonnil (Z.abs_N (Z.of_nat n))) as Hd.
  by destruct (N.to_uint _).
Qed.

Lemma nat_toString_ends n c :
  head (nat_toString n) = Some c ∨ last (nat_toString n) = Some c →
  in_range 48 57 c = true.
Proof.
  intros Hc. apply (proj2 (nat_toString_digits n)).
  destruct Hc as [Hc|Hc]; [by apply head_Some_elem_of|by apply last_Some_elem_of].
Qed.

Lemma digit_not c sep : in_range 48 57 c = true → (sep <? 48)%N = true → (sep =? c)%N = false.
Proof.
  unfold in_range. intros [Hlo%N.leb_le _]%andb_true_iff Hsep%N.ltb_lt.
  apply N.eqb_neq. lia.
Qed.

Lemma commaPartVerses_spec spec :
  commaPartVerses (verseSpecString spec) = verseSpecVerses spec.
Proof.
  unfold commaPartVerses. destruct spec as [verse|first final];
    cbn [verseSpecString verseSpecVerses app].
  - assert (includes (nat_toString verse) [HYPHEN] = false) as ->.
    { apply not_true_iff_false. intros Hin%includes_spec%occursIn_singleton.
      apply nat_toString_digits in Hin. done. }
    unfold nat_toString. by rewrite parseInt_decimal.
  - assert (includes (nat_toString first ++ HYPHEN :: nat_toString final) [HYPHEN] = true)
      as ->.
    { apply includes_spec, occursIn_singleton, elem_of_app. right. apply list_elem_of_here. }
    rewrite trim_not_space.
    + unfold split_char. rewrite split_on_app, split_on_none.
      * cbn [length Nat.ltb Nat.leb lookup list_lookup default].
        unfold id, nat_toString. by rewrite !parseInt_decimal.
      * intros c Hc%nat_toString_digits. by apply digit_not.
      * intros c Hc%nat_toString_digits. by apply digit_not.
      * done.
    + intros c Hc. apply digit_not_space, (nat_toString_ends first). left.
      destruct (nat_toString first) eqn:Hfirst; [|done].
      by destruct (proj1 (nat_toString_digits first)).
    + intros c Hc. apply digit_not_space, (nat_toString_ends final). right.
      rewrite last_app in Hc. rewrite last_cons in Hc.
      destruct (last (nat_toString final)) eqn:Hlast; [done|].
      apply last_None in Hlast. by destruct (proj1 (nat_toString_digits final)).
Qed.

Lemma verseSpecString_chars spec :
  verseSpecString spec ≠ []
  ∧ (∀ c, c ∈ verseSpecString spec → (COMMA =? c)%N = false)
  ∧ (∀ c, head (verseSpecString spec) = Some c → isWhiteSpace c = false)
  ∧ (∀ c, last (verseSpecString spec) = Some c → isWhiteSpace c = false).
Proof.
  destruct spec as [verse|first final]; cbn [verseSpecString app].
  - destruct (nat_toString_digits verse) as [Hne Hdigits]. split; [done|].
    split; [intros c Hc; apply digit_not; [by apply Hdigits|done]|].
    split; intros c Hc; apply digit_not_space, (nat_toString_ends verse); auto.
  - destruct (nat_toString_digits first) as [Hne Hdigits].
    destruct (nat_toString_digits final) as [Hne' Hdigits'].
    split; [by destruct (nat_toString first)|]. split; [|split].
    + intros c [Hc|[->|Hc]%elem_of_cons]%elem_of_app; [|done|];
        (apply digit_not; [auto|done]).
    + intros c Hc. apply digit_not_space, (nat_toString_ends first). left.
      by destruct (nat_toString first).
    + intros c Hc. apply digit_not_space, (nat_toString_ends final). right.
      rewrite last_app, last_cons in Hc.
      destruct (last (nat_toString final)) eqn:Hlast; [done|].
      by apply last_None in Hlast.
Qed.

Lemma join_ends sep parts c :
  Forall (λ part, part ≠ []) parts →
  (head (join [sep] parts) = Some c → ∃ part, head parts = Some part ∧ head part = Some c)
  ∧ (last (join [sep] parts) = Some c → ∃ part, last parts = Some part ∧ last part = Some c).
Proof.
  intros Hparts. induction Hparts as [|part parts Hpart Hrest IH]; [done|].
  destruct parts as [|part' parts].
  - simpl. split; intros Hc; by exists part.
  - change (join [sep] (part :: part' :: parts))
      with (part ++ sep :: join [sep] (part' :: parts)).
    split.
    + intros Hc. exists part. split; [done|]. by destruct part.
    + intros Hc. rewrite last_app, last_cons in Hc.
      destruct (last (join [sep] (part' :: parts))) as [c'|] eqn:Hlast.
      * injection Hc as ->. destruct (proj2 IH eq_refl) as (part0 & Hpart0 & Hc0).
        exists part0. split; [|done]. by rewrite last_cons, Hpart0.
      * apply last_None in Hlast. apply Forall_cons in Hrest as [Hpart' _].
        destruct part'; [done|]. by destruct parts.
Qed.

(** X8.  Expanding the written form of verse specifiers gives their
    verses: for a non-empty list of specifiers, each a verse number or a
    range [first-last] in decimal, joined with commas, with every number
    below 2^53 and fewer than 2^32 verses in all (where the numbers and
    the array of the source are exact), [expandVerses] returns, in order,
    the verse of each single specifier and every verse from [first] to
    [last] of each range (none when [last < first]). *)
Theorem expandVerses_specs specs :
  specs ≠ [] →
  Forall verseSpecInRange specs →
  (Z.of_nat (length (concat (map verseSpecVerses specs))) < 2 ^ 32)%Z →
  expandVerses (join [COMMA] (map verseSpecString specs))
  = concat (map verseSpecVerses specs).
Proof.
  intros Hne _ _. unfold expandVerses. cbv zeta.
  assert (Forall (λ part, part ≠ []) (map verseSpecString specs)) as Hparts.
  { apply Forall_fmap, Forall_forall. intros spec _. apply verseSpecString_chars. }
  rewrite trim_not_space.
  - unfold split_char. rewrite split_on_join.
    + rewrite map_map. f_equal. apply map_ext. intros spec. apply commaPartVerses_spec.
    + by destruct specs.
    + done.
    + apply Forall_fmap, Forall_forall. intros spec _.
      intros c Hc. by apply (verseSpecString_chars spec).
  - intros c (part & Hpart & Hc)%(proj1 (join_ends COMMA _ c Hparts)).
    apply head_Some_elem_of, list_elem_of_fmap in Hpart as (spec & -> & _).
    exact (proj1 (proj2 (proj2 (verseSpecString_chars spec))) c Hc).
  - intros c (part & Hpart & Hc)%(proj2 (join_ends COMMA _ c Hparts)).
    apply last_Some_elem_of, list_elem_of_fmap in Hpart as (spec & -> & _).
    exact (proj2 (proj2 (proj2 (verseSpecString_chars spec))) c Hc).
Qed.

End VerseSpecs.

(** ** The variants of a quote *)

Section Variants.
Context `{Collaborators}.

Lemma cleanQuoteOf_unchanged quote :
  AMPERSAND ∉ quote → 123%N ∉ quote → 125%N ∉ quote → cleanQuoteOf quote = quote.
Proof.
  unfold cleanQuoteOf. induction quote as [|c quote IH]; [done|].
  intros [Hamp ?]%not_elem_of_cons [Hopen ?]%not_elem_of_cons [Hclose ?]%not_elem_of_cons.
  cbn [map List.filter].
  destruct (N.eqb_spec c AMPERSAND) as [->|_]; [done|].
  destruct (N.eqb_spec c 123) as [->|_]; [done|].
  destruct (N.eqb_spec c 125) as [->|_]; [done|].
  simpl. by rewrite IH.
Qed.

(** X9.  Cleaning a quote is idempotent, and a quote is left as it is
    exactly when it has no ampersand and no brace. *)
Theorem cleanQuoteOf_idempotent quote :
  cleanQuoteOf (cleanQuoteOf quote) = cleanQuoteOf quote
  ∧ (cleanQuoteOf quote = quote ↔
     (AMPERSAND ∉ quote) ∧ (123%N ∉ quote) ∧ (125%N ∉ quote)).
Proof.
  assert ((AMPERSAND ∉ cleanQuoteOf quote) ∧ (123%N ∉ cleanQuoteOf quote)
          ∧ (125%N ∉ cleanQuoteOf quote)) as (Hamp & Hopen & Hclose).
  { repeat split; intros (? & ? & [[? _]|[? _]])%cleanQuoteOf_elem; done. }
  split; [by apply cleanQuoteOf_unchanged|]. split.
  - by intros <-.
  - intros (? & ? & ?). by apply cleanQuoteOf_unchanged.
Qed.

Lemma split_re_go_nonempty m skip piece s : split_re_go m skip piece s ≠ [].
Proof.
  revert skip piece. induction s as [|c s IH]; intros skip piece; simpl; [done|].
  destruct skip; [|apply IH]. destruct (m (c :: s)); [done|apply IH].
Qed.

Lemma split_re_go_elem m skip piece s part c :
  part ∈ split_re_go m skip piece s → c ∈ part → c ∈ piece ∨ c ∈ s.
Proof.
  revert skip piece. induction s as [|c' s IH]; intros skip piece; simpl.
  - intros ->%list_elem_of_singleton Hc. left. by apply elem_of_reverse.
  - destruct skip as [|skip].
    + destruct (m (c' :: s)).
      * intros [->|Hin]%elem_of_cons Hc.
        -- left. by apply elem_of_reverse.
        -- destruct (IH _ _ Hin Hc) as [?%elem_of_nil|?]; [done|].
           right. by apply list_elem_of_further.
      * intros Hin Hc. destruct (IH _ _ Hin Hc) as [[->|?]%elem_of_cons|?].
        -- right. apply list_elem_of_here.
        -- by left.
        -- right. by apply list_elem_of_further.
    + intros Hin Hc. destruct (IH _ _ Hin Hc) as [?|?]; [by left|].
      right. by apply list_elem_of_further.
Qed.

Lemma around_ellipsis_at_ellipsis p s :
  p ELLIPSIS = false → is_Some (around_ellipsis p (ELLIPSIS :: s)).
Proof. intros Hp. unfold around_ellipsis. simpl. rewrite Hp. simpl. by eexists. Qed.

Lemma split_re_go_no_ellipsis p skip piece s part :
  p ELLIPSIS = false →
  part ∈ split_re_go (around_ellipsis p) skip piece s →
  ELLIPSIS ∉ piece → ELLIPSIS ∉ part.
Proof.
  intros Hp. revert skip piece. induction s as [|c s IH]; intros skip piece; simpl.
  - intros ->%list_elem_of_singleton Hpiece Hc. apply Hpiece. by apply elem_of_reverse.
  - destruct skip as [|skip]; [|apply IH].
    destruct (around_ellipsis p (c :: s)) eqn:Hm.
    + intros [->|Hin]%elem_of_cons Hpiece.
      * intros Hc. apply Hpiece. by apply elem_of_reverse.
      * eapply IH; [done|]. apply not_elem_of_nil.
    + intros Hin Hpiece. eapply IH; [done|]. apply not_elem_of_cons. split; [|done].
      intros <-. destruct (around_ellipsis_at_ellipsis p s Hp) as [n Hn]. congruence.
Qed.

Lemma splitOnEllipsis_parts quote :
  splitOnEllipsis quote ≠ []
  ∧ Forall (λ part, (ELLIPSIS ∉ part) ∧ ∀ c, c ∈ part → c ∈ quote)
      (splitOnEllipsis quote).
Proof.
  unfold splitOnEllipsis, split_re. split; [apply split_re_go_nonempty|].
  apply Forall_forall. intros part Hpart. split.
  - eapply split_re_go_no_ellipsis; [|done|apply not_elem_of_nil]. done.
  - intros c Hc. by destruct (split_re_go_elem _ _ _ _ _ _ Hpart Hc) as [?%elem_of_nil|?].
Qed.

(** X10.  The variants of a quote: the cleaned quote comes first, at
    most five more follow, and every array variant has at least one part
    and no part with an ellipsis. *)
Theorem quotesToTry_shape quote :
  ∃ rest,
    quotesToTry quote = QuoteString (cleanQuoteOf quote) :: rest
    ∧ length rest ≤ 5
    ∧ Forall (λ variant, match variant with
                         | QuoteString _ => True
                         | QuoteParts parts =>
                             parts ≠ [] ∧ Forall (λ part, ELLIPSIS ∉ part) parts
                         end) rest.
Proof.
  unfold quotesToTry. cbv zeta. eexists. split; [done|].
  assert (∀ q, splitOnEllipsis q ≠ []
               ∧ Forall (λ part, ELLIPSIS ∉ part) (splitOnEllipsis q)) as Hparts
    by (intros q; destruct (splitOnEllipsis_parts q) as [? Hall]; split; [done|];
        eapply Forall_impl; [done|]; by intros ? [? _]).
  split.
  - destruct (negb (eqb quote (cleanQuoteOf quote))),
      (includes (cleanQuoteOf quote) [ELLIPSIS]),
      (negb (eqb (cleanQuoteOf quote) (upperFirstLower (cleanQuoteOf quote)))),
      (includes (upperFirstLower (cleanQuoteOf quote)) [ELLIPSIS]);
      simpl; lia.
  - destruct (negb (eqb quote (cleanQuoteOf quote))),
      (includes (cleanQuoteOf quote) [ELLIPSIS]),
      (negb (eqb (cleanQuoteOf quote) (upperFirstLower (cleanQuoteOf quote)))),
      (includes (upperFirstLower (cleanQuoteOf quote)) [ELLIPSIS]);
      simpl; repeat constructor; apply Hparts.
Qed.

End Variants.

(** ** Rows whose verses are indexed *)

Section Indexed.
Context `{Collaborators}.
Variables (tokenLookup : TokenLookup) (book testament : jsstring).

Lemma replace_first_elem pat s c : c ∈ replace_first pat [] s → c ∈ s.
Proof.
  induction s as [|c' s IH]; simpl.
  - destruct (startsWith pat []); [|done]. simpl. by rewrite drop_nil.
  - destruct (startsWith pat (c' :: s)).
    + simpl. apply subseteq_drop.
    + intros [->|?]%elem_of_cons; [apply list_elem_of_here|].
      apply list_elem_of_further. by apply IH.
Qed.

Lemma containsHebrewOrGreek_paseq quote :
  containsHebrewOrGreek quote = false → PASEQ ∉ quote.
Proof.
  unfold containsHebrewOrGreek. intros Hnone Hin.
  apply not_true_iff_false in Hnone. apply Hnone, existsb_exists.
  exists PASEQ. by rewrite <-list_elem_of_In.
Qed.

Lemma quotesToTry_paseqFree quote :
  PASEQ ∉ quote → Forall paseqFree (quotesToTry quote).
Proof.
  intros Hquote.
  assert (PASEQ ∉ cleanQuoteOf quote) as Hclean.
  { intros (_ & _ & [[? _]|[_ ?]])%cleanQuoteOf_elem; done. }
  assert (∀ q, PASEQ ∉ q → paseqFree (QuoteParts (splitOnEllipsis q))) as Hparts.
  { intros q Hq. destruct (splitOnEllipsis_parts q) as [Hne Hall]. split; [done|].
    eapply Forall_impl; [done|]. intros part [_ Hsub] Hin. by apply Hq, Hsub. }
  pose proof (upperFirstLower_paseq _ Hclean) as Hupper.
  unfold quotesToTry. cbv zeta.
  destruct (negb (eqb quote (cleanQuoteOf quote))),
    (includes (cleanQuoteOf quote) [ELLIPSIS]),
    (negb (eqb (cleanQuoteOf quote) (upperFirstLower (cleanQuoteOf quote)))),
    (includes (upperFirstLower (cleanQuoteOf quote)) [ELLIPSIS]);
    simpl; repeat constructor; done || by apply Hparts.
Qed.

Lemma origLFromGLQuote_defined cv sourceTokens ULTTokens ULTSearchString occurrence p :
  PASEQ ∉ ULTSearchString →
  ∃ ro, origLFromGLQuote book cv (Some sourceTokens) (Some ULTTokens) ULTSearchString
          occurrence p = Ok ro
        ∧ dataOrError ro.
Proof.
  intros [first Hfirst]%intermediateSearchList_first.
  destruct (searchULTWordRecords ULTSearchString (Some ULTTokens)) as [triples|e] eqn:Hsearch.
  - rewrite (origLFromGLQuote_unfold _ _ _ _ _ _ _ triples sourceTokens) by done.
    cbv zeta. destruct (origLQuoteWords _ triples); eexists; (split; [done|]).
    + right. by split; [|eexists].
    + left. by split; [eexists|].
  - unfold searchULTWordRecords in Hsearch. cbv zeta in Hsearch. rewrite Hfirst in Hsearch.
    by destruct (findStart _ _ _ _ _).
Qed.

Lemma hasData_dataOrError ro : dataOrError ro → hasData ro = true ∨ hasData ro = false.
Proof. destruct (hasData ro); auto. Qed.

Lemma tryParts_defined cv sourceTokens ULTTokens occurrence parts resultObject
    partsConverted :
  Forall (λ part, PASEQ ∉ part) parts →
  (parts ≠ [] ∨ ∃ ro, resultObject = Some ro ∧ dataOrError ro) →
  ∃ ro partsConverted',
    tryParts book cv (Some sourceTokens) (Some ULTTokens) occurrence parts resultObject
      partsConverted = Ok (Some ro, partsConverted')
    ∧ dataOrError ro
    ∧ (length partsConverted' = length partsConverted + length parts →
       is_Some (data ro) ∨ (parts = [] ∧ resultObject = Some ro)).
Proof.
  intros Hparts. revert resultObject partsConverted.
  induction Hparts as [|part parts Hpart _ IH]; intros resultObject partsConverted Hstart.
  - destruct Hstart as [?|(ro & -> & Hro)]; [done|]. exists ro, partsConverted.
    split; [done|]. split; [done|]. by right.
  - assert (∀ ro, dataOrError ro → hasData ro = true →
              ∃ ro' partsConverted',
                tryParts book cv (Some sourceTokens) (Some ULTTokens) occurrence parts
                  (Some ro) (partsConverted ++ [getTidiedData (default [] (data ro))])
                = Ok (Some ro', partsConverted')
                ∧ dataOrError ro'
                ∧ (length partsConverted' = length partsConverted + length (part :: parts) →
                   is_Some (data ro') ∨ (part :: parts = [] ∧ resultObject = Some ro')))
      as Hnext.
    { intros ro Hro Hdata.
      destruct (IH (Some ro) (partsConverted ++ [getTidiedData (default [] (data ro))]))
        as (ro' & pc & Heq & Hro' & Hlen); [right; by exists ro|].
      exists ro', pc. split; [done|]. split; [done|]. intros Hpc. left.
      rewrite length_app in Hlen. simpl in Hlen, Hpc.
      destruct Hlen as [?|[_ [= <-]]]; [lia|done|].
      unfold hasData in Hdata. by apply bool_decide_eq_true in Hdata. }
    cbn [tryParts].
    destruct (origLFromGLQuote_defined cv sourceTokens ULTTokens part occurrence prune Hpart)
      as (ro & -> & Hro).
    cbn [mbind result_bind]. destruct (hasData ro) eqn:Hdata; [by apply Hnext|].
    destruct (origLFromGLQuote_defined cv sourceTokens ULTTokens (upperFirstLower part)
                occurrence prune (upperFirstLower_paseq _ Hpart)) as (ro2 & -> & Hro2).
    cbn [mbind result_bind]. destruct (hasData ro2) eqn:Hdata2; [by apply Hnext|].
    exists ro2, partsConverted. split; [done|]. split; [done|]. simpl. lia.
Qed.

Lemma tryQuotes_defined cv sourceTokens ULTTokens occurrence quotes resultObject :
  Forall paseqFree quotes →
  (quotes ≠ [] ∨ ∃ ro, resultObject = Some ro ∧ dataOrError ro) →
  ∃ ro, tryQuotes book cv (Some sourceTokens) (Some ULTTokens) occurrence quotes
          resultObject = Ok (Some ro)
        ∧ dataOrError ro.
Proof.
  intros Hquotes. revert resultObject.
  induction Hquotes as [|quote quotes Hquote _ IH]; intros resultObject Hstart.
  - destruct Hstart as [?|(ro & -> & Hro)]; [done|]. by exists ro.
  - destruct quote as [quote|parts]; cbn [tryQuotes].
    + destruct (origLFromGLQuote_defined cv sourceTokens ULTTokens quote occurrence prune
                  Hquote) as (ro & -> & Hro).
      cbn [mbind result_bind]. destruct (hasData ro); [by exists ro|].
      apply IH. right. by exists ro.
    + destruct Hquote as [Hne Hparts].
      destruct (tryParts_defined cv sourceTokens ULTTokens occurrence parts resultObject []
                  Hparts) as (ro & pc & -> & Hro & Hlen); [by left|].
      cbn [mbind result_bind]. destruct (length pc =? length parts) eqn:Hpc.
      * eexists. split; [done|]. left. split; [by eexists|]. simpl.
        apply Nat.eqb_eq in Hpc. destruct (Hlen Hpc) as [Hsome|[? _]]; [|done].
        destruct Hro as [[_ ?]|[Hnone _]]; [done|]. rewrite Hnone in Hsome.
        by destruct Hsome.
      * apply IH. right. by exists ro.
Qed.

Lemma verseTokens_Some cv sourceTokens allULTTokens :
  verseTokens tokenLookup book testament cv = Some (sourceTokens, allULTTokens) →
  ∃ sourceBook ultBook,
    property (if eqb testament (js "old") then tokenLookup !! js "uhb"
              else tokenLookup !! js "ugnt") (toUpperCase book) = Ok (Some sourceBook)
    ∧ sourceBook !! cv = Some sourceTokens
    ∧ property (tokenLookup !! js "ult") (toUpperCase book) = Ok (Some ultBook)
    ∧ ultBook !! cv = Some allULTTokens.
Proof.
  unfold verseTokens, sourceCorpus. intros Htokens.
  assert ((if eqb testament (js "old") then tokenLookup !! js "uhb"
           else tokenLookup !! js "ugnt")
          = tokenLookup !! (if eqb testament (js "old") then js "uhb" else js "ugnt")) as ->
    by (by destruct (eqb testament (js "old"))).
  destruct (tokenLookup !! (if eqb testament (js "old") then js "uhb" else js "ugnt"))
    as [source|]; [|done].
  cbn [mbind option_bind] in Htokens.
  destruct (source !! toUpperCase book) as [sourceBook|] eqn:Hbook; [|done].
  cbn [mbind option_bind] in Htokens.
  destruct (sourceBook !! cv) as [tokens|] eqn:Hcv; [|done].
  cbn [mbind option_bind] in Htokens.
  destruct (tokenLookup !! js "ult") as [ult|]; [|done].
  cbn [mbind option_bind] in Htokens.
  destruct (ult !! toUpperCase book) as [ultBook|] eqn:Hult; [|done].
  cbn [mbind option_bind] in Htokens.
  destruct (ultBook !! cv) as [ultTokens|] eqn:Hucv; [|done].
  cbn [mbind option_bind] in Htokens. injection Htokens as <- <-.
  exists sourceBook, ultBook. cbn [property]. by rewrite Hbook, Hult.
Qed.

Lemma tryVerse_defined tsvRecord chapter verse quote sourceTokens allULTTokens :
  verseTokens tokenLookup book testament (chapter ++ js ":" ++ num_toString verse)
    = Some (sourceTokens, allULTTokens) →
  tsv_quote tsvRecord = Some quote →
  PASEQ ∉ quote →
  ∃ ro, tryVerse tokenLookup book testament tsvRecord chapter verse
        = Ok (chapter ++ js ":" ++ num_toString verse, Some ro)
        ∧ dataOrError ro.
Proof.
  intros (sourceBook & ultBook & Hsource & Hcv & Hult & Hucv)%verseTokens_Some Hquote Hfree.
  unfold tryVerse. cbv zeta. rewrite Hsource. cbn [mbind result_bind property].
  rewrite Hcv, Hult. cbn [mbind result_bind property]. rewrite Hucv, Hquote.
  cbn [fmap option_fmap option_map].
  destruct (tryQuotes_defined (chapter ++ js ":" ++ num_toString verse) sourceTokens
              (map (λ t, mkGLToken (payload t) (scopes t))
                 (List.filter isWordLike allULTTokens))
              (opt_toString (tsv_occurrence tsvRecord)) (quotesToTry quote) None
              (quotesToTry_paseqFree quote Hfree)) as (ro & -> & Hro).
  { left. by unfold quotesToTry. }
  by exists ro.
Qed.

Lemma processed_quote_paseq tsvRecord quote :
  isPassedThrough tsvRecord = false → tsv_quote tsvRecord = Some quote →
  PASEQ ∉ replace_first QUOTE_NOT_FOUND [] quote.
Proof.
  intros Hpass Hquote Hin%replace_first_elem.
  destruct (isPassedThrough_false _ Hpass) as (_ & quote' & _ & _ & Hquote' & _ & _ & _
                                               & _ & Hscript).
  apply (containsHebrewOrGreek_paseq quote); [congruence|done].
Qed.

(** X11.  A candidate verse that both corpora of the index have: for
    every processed row (its quote has neither Hebrew nor Greek, so no
    paseq) no variant of the quote throws, and the loop over the variants
    ends with an object that has data or an error, never both and never
    neither. *)
Theorem tryVerse_indexed tsvRecord chapter verse quote sourceTokens allULTTokens :
  isPassedThrough tsvRecord = false →
  tsv_quote tsvRecord = Some quote →
  verseTokens tokenLookup book testament (chapter ++ js ":" ++ num_toString verse)
    = Some (sourceTokens, allULTTokens) →
  ∃ ro, tryVerse tokenLookup book testament
          (set_quote tsvRecord (replace_first QUOTE_NOT_FOUND [] quote)) chapter verse
        = Ok (chapter ++ js ":" ++ num_toString verse, Some ro)
        ∧ dataOrError ro.
Proof.
  intros Hpass Hquote Htokens.
  apply (tryVerse_defined _ _ _ (replace_first QUOTE_NOT_FOUND [] quote) sourceTokens
           allULTTokens); [done|by destruct tsvRecord|by eapply processed_quote_paseq].
Qed.

Lemma verseLoop_indexed versesLength verseIdx chapter verses st tsvRecord quote :
  verseIdx + length verses = versesLength →
  tsv_quote tsvRecord = Some quote → PASEQ ∉ quote →
  Forall (λ verse, is_Some (verseTokens tokenLookup book testament
                              (chapter ++ js ":" ++ num_toString verse))) verses →
  ∃ st' tsvRecord',
    verseLoop tokenLookup book testament versesLength verseIdx chapter verses st tsvRecord
    = Ok (st', tsvRecord').
Proof.
  intros Hlen Hquote Hfree Hverses. revert verseIdx Hlen.
  induction Hverses as [|verse verses [[src ult] Hverse] _ IH]; intros verseIdx Hlen.
  - by eexists _, _.
  - rewrite verseLoop_cons by (simpl in Hlen; lia).
    destruct (tryVerse_defined tsvRecord chapter verse quote src ult Hverse Hquote Hfree)
      as (ro & -> & _).
    cbn [mbind result_bind]. destruct (hasData ro).
    + destruct (commitPass st tsvRecord _). by eexists _, _.
    + destruct verses as [|verse' verses].
      * destruct (commitFail book st tsvRecord _ ro). by eexists _, _.
      * apply IH. simpl in Hlen |- *. lia.
Qed.

Lemma processRecord_of_verseLoop st tsvRecord quote ref chapter verseRef more st'
    tsvRecord' :
  isPassedThrough tsvRecord = false →
  tsv_quote tsvRecord = Some quote →
  tsv_ref tsvRecord = Some ref →
  split_char COLON ref = chapter :: verseRef :: more →
  verseLoop tokenLookup book testament (length (expandVerses verseRef)) 0 chapter
    (expandVerses verseRef)
    {| output := output st; errors := errors st; nRecords := S (nRecords st);
       counts_pass := counts_pass st; counts_fail := counts_fail st |}
    (set_quote tsvRecord (replace_first QUOTE_NOT_FOUND [] quote))
  = Ok (st', tsvRecord') →
  processRecord tokenLookup book testament st tsvRecord = Ok st'
  ∧ (expandVerses verseRef ≠ [] → ∃ row, output st' = output st ++ [row]).
Proof.
  intros Hpass Hquote Href Hsplit Hloop.
  assert (processRecord tokenLookup book testament st tsvRecord = Ok st') as Hproc.
  { rewrite (processRecord_processed _ _ _ _ _ quote ref chapter verseRef more) by done.
    by rewrite Hloop. }
  split; [done|]. intros Hne.
  destruct (processRecord_emits_one tokenLookup book testament st tsvRecord st')
    as (row & Hrow & _); [|done|by exists row].
  right. unfold versesOf. by rewrite Href, Hsplit.
Qed.

(** X12.  A processed row whose ref has a colon and whose candidate
    verses are all in both corpora of the index is processed without
    exception; when it has a candidate verse at all, exactly one row is
    emitted for it. *)
Theorem processRecord_indexed st tsvRecord ref chapter verseRef more :
  isPassedThrough tsvRecord = false →
  tsv_ref tsvRecord = Some ref →
  split_char COLON ref = chapter :: verseRef :: more →
  Forall (λ verse, is_Some (verseTokens tokenLookup book testament
                              (chapter ++ js ":" ++ num_toString verse)))
    (expandVerses verseRef) →
  ∃ st', processRecord tokenLookup book testament st tsvRecord = Ok st'
         ∧ (expandVerses verseRef ≠ [] → ∃ row, output st' = output st ++ [row]).
Proof.
  intros Hpass Href Hsplit Hverses.
  destruct (isPassedThrough_false _ Hpass) as (ref' & quote & _ & _ & Hquote & _).
  destruct (verseLoop_indexed (length (expandVerses verseRef)) 0 chapter
              (expandVerses verseRef)
              {| output := output st; errors := errors st; nRecords := S (nRecords st);
                 counts_pass := counts_pass st; counts_fail := counts_fail st |}
              (set_quote tsvRecord (replace_first QUOTE_NOT_FOUND [] quote))
              (replace_first QUOTE_NOT_FOUND [] quote))
    as (st' & tsvRecord' & Hloop); [done|done|by eapply processed_quote_paseq|done|].
  exists st'. by eapply processRecord_of_verseLoop.
Qed.

End Indexed.

(** ** What a run keeps true *)

Section Counters.
Context `{Collaborators}.
Variables (tokenLookup : TokenLookup) (book testament : jsstring).

(** What one record does to the state: nothing but the record count
    (a dropped row), one row, or one row and one message. *)
Lemma processRecord_step st tsvRecord st' :
  processRecord tokenLookup book testament st tsvRecord = Ok st' →
  nRecords st' = S (nRecords st)
  ∧ ((isPassedThrough tsvRecord = false
      ∧ output st' = output st ∧ errors st' = errors st
      ∧ counts_pass st' = counts_pass st ∧ counts_fail st' = counts_fail st)
     ∨ (∃ row, output st' = output st ++ [row] ∧ errors st' = errors st
               ∧ counts_fail st' = counts_fail st
               ∧ (if isPassedThrough tsvRecord then counts_pass st' = counts_pass st
                  else counts_pass st' = S (counts_pass st)))
     ∨ (∃ row msg, isPassedThrough tsvRecord = false
                   ∧ output st' = output st ++ [row] ∧ errors st' = errors st ++ [msg]
                   ∧ counts_pass st' = counts_pass st
                   ∧ counts_fail st' = S (counts_fail st))).
Proof.
  destruct (isPassedThrough tsvRecord) eqn:Hpass.
  - rewrite processRecord_passed_through by done. intros [= <-]. split; [done|].
    right. left. by eexists.
  - destruct (isPassedThrough_false _ Hpass) as (ref & quote & _ & Href & Hquote & _).
    unfold processRecord. rewrite Hpass, Hquote. cbn [tsv_ref set_quote]. rewrite Href.
    destruct (split_char COLON ref) as [|chapter [|verseRef more]];
      cbn [lookup list_lookup]; [done..|]. cbv zeta.
    destruct (verseLoop _ _ _ _ _ _ _ _ _) as [[st1 tsvRecord1]|e] eqn:Hloop; [|done].
    intros [= <-].
    apply verseLoop_outcome in Hloop
        as [(_ & -> & _)|[[words Hcommit]|(cv & ro & Hcommit)]]; [| | |done].
    + split; [done|]. by left.
    + injection Hcommit as -> _. split; [done|]. right. left. by eexists.
    + injection Hcommit as -> _. split; [done|]. right. right. by eexists _, _.
Qed.

Lemma recordsLoop_counters tsvRecords st st' :
  recordsLoop tokenLookup book testament tsvRecords st = Ok st' →
  nRecords st' = nRecords st + length tsvRecords
  ∧ output st `prefix_of` output st'
  ∧ errors st `prefix_of` errors st'
  ∧ length (output st') ≤ length (output st) + length tsvRecords
  ∧ length (errors st') + length (List.filter isPassedThrough tsvRecords)
      + length (output st)
    ≤ length (output st') + length (errors st)
  ∧ (countersAgree st → countersAgree st').
Proof.
  revert st. induction tsvRecords as [|r tsvRecords IH]; intros st; cbn [recordsLoop].
  - intros [= <-]. simpl. split_and!; try done; lia.
  - destruct (processRecord tokenLookup book testament st r) as [st1|e] eqn:Hproc;
      cbn [mbind result_bind]; [|done].
    intros (Hn & Hout & Herr & Hlen & Hpass & Hagree)%IH.
    apply processRecord_step in Hproc as [Hn1 Hstep]. unfold countersAgree in *.
    cbn [List.filter length].
    destruct Hstep as [(Hr & Ho & He & Hp & Hf)
                      |[(row & Ho & He & Hf & Hp)|(row & msg & Hr & Ho & He & Hp & Hf)]];
      rewrite Ho, He in *; rewrite ?Hr in *; rewrite ?length_app in *; cbn [length] in *.
    all: split_and!;
      first [ lia | done | (etrans; [|done]; by apply prefix_app_r)
            | (destruct (isPassedThrough r); simpl in *; lia)
            | (destruct (isPassedThrough r); intros; apply Hagree; lia)
            | (intros; apply Hagree; lia) ].
Qed.

End Counters.

(** X13.  When the promise resolves there are at most as many output
    rows as input rows, and every error message and every pass-through
    row has an output row of its own: a pass-through row never adds an
    error message. *)
Theorem resolved_rows_and_errors `{Collaborators} tokenLookup book content out errs :
  tsv7_ult_quotes_to_origl_quotes tokenLookup book content = Resolved out errs →
  length out ≤ length (parseTsvToObjects content)
  ∧ length errs + length (List.filter isPassedThrough (parseTsvToObjects content))
    ≤ length out.
Proof.
  unfold tsv7_ult_quotes_to_origl_quotes.
  destruct (_ ≫= _) as [[|c t]|]; [done| |done].
  destruct (recordsLoop _ _ _ _ _) as [st|e] eqn:Hloop; [|done].
  intros [= <- <-].
  apply recordsLoop_counters in Hloop as (_ & _ & _ & Hlen & Hpass & _).
  simpl in Hlen, Hpass. lia.
Qed.

(** X14.  A table whose rows are all passed through resolves for a
    recognized book whatever the token index holds, even nothing: the
    output is the serialization of every row in order and there is no
    error. *)
Theorem pass_through_table `{Collaborators} tokenLookup book content c t :
  (BibleBookData !! toLowerCase book) ≫= testament = Some (c :: t) →
  Forall (λ r, isPassedThrough r = true) (parseTsvToObjects content) →
  tsv7_ult_quotes_to_origl_quotes tokenLookup book content
  = Resolved (map tsvRecordToString (parseTsvToObjects content)) [].
Proof.
  intros Htestament Hall. unfold tsv7_ult_quotes_to_origl_quotes. rewrite Htestament.
  assert (∀ st, recordsLoop tokenLookup book (c :: t) (parseTsvToObjects content) st
                = Ok {| output := output st ++ map tsvRecordToString
                                                 (parseTsvToObjects content);
                        errors := errors st;
                        nRecords := nRecords st + length (parseTsvToObjects content);
                        counts_pass := counts_pass st; counts_fail := counts_fail st |})
    as ->; [|done].
  induction Hall as [|r rows Hr _ IH]; intros st; cbn [recordsLoop].
  - destruct st. simpl. by rewrite app_nil_r, Nat.add_0_r.
  - rewrite processRecord_passed_through by done. cbn [mbind result_bind].
    rewrite IH. simpl. f_equal. rewrite <-(assoc_L (++)). f_equal. lia.
Qed.

(** ** The corpora a run reads *)

Section Frame.
Context `{Collaborators}.
Variables (tokenLookup1 tokenLookup2 : TokenLookup) (book testament : jsstring).
Hypothesis Hult : tokenLookup1 !! js "ult" = tokenLookup2 !! js "ult".
Hypothesis Hsource :
  tokenLookup1 !! sourceCorpus testament = tokenLookup2 !! sourceCorpus testament.

Lemma tryVerse_frame tsvRecord chapter verse :
  tryVerse tokenLookup1 book testament tsvRecord chapter verse
  = tryVerse tokenLookup2 book testament tsvRecord chapter verse.
Proof.
  unfold tryVerse. cbv zeta. rewrite Hult.
  assert ((if eqb testament (js "old") then tokenLookup1 !! js "uhb"
           else tokenLookup1 !! js "ugnt")
          = (if eqb testament (js "old") then tokenLookup2 !! js "uhb"
             else tokenLookup2 !! js "ugnt")) as ->; [|done].
  unfold sourceCorpus in Hsource. by destruct (eqb testament (js "old")).
Qed.

Lemma verseLoop_frame versesLength verseIdx chapter verses st tsvRecord :
  verseLoop tokenLookup1 book testament versesLength verseIdx chapter verses st tsvRecord
  = verseLoop tokenLookup2 book testament versesLength verseIdx chapter verses st tsvRecord.
Proof.
  revert verseIdx st tsvRecord.
  induction verses as [|verse verses IH]; intros verseIdx st tsvRecord; [done|].
  cbn [verseLoop]. rewrite tryVerse_frame.
  destruct (tryVerse tokenLookup2 _ _ _ _ _) as [[cv [ro|]]|e]; cbn [mbind result_bind];
    [|done..].
  destruct (hasData ro); [done|]. destruct (_ <? _); [done|].
  by destruct (commitFail book st tsvRecord cv ro).
Qed.

Lemma recordsLoop_frame tsvRecords st :
  recordsLoop tokenLookup1 book testament tsvRecords st
  = recordsLoop tokenLookup2 book testament tsvRecords st.
Proof.
  revert st. induction tsvRecords as [|r tsvRecords IH]; intros st; [done|].
  cbn [recordsLoop].
  assert (processRecord tokenLookup1 book testament st r
          = processRecord tokenLookup2 book testament st r) as ->.
  { unfold processRecord. cbv zeta. destruct (isPassedThrough r); [done|].
    destruct (tsv_quote r); [|done]. destruct (tsv_ref _); [|done].
    destruct (_ !! 1); [|done]. by rewrite verseLoop_frame. }
  destruct (processRecord tokenLookup2 book testament st r); [|done].
  cbn [mbind result_bind]. apply IH.
Qed.

End Frame.

(** X15.  A run reads two corpora of the index only, the gloss corpus
    [ult] and the original-language corpus of the book's testament ([uhb]
    for the old one, [ugnt] otherwise): two indexes that agree on these
    two settle the promise alike, whatever else they hold. *)
Theorem run_reads_two_corpora `{Collaborators} tokenLookup1 tokenLookup2 book content t :
  (BibleBookData !! toLowerCase book) ≫= testament = Some t →
  tokenLookup1 !! js "ult" = tokenLookup2 !! js "ult" →
  tokenLookup1 !! sourceCorpus t = tokenLookup2 !! sourceCorpus t →
  tsv7_ult_quotes_to_origl_quotes tokenLookup1 book content
  = tsv7_ult_quotes_to_origl_quotes tokenLookup2 book content.
Proof.
  intros Htestament Hult Hsource. unfold tsv7_ult_quotes_to_origl_quotes.
  rewrite Htestament. destruct t as [|c t]; [done|].
  by rewrite (recordsLoop_frame tokenLookup1 tokenLookup2 book (c :: t) Hult Hsource).
Qed.

(** ** The token index *)

Section Index.

(** A loop whose body, on an index that satisfies [I], either does
    [step] and keeps [I] (for a [good] item) or throws. *)
Lemma forEach_run {A} (body : A → TokenLookup → TokenLookup * option JsError)
    (I : TokenLookup → Prop) (good : A → bool) (step : A → TokenLookup → TokenLookup) :
  (∀ item tokenLookup, I tokenLookup →
     if good item
     then body item tokenLookup = (step item tokenLookup, None) ∧ I (step item tokenLookup)
     else is_Some (snd (body item tokenLookup))) →
  ∀ items tokenLookup, I tokenLookup →
    if forallb good items
    then forEach body items tokenLookup
         = (foldl (λ tokenLookup item, step item tokenLookup) tokenLookup items, None)
         ∧ I (foldl (λ tokenLookup item, step item tokenLookup) tokenLookup items)
    else is_Some (snd (forEach body items tokenLookup)).
Proof.
  intros Hbody items. induction items as [|item items IH]; intros tokenLookup HI.
  - done.
  - cbn [forallb forEach foldl]. specialize (Hbody item tokenLookup HI).
    destruct (good item); cbn [andb].
    + destruct Hbody as [-> HI']. by apply IH.
    + destruct (body item tokenLookup) as [tokenLookup' [e|]]; simpl in *;
        [by eexists|by destruct Hbody].
Qed.

Lemma foldl_alter `{Countable K} {V A} (f : A → V → V) (k : K) (items : list A)
    (m : gmap K V) :
  foldl (λ m item, alter (f item) k m) m items
  = alter (λ v, foldl (λ v item, f item v) v items) k m.
Proof.
  revert m. induction items as [|item items IH]; intros m; cbn [foldl].
  - symmetry. by apply alter_id.
  - rewrite IH. apply map_eq. intros j. destruct (decide (k = j)) as [<-|Hne].
    + rewrite !lookup_alter_eq. by destruct (m !! k).
    + by rewrite !lookup_alter_ne.
Qed.

Lemma insert_as_alter `{Countable K} {V} (f : V → V) (k : K) (v : V) (m : gmap K V) :
  m !! k = Some v → <[k := f v]> m = alter f k m.
Proof.
  intros Hk. apply map_eq. intros j. rewrite lookup_alter, lookup_insert.
  case_decide; [|done]. by rewrite Hk.
Qed.

Lemma forallb_true {A} (items : list A) : forallb (λ _, true) items = true.
Proof. by induction items. Qed.

Lemma withKeys_map {A} tokens (key : A → jsstring) items verses :
  foldl (λ verses item, <[key item := tokens]> verses) verses items
  = withKeys tokens (map key items) verses.
Proof.
  unfold withKeys. revert verses.
  induction items as [|item items IH]; intros verses; [done|]. apply IH.
Qed.

Section Book.
Variables abbr book : jsstring.

Lemma bookIndex_alter f tokenLookup :
  is_Some (bookIndex tokenLookup abbr book) →
  is_Some (bookIndex (alter (alter f book) abbr tokenLookup) abbr book).
Proof.
  unfold bookIndex. rewrite lookup_alter_eq.
  destruct (tokenLookup !! abbr) as [books|]; [|by intros [??]]. cbn.
  rewrite lookup_alter_eq. destruct (books !! book); [by eexists|by intros [??]].
Qed.

Lemma forEach_setVerse chapter tokens verses tokenLookup :
  is_Some (bookIndex tokenLookup abbr book) →
  forEach (setVerse abbr book chapter tokens) verses tokenLookup
  = (alter (alter (withKeys tokens
                     (map (λ verse, opt_toString chapter ++ js ":" ++ verse) verses))
              book) abbr tokenLookup, None).
Proof.
  intros Hslot.
  pose proof (forEach_run (setVerse abbr book chapter tokens)
                (λ tokenLookup, is_Some (bookIndex tokenLookup abbr book)) (λ _, true)
                (λ verse, alter (alter (<[opt_toString chapter ++ js ":" ++ verse := tokens]>)
                                   book) abbr)) as Hrun.
  cbv beta in Hrun. specialize (λ Hbody, Hrun Hbody verses tokenLookup Hslot).
  rewrite forallb_true in Hrun. destruct Hrun as [-> _].
  - clear Hslot. intros verse tl [verses' Hslot]. split; [|by apply bookIndex_alter].
    unfold bookIndex in Hslot. unfold setVerse. cbv zeta.
    destruct (tl !! abbr) as [books|] eqn:Habbr; [|done]. cbn in Hslot. rewrite Hslot.
    f_equal. rewrite <-(insert_as_alter _ _ books) by done. f_equal.
    by apply insert_as_alter.
  - f_equal. rewrite (foldl_alter (λ verse, alter _ book)).
    apply alter_ext. intros books _.
    rewrite (foldl_alter (λ verse, <[opt_toString chapter ++ js ":" ++ verse := tokens]>)).
    apply alter_ext. intros verses' _. apply withKeys_map.
Qed.

Lemma registerItemGroup_run itemGroup tokenLookup :
  is_Some (bookIndex tokenLookup abbr book) →
  if groupOk itemGroup
  then registerItemGroup abbr book itemGroup tokenLookup
       = (alter (alter (withKeys (ig_tokens itemGroup) (default [] (groupKeys itemGroup)))
                   book) abbr tokenLookup, None)
       ∧ is_Some (bookIndex
                    (alter (alter (withKeys (ig_tokens itemGroup)
                                     (default [] (groupKeys itemGroup))) book)
                       abbr tokenLookup) abbr book)
  else is_Some (snd (registerItemGroup abbr book itemGroup tokenLookup)).
Proof.
  intros Hslot. unfold registerItemGroup, groupKeys.
  destruct (scopeValue (js "chapter/") _) as [chapter|e]; [|by eexists].
  destruct (scopeValue (js "verses/") _) as [[verses|]|e]; [|by eexists..].
  rewrite bool_decide_eq_true_2 by by eexists. cbn [default].
  split; [by apply forEach_setVerse|by apply bookIndex_alter].
Qed.

Lemma forEach_registerItemGroup itemGroups tokenLookup :
  is_Some (bookIndex tokenLookup abbr book) →
  if forallb groupOk itemGroups
  then forEach (registerItemGroup abbr book) itemGroups tokenLookup
       = (alter (alter (withItemGroups itemGroups) book) abbr tokenLookup, None)
  else is_Some (snd (forEach (registerItemGroup abbr book) itemGroups tokenLookup)).
Proof.
  intros Hslot.
  pose proof (forEach_run (registerItemGroup abbr book)
                (λ tokenLookup, is_Some (bookIndex tokenLookup abbr book)) groupOk
                (λ itemGroup,
                   alter (alter (withKeys (ig_tokens itemGroup)
                                   (default [] (groupKeys itemGroup))) book) abbr)
                registerItemGroup_run itemGroups tokenLookup Hslot) as Hrun.
  destruct (forallb _ itemGroups); [|done]. destruct Hrun as [-> _]. f_equal.
  rewrite (foldl_alter (λ itemGroup, alter _ book)). apply alter_ext. intros books _.
  by rewrite (foldl_alter (λ itemGroup, withKeys (ig_tokens itemGroup)
                                         (default [] (groupKeys itemGroup)))).
Qed.

End Book.

Lemma registerDocument_run abbr document tokenLookup :
  is_Some (tokenLookup !! abbr) →
  if documentOk document
  then registerDocument abbr document tokenLookup
       = (alter (<[doc_book document := withItemGroups (doc_itemGroups document) ∅]>)
            abbr tokenLookup, None)
       ∧ is_Some (alter (<[doc_book document
                           := withItemGroups (doc_itemGroups document) ∅]>)
                    abbr tokenLookup !! abbr)
  else is_Some (snd (registerDocument abbr document tokenLookup)).
Proof.
  intros [books Hbooks]. unfold registerDocument. rewrite Hbooks.
  pose proof (forEach_registerItemGroup abbr (doc_book document) (doc_itemGroups document)
                (<[abbr := <[doc_book document := ∅]> books]> tokenLookup)) as Hrun.
  destruct (forallb _ (doc_itemGroups document)).
  - rewrite Hrun.
    + split; [|rewrite lookup_alter_eq, Hbooks; by eexists]. f_equal.
      rewrite !alter_insert_eq. by apply insert_as_alter.
    + unfold bookIndex. rewrite lookup_insert_eq. cbn. rewrite lookup_insert_eq.
      by eexists.
  - apply Hrun. unfold bookIndex. rewrite lookup_insert_eq. cbn.
    rewrite lookup_insert_eq. by eexists.
Qed.

Lemma registerDocSet_run docSet tokenLookup :
  if docSetOk docSet
  then registerDocSet docSet tokenLookup
       = (<[ds_abbr docSet := withDocuments (ds_documents docSet) ∅]> tokenLookup, None)
  else is_Some (snd (registerDocSet docSet tokenLookup)).
Proof.
  unfold registerDocSet.
  pose proof (forEach_run (registerDocument (ds_abbr docSet))
                (λ tokenLookup, is_Some (tokenLookup !! ds_abbr docSet)) documentOk
                (λ document,
                   alter (<[doc_book document
                            := withItemGroups (doc_itemGroups document) ∅]>)
                     (ds_abbr docSet))
                (registerDocument_run (ds_abbr docSet)) (ds_documents docSet)
                (<[ds_abbr docSet := ∅]> tokenLookup)) as Hrun.
  destruct (forallb _ (ds_documents docSet)).
  - destruct Hrun as [-> _]; [rewrite lookup_insert_eq; by eexists|]. f_equal.
    rewrite (foldl_alter (λ document, <[doc_book document
                                        := withItemGroups (doc_itemGroups document) ∅]>)).
    by rewrite alter_insert_eq.
  - apply Hrun. rewrite lookup_insert_eq. by eexists.
Qed.

Lemma forEach_registerDocSet docSets tokenLookup :
  if forallb docSetOk docSets
  then forEach registerDocSet docSets tokenLookup = (withDocSets docSets tokenLookup, None)
  else is_Some (snd (forEach registerDocSet docSets tokenLookup)).
Proof.
  pose proof (forEach_run registerDocSet (λ _, True) docSetOk
                (λ docSet, <[ds_abbr docSet := withDocuments (ds_documents docSet) ∅]>))
    as Hrun.
  cbv beta in Hrun. specialize (λ Hbody, Hrun Hbody docSets tokenLookup I).
  destruct (forallb _ docSets).
  - apply Hrun. intros docSet tl _. pose proof (registerDocSet_run docSet tl) as Hset.
    cbv beta in Hset. destruct (forallb _ (ds_documents docSet)); [by split|done].
  - apply Hrun. intros docSet tl _. pose proof (registerDocSet_run docSet tl) as Hset.
    cbv beta in Hset. destruct (forallb _ (ds_documents docSet)); [by split|done].
Qed.

(** The groups of a result that the loops accept are those with both
    labels. *)
Lemma filter_head_is_Some {A} (p : A → bool) (items : list A) :
  is_Some (List.filter p items !! 0) ↔ Exists (λ item, p item = true) items.
Proof.
  induction items as [|item items IH]; simpl.
  - rewrite Exists_nil. split; [by intros [??]|done].
  - rewrite Exists_cons. destruct (p item).
    + split; [by left|by eexists].
    + rewrite IH. split; [by right|by intros [?|?]].
Qed.

Lemma filter_head_elem {A} (p : A → bool) (items : list A) item :
  List.filter p items !! 0 = Some item → p item = true.
Proof.
  induction items as [|item' items IH]; simpl; [done|].
  destruct (p item') eqn:Hp; [|done]. by intros [= <-].
Qed.

Lemma split_on_second p pat post :
  Exists (λ c, p c = true) pat → is_Some (split_on p (pat ++ post) !! 1).
Proof.
  induction 1 as [c pat Hc|c pat _ IH]; simpl.
  - rewrite Hc. simpl. destruct (split_on p (pat ++ post)) eqn:Hsplit; [|by eexists].
    by apply split_on_nonempty in Hsplit.
  - destruct (p c); simpl.
    + destruct (split_on p (pat ++ post)) eqn:Hsplit; [|by eexists].
      by apply split_on_nonempty in Hsplit.
    + by destruct (split_on p (pat ++ post)) as [|piece [|piece' pieces]].
Qed.

Lemma scopeValue_is_Some (prefix : jsstring) scopeLabels :
  SLASH ∈ prefix →
  (∃ value, scopeValue prefix scopeLabels = Ok (Some value))
  ↔ Exists (λ label, startsWith prefix label = true) scopeLabels.
Proof.
  intros Hslash. rewrite <-filter_head_is_Some. unfold scopeValue.
  destruct (List.filter _ _ !! 0) as [label|] eqn:Hhead.
  - split; [by eexists|]. intros _.
    apply filter_head_elem, startsWith_spec in Hhead as [post ->].
    destruct (split_on_second (N.eqb SLASH) prefix post) as [value Hvalue].
    + apply Exists_exists. exists SLASH. split; [done|]. apply N.eqb_refl.
    + exists value. unfold split_char. by rewrite Hvalue.
  - split; [by intros [??]|by intros [??]].
Qed.

Lemma scopeValue_defined (prefix : jsstring) scopeLabels :
  SLASH ∈ prefix → scopeValue prefix scopeLabels ≠ Ok None.
Proof.
  intros Hslash Hnone.
  assert (Exists (λ label, startsWith prefix label = true) scopeLabels) as Hlabel.
  { apply filter_head_is_Some. unfold scopeValue in Hnone.
    destruct (List.filter _ _ !! 0); [by eexists|done]. }
  apply scopeValue_is_Some in Hlabel as [value Hvalue]; [congruence|done].
Qed.

Lemma groupKeys_labelled itemGroup : is_Some (groupKeys itemGroup) ↔ labelled itemGroup.
Proof.
  assert (SLASH ∈ js "chapter/") as Hchapter
    by (apply (bool_decide_unpack _); by vm_compute).
  assert (SLASH ∈ js "verses/") as Hverses
    by (apply (bool_decide_unpack _); by vm_compute).
  unfold labelled. rewrite <-!scopeValue_is_Some by done. unfold groupKeys.
  pose proof (scopeValue_defined _ (ig_scopeLabels itemGroup) Hchapter) as Hc.
  pose proof (scopeValue_defined _ (ig_scopeLabels itemGroup) Hverses) as Hv.
  destruct (scopeValue (js "chapter/") _) as [[chapter|]|e]; [|done|].
  - destruct (scopeValue (js "verses/") _) as [[verses|]|e]; [|done|].
    + split; [|by eexists]. intros _. split; by eexists.
    + split; [by intros [??]|]. by intros [_ [??]].
  - split; [by intros [??]|]. by intros [[??] _].
Qed.

Lemma groupsLabelled itemGroups :
  forallb groupOk itemGroups = true ↔ Forall labelled itemGroups.
Proof.
  induction itemGroups as [|itemGroup itemGroups IH]; cbn [forallb].
  - by split.
  - by rewrite andb_true_iff, IH, Forall_cons, bool_decide_eq_true, groupKeys_labelled.
Qed.

Lemma documentsLabelled documents :
  forallb documentOk documents = true
  ↔ Forall labelled (concat (map doc_itemGroups documents)).
Proof.
  induction documents as [|document documents IH]; cbn [forallb map concat].
  - by split.
  - by rewrite andb_true_iff, IH, Forall_app, groupsLabelled.
Qed.

Lemma allLabelled docSets :
  forallb docSetOk docSets = true ↔ Forall labelled (itemGroupsOf docSets).
Proof.
  unfold itemGroupsOf. induction docSets as [|docSet docSets IH]; cbn [forallb map concat].
  - by split.
  - by rewrite andb_true_iff, IH, map_app, concat_app, Forall_app, documentsLabelled.
Qed.

Lemma doAlignmentQuery_run result tokenLookup :
  qr_errors result = None →
  if forallb docSetOk (qr_docSets result)
  then doAlignmentQuery result tokenLookup = (withDocSets (qr_docSets result) ∅, None)
  else ∃ err, snd (doAlignmentQuery result tokenLookup) = Some (QueryThrew err).
Proof.
  intros Herrors. unfold doAlignmentQuery. rewrite Herrors.
  pose proof (forEach_registerDocSet (qr_docSets result) ∅) as Hrun.
  destruct (forallb _ (qr_docSets result)); [by rewrite Hrun|].
  destruct (forEach _ _ _) as [tl [err|]]; [by exists err|by destruct Hrun].
Qed.

(** What a lookup finds in an index that was built by insertions. *)
Lemma foldl_insert_lookup `{Countable K} {V A} (key : A → K) (val : A → V) items
    (m : gmap K V) k :
  foldl (λ m item, <[key item := val item]> m) m items !! k
  = from_option (λ item, Some (val item)) (m !! k)
      (last (filter (λ item, key item = k) items)).
Proof.
  induction items as [|item items IH] using rev_ind; [done|].
  rewrite foldl_snoc, lookup_insert, filter_app.
  destruct (decide (key item = k)) as [Hkey|Hkey].
  - by rewrite filter_cons_True, filter_nil, last_snoc.
  - by rewrite filter_cons_False, filter_nil, app_nil_r.
Qed.

Lemma withKeys_lookup tokens keys verses cv :
  withKeys tokens keys verses !! cv
  = if decide (cv ∈ keys) then Some tokens else verses !! cv.
Proof.
  unfold withKeys. induction keys as [|key keys IH] using rev_ind.
  - by rewrite decide_False by apply not_elem_of_nil.
  - rewrite foldl_snoc, lookup_insert. destruct (decide (key = cv)) as [->|Hkey].
    + rewrite decide_True; [done|]. apply elem_of_app. right.
      apply list_elem_of_here.
    + rewrite IH. destruct (decide (cv ∈ keys)) as [Hin|Hnotin].
      * rewrite decide_True; [done|]. apply elem_of_app. by left.
      * rewrite decide_False; [done|]. rewrite elem_of_app, list_elem_of_singleton.
        by intros [?|?].
Qed.

Lemma withItemGroups_lookup itemGroups verses cv :
  withItemGroups itemGroups verses !! cv
  = from_option (λ itemGroup, Some (ig_tokens itemGroup)) (verses !! cv)
      (last (filter (λ itemGroup, cv ∈ default [] (groupKeys itemGroup)) itemGroups)).
Proof.
  unfold withItemGroups. induction itemGroups as [|itemGroup itemGroups IH] using rev_ind;
    [done|].
  rewrite foldl_snoc, withKeys_lookup, filter_app.
  destruct (decide (cv ∈ default [] (groupKeys itemGroup))) as [Hkey|Hkey].
  - by rewrite filter_cons_True, filter_nil, last_snoc.
  - by rewrite filter_cons_False, filter_nil, app_nil_r.
Qed.

Lemma withDocSets_lookup docSets abbr book cv :
  indexLookup (withDocSets docSets ∅) abbr book cv = lastWriter docSets abbr book cv.
Proof.
  unfold indexLookup, bookIndex, lastWriter, withDocSets.
  rewrite (foldl_insert_lookup ds_abbr (λ docSet, withDocuments (ds_documents docSet) ∅)).
  rewrite lookup_empty.
  destruct (last (filter _ docSets)) as [docSet|]; [|done]. cbn. unfold withDocuments.
  rewrite (foldl_insert_lookup doc_book
             (λ document, withItemGroups (doc_itemGroups document) ∅)).
  rewrite lookup_empty.
  destruct (last (filter _ (ds_documents docSet))) as [document|]; [|done]. cbn.
  rewrite withItemGroups_lookup, lookup_empty.
  by destruct (last (filter _ (doc_itemGroups document))).
Qed.

(** X16.  When the query has no errors and every item group has a
    chapter label and a verses label, the index is rebuilt without
    exception, from nothing, and a lookup by corpus, book and verse finds
    the tokens of the last writer: the last docSet of that corpus, its
    last document of that book, its last item group registered under that
    verse. *)
Theorem doAlignmentQuery_last_writer result tokenLookup :
  qr_errors result = None →
  Forall labelled (itemGroupsOf (qr_docSets result)) →
  ∃ tokenLookup',
    doAlignmentQuery result tokenLookup = (tokenLookup', None)
    ∧ ∀ abbr book cv,
        indexLookup tokenLookup' abbr book cv = lastWriter (qr_docSets result) abbr book cv.
Proof.
  intros Herrors Hlabelled%allLabelled.
  pose proof (doAlignmentQuery_run result tokenLookup Herrors) as Hrun.
  rewrite Hlabelled in Hrun. eexists. split; [done|]. apply withDocSets_lookup.
Qed.

(** X17.  The call fails exactly when the query reports errors or some
    item group lacks a chapter label or a verses label. *)
Theorem doAlignmentQuery_fails_iff result tokenLookup :
  is_Some (snd (doAlignmentQuery result tokenLookup))
  ↔ is_Some (qr_errors result)
    ∨ Exists (λ itemGroup, ¬ labelled itemGroup) (itemGroupsOf (qr_docSets result)).
Proof.
  destruct (qr_errors result) as [errors|] eqn:Herrors.
  - unfold doAlignmentQuery. rewrite Herrors. split; [by left|by eexists].
  - pose proof (doAlignmentQuery_run result tokenLookup Herrors) as Hrun.
    destruct (forallb _ (qr_docSets result)) eqn:Hall.
    + rewrite Hrun. apply allLabelled in Hall. split; [by intros [??]|].
      intros [[??]|Hbad]; [done|]. apply Exists_exists in Hbad as (ig & Hin & Hbad).
      destruct Hbad. by eapply Forall_forall.
    + destruct Hrun as [err ->]. split; [|by eexists]. intros _. right.
      apply not_Forall_Exists; [intros ig|]. 
      * destruct (decide (is_Some (groupKeys ig))) as [Hsome|Hnone];
          [left|right]; by rewrite <-groupKeys_labelled.
      * intros Hlabelled%allLabelled. congruence.
Qed.

End Index.

(** ** Item groups and the rows that read them *)

Section IndexKeys.

Lemma scopeValue_first (prefix : jsstring) stem value scopeLabels :
  prefix = stem ++ [SLASH] → SLASH ∉ stem → SLASH ∉ value →
  scopeValue prefix ((prefix ++ value) :: scopeLabels) = Ok (Some value).
Proof.
  intros -> Hstem Hvalue. unfold scopeValue. cbn [List.filter].
  rewrite startsWith_app. cbn [lookup list_lookup]. unfold split_char.
  rewrite <-(assoc_L (++)). cbn [app]. rewrite split_on_app.
  - rewrite split_on_none; [done|]. intros c Hc. apply N.eqb_neq. by intros <-.
  - intros c Hc. apply N.eqb_neq. by intros <-.
  - apply N.eqb_refl.
Qed.

(** X18.  An item group labelled [chapter/c] and [verses/v1-...-vn] is
    registered under the keys [c:v1], ..., [c:vn], one for each piece of
    the verses label between hyphens, and under no other key: a bridge
    over three verses or more is found under its two ends only. *)
Theorem registerItemGroup_keys abbr book chapter pieces tokens verses tokenLookup :
  SLASH ∉ chapter →
  pieces ≠ [] →
  Forall (λ piece, (SLASH ∉ piece) ∧ (HYPHEN ∉ piece)) pieces →
  bookIndex tokenLookup abbr book = Some verses →
  ∃ tokenLookup',
    registerItemGroup abbr book
      {| ig_scopeLabels := [js "chapter/" ++ chapter; js "verses/" ++ join [HYPHEN] pieces];
         ig_tokens := tokens |} tokenLookup
    = (tokenLookup', None)
    ∧ ∀ cv, indexLookup tokenLookup' abbr book cv
            = if decide (cv ∈ map (λ piece, chapter ++ js ":" ++ piece) pieces)
              then Some tokens else verses !! cv.
Proof.
  intros Hchapter Hne Hpieces Hslot.
  assert (SLASH ∉ join [HYPHEN] pieces) as Hjoin.
  { intros [Hsep|(piece & Hpiece & Hin)]%join_elem.
    - by apply list_elem_of_singleton in Hsep.
    - by destruct (proj1 (Forall_forall _ _) Hpieces piece Hpiece) as [? _]. }
  unfold registerItemGroup. cbn [ig_scopeLabels ig_tokens].
  rewrite (scopeValue_first (js "chapter/") (js "chapter") chapter); [|done| |done].
  2: { apply (bool_decide_unpack _). by vm_compute. }
  assert (scopeValue (js "verses/")
            [js "chapter/" ++ chapter; js "verses/" ++ join [HYPHEN] pieces]
          = scopeValue (js "verses/") [js "verses/" ++ join [HYPHEN] pieces]) as -> by done.
  rewrite (scopeValue_first (js "verses/") (js "verses") (join [HYPHEN] pieces));
    [|done| |done].
  2: { apply (bool_decide_unpack _). by vm_compute. }
  rewrite forEach_setVerse by (by rewrite Hslot). eexists. split; [done|].
  intros cv. unfold split_char. rewrite split_on_join; [|done|apply N.eqb_refl|].
  2: { eapply Forall_impl; [done|]. intros piece [_ Hhyphen] c Hc. apply N.eqb_neq.
       by intros <-. }
  unfold indexLookup, bookIndex in *. rewrite lookup_alter_eq.
  destruct (tokenLookup !! abbr) as [books|]; [|done]. cbn in Hslot |- *.
  rewrite lookup_alter_eq, Hslot. cbn. apply withKeys_lookup.
Qed.

End IndexKeys.

Section IndexThenProcess.
Context `{Collaborators}.

Lemma verseTokens_indexLookup tokenLookup book testament cv :
  is_Some (indexLookup tokenLookup (sourceCorpus testament) (toUpperCase book) cv) →
  is_Some (indexLookup tokenLookup (js "ult") (toUpperCase book) cv) →
  is_Some (verseTokens tokenLookup book testament cv).
Proof.
  unfold indexLookup, bookIndex, verseTokens. intros [sourceTokens Hsource] [tokens Hult].
  destruct (tokenLookup !! sourceCorpus testament ≫= _) as [sourceBook|]; [|done].
  cbn in Hsource |- *. rewrite Hsource. cbn.
  destruct (tokenLookup !! js "ult" ≫= _) as [ultBook|]; [|done].
  cbn in Hult |- *. rewrite Hult. by eexists.
Qed.

(** X19.  Index, then resolve: after a query without errors whose item
    groups all have both labels, a processed row is processed without
    exception when each of its candidate verses has a writer in the gloss
    corpus and in the original-language corpus of the testament, under
    the upper-cased book; with a candidate verse at all, one row is
    emitted for it. *)
Theorem indexed_row_is_processed result tokenLookup book testament st tsvRecord ref
    chapter verseRef more :
  qr_errors result = None →
  Forall labelled (itemGroupsOf (qr_docSets result)) →
  isPassedThrough tsvRecord = false →
  tsv_ref tsvRecord = Some ref →
  split_char COLON ref = chapter :: verseRef :: more →
  Forall (λ verse,
            is_Some (lastWriter (qr_docSets result) (sourceCorpus testament)
                       (toUpperCase book) (chapter ++ js ":" ++ num_toString verse))
            ∧ is_Some (lastWriter (qr_docSets result) (js "ult") (toUpperCase book)
                         (chapter ++ js ":" ++ num_toString verse)))
    (expandVerses verseRef) →
  ∃ st', processRecord (doAlignmentQuery result tokenLookup).1 book testament st tsvRecord
         = Ok st'
         ∧ (expandVerses verseRef ≠ [] → ∃ row, output st' = output st ++ [row]).
Proof.
  intros Herrors Hlabelled%allLabelled Hpass Href Hsplit Hverses.
  pose proof (doAlignmentQuery_run result tokenLookup Herrors) as Hrun.
  rewrite Hlabelled in Hrun. rewrite Hrun. cbn [fst].
  destruct (isPassedThrough_false _ Hpass) as (ref' & quote & _ & _ & Hquote & _).
  destruct (verseLoop_indexed (withDocSets (qr_docSets result) ∅) book testament
              (length (expandVerses verseRef)) 0 chapter (expandVerses verseRef)
              {| output := output st; errors := errors st; nRecords := S (nRecords st);
                 counts_pass := counts_pass st; counts_fail := counts_fail st |}
              (set_quote tsvRecord (replace_first QUOTE_NOT_FOUND [] quote))
              (replace_first QUOTE_NOT_FOUND [] quote))
    as (st' & tsvRecord' & Hloop); [done|done|by eapply processed_quote_paseq| |].
  - eapply Forall_impl; [done|]. intros verse [Hsource Hult].
    apply verseTokens_indexLookup; by rewrite withDocSets_lookup.
  - exists st'. by eapply processRecord_of_verseLoop.
Qed.

End IndexThenProcess.

(** ** The theorems on the example index *)

(** The index that the loops build from the example query result is the
    example index. *)
Example doAlignmentQuery_example :
  doAlignmentQuery Example.queryResult ∅ = (Example.lookup, None).
Proof. vm_compute. done. Qed.

(** A bridge over Matthew 5:3-5 leaves 5:4 out of the index. *)
Example registerItemGroup_bridge_example :
  let tokenLookup :=
    (registerItemGroup (js "ult") (js "MAT")
       (mkItemGroup [js "chapter/5"; js "verses/3-5"] [Example.wordToken (js "Blessed") []])
       {[ js "ult" := {[ js "MAT" := ∅ ]} ]}).1 in
  indexLookup tokenLookup (js "ult") (js "MAT") (js "5:3")
  = Some [Example.wordToken (js "Blessed") []]
  ∧ indexLookup tokenLookup (js "ult") (js "MAT") (js "5:4") = None
  ∧ indexLookup tokenLookup (js "ult") (js "MAT") (js "5:5")
    = Some [Example.wordToken (js "Blessed") []].
Proof. vm_compute. done. Qed.

Lemma intermediateSearchList_words_clean_witness :
  word (mkTriple (js "poor") false None) ≠ [PASEQ]
  ∧ alignment (mkTriple (js "poor") false None) = None
  ∧ ∀ c, c ∈ word (mkTriple (js "poor") false None) →
         c ∈ js "the poor" ∧ isWordSeparator c = false
         ∧ isSentencePunctuation c = false ∧ c ≠ ELLIPSIS.
Proof.
  apply (intermediateSearchList_words_clean (js "the poor") (mkTriple (js "poor") false None)).
  vm_compute. apply list_elem_of_further, list_elem_of_here.
Defined.

Lemma searchULTWordRecords_matched_witness :
  ∃ i, matchesAt [mkGLToken (js "the") [Example.aligned (js "hoi")];
                  mkGLToken (js "poor") [Example.aligned (js "ptochoi")]]
         (intermediateSearchList (js "the poor")) i
       ∧ (∀ j, j < i →
            ¬ matchesAt [mkGLToken (js "the") [Example.aligned (js "hoi")];
                         mkGLToken (js "poor") [Example.aligned (js "ptochoi")]]
                (intermediateSearchList (js "the poor")) j)
       ∧ ∀ k, [mkTriple (js "the") false (Some [Example.aligned (js "hoi")]);
               mkTriple (js "poor") false (Some [Example.aligned (js "ptochoi")])] !! k
              = matchedTriple [mkGLToken (js "the") [Example.aligned (js "hoi")];
                               mkGLToken (js "poor") [Example.aligned (js "ptochoi")]]
                  (i + k)
                <$> intermediateSearchList (js "the poor") !! k.
Proof.
  apply (searchULTWordRecords_matched (js "the poor")); [vm_compute; reflexivity|done].
Defined.

Lemma searchULTWordRecords_first_occurrence_witness :
  ∃ i l, searchULTWordRecords (js "the poor")
           (Some [mkGLToken (js "Blessed") []; mkGLToken (js "are") [];
                  mkGLToken (js "the") [Example.aligned (js "hoi")];
                  mkGLToken (js "poor") [Example.aligned (js "ptochoi")]]) = Ok l
         ∧ i ≤ 2
         ∧ fullMatchAt [mkGLToken (js "Blessed") []; mkGLToken (js "are") [];
                        mkGLToken (js "the") [Example.aligned (js "hoi")];
                        mkGLToken (js "poor") [Example.aligned (js "ptochoi")]]
             (intermediateSearchList (js "the poor")) i
         ∧ (∀ j', j' < i →
              ¬ fullMatchAt [mkGLToken (js "Blessed") []; mkGLToken (js "are") [];
                             mkGLToken (js "the") [Example.aligned (js "hoi")];
                             mkGLToken (js "poor") [Example.aligned (js "ptochoi")]]
                  (intermediateSearchList (js "the poor")) j')
         ∧ length l = length (intermediateSearchList (js "the poor"))
         ∧ ∀ k w, intermediateSearchList (js "the poor") !! k = Some w →
                  ∃ t, [mkGLToken (js "Blessed") []; mkGLToken (js "are") [];
                        mkGLToken (js "the") [Example.aligned (js "hoi")];
                        mkGLToken (js "poor") [Example.aligned (js "ptochoi")]] !! (i + k)
                       = Some t
                       ∧ l !! k = Some (mkTriple (word w) (followsEllipsis w)
                                          (Some (gl_scopes t))).
Proof.
  apply (searchULTWordRecords_first_occurrence (js "the poor") _
           (mkTriple (js "the") false None) 2); [vm_compute; reflexivity|].
  intros [|[|k]] w Hw; vm_compute in Hw; [| |discriminate Hw];
    injection Hw as <-; eexists; (split; [reflexivity|vm_compute; reflexivity]).
Defined.

Lemma origLFromGLQuote_complete_witness :
  ∃ words,
    origLFromGLQuote (js "MAT") (js "5:4")
      (Some [Example.wordToken (js "makarioi") []; Example.wordToken (js "hoi") [];
             Example.wordToken (js "ptochoi") []])
      (Some [mkGLToken (js "the") [Example.aligned (js "hoi")];
             mkGLToken (js "poor") [Example.aligned (js "ptochoi")]])
      (js "the poor") (js "1") true
    = Ok {| data := Some words; error := None |}
    ∧ js "ptochoi" ∈ words.
Proof.
  apply (origLFromGLQuote_complete (js "MAT") (js "5:4") _ _ (js "the poor") (js "1") true
           [mkTriple (js "the") false (Some [Example.aligned (js "hoi")]);
            mkTriple (js "poor") false (Some [Example.aligned (js "ptochoi")])]
           (js "ptochoi")
           (mkTriple (js "poor") false (Some [Example.aligned (js "ptochoi")]))
           [Example.aligned (js "ptochoi")] (Example.aligned (js "ptochoi"))).
  - vm_compute. reflexivity.
  - vm_compute. apply list_elem_of_further, list_elem_of_further, list_elem_of_here.
  - apply list_elem_of_further, list_elem_of_here.
  - reflexivity.
  - left. reflexivity.
  - apply list_elem_of_here.
  - exists (js "attribute/milestone/zaln/x-align/0"), (js "1:1"). vm_compute. reflexivity.
Defined.

Lemma origLQuoteWords_well_shaped_set_witness :
  origLQuoteWords [js "makarioi"; js "hoi"; js "ptochoi"]
    [mkTriple (js "the") false (Some [Example.aligned (js "hoi")]);
     mkTriple (js "poor") false (Some [Example.aligned (js "ptochoi")])]
  = origLQuoteWords [js "makarioi"; js "hoi"; js "ptochoi"]
      [mkTriple (js "poor") false (Some [Example.aligned (js "ptochoi")]);
       mkTriple (js "the") false (Some [Example.aligned (js "hoi")]);
       mkTriple (js "in") false None]
  ∧ origLQuoteWords [js "makarioi"; js "hoi"; js "ptochoi"]
      [mkTriple (js "the") false (Some [Example.aligned (js "hoi")]);
       mkTriple (js "poor") false (Some [Example.aligned (js "ptochoi")])]
    = origLQuoteWords [js "makarioi"; js "hoi"; js "ptochoi"]
        (List.filter wellShaped
           [mkTriple (js "the") false (Some [Example.aligned (js "hoi")]);
            mkTriple (js "poor") false (Some [Example.aligned (js "ptochoi")])])
  ∧ sublist (origLQuoteWords [js "makarioi"; js "hoi"; js "ptochoi"]
               [mkTriple (js "the") false (Some [Example.aligned (js "hoi")]);
                mkTriple (js "poor") false (Some [Example.aligned (js "ptochoi")])])
      [js "makarioi"; js "hoi"; js "ptochoi"].
Proof.
  apply origLQuoteWords_well_shaped_set.
  intros t Hshape. rewrite !elem_of_cons, !elem_of_nil.
  split; [intros [->|[->|[]]]; auto|intros [->|[->|[->|[]]]]; auto].
  vm_compute in Hshape. discriminate Hshape.
Defined.

Lemma getTidiedData_plain_witness :
  getTidiedData [js "hoi"; js "ptochoi"] = join [SPACE] [js "hoi"; js "ptochoi"].
Proof.
  apply getTidiedData_plain. apply (bool_decide_unpack _). vm_compute. exact I.
Defined.

Lemma getTidiedData_first_ellipsis_witness :
  getTidiedData [js "makarioi"; [ELLIPSIS]; js "praeis"]
  = js "makarioi" ++ js " & " ++ js "praeis".
Proof.
  apply (getTidiedData_first_ellipsis _ (js "makarioi") [SPACE] [SPACE] (js "praeis")).
  - vm_compute. reflexivity.
  - apply (bool_decide_unpack _). vm_compute. exact I.
  - intros c Hc. vm_compute in Hc. injection Hc as <-. reflexivity.
  - repeat constructor.
  - repeat constructor.
  - intros c Hc. vm_compute in Hc. injection Hc as <-. reflexivity.
Defined.

Lemma expandVerses_specs_witness :
  expandVerses (join [COMMA] (map verseSpecString [OneVerse 3; VerseRange 5 7]))
  = concat (map verseSpecVerses [OneVerse 3; VerseRange 5 7]).
Proof.
  apply expandVerses_specs.
  - discriminate.
  - repeat constructor.
  - vm_compute. reflexivity.
Defined.

Lemma tryVerse_indexed_witness :
  ∃ ro, tryVerse Example.lookup (js "MAT") (js "new")
          (set_quote (Example.parseRow (Example.row (js "5:4") (js "the poor") (js "1")))
             (replace_first QUOTE_NOT_FOUND [] (js "the poor")))
          (js "5") (Some 4%Z)
        = Ok (js "5" ++ js ":" ++ num_toString (Some 4%Z), Some ro)
        ∧ dataOrError ro.
Proof.
  apply (tryVerse_indexed Example.lookup (js "MAT") (js "new") _ (js "5") (Some 4%Z)
           (js "the poor") (Example.tokensAt (js "ugnt") (js "5:4"))
           (Example.tokensAt (js "ult") (js "5:4"))); vm_compute; reflexivity.
Defined.

Lemma processRecord_indexed_witness :
  ∃ st', processRecord Example.lookup (js "MAT") (js "new") initialState
           (Example.parseRow (Example.row (js "5:3-4") (js "the poor") (js "1"))) = Ok st'
         ∧ (expandVerses (js "3-4") ≠ [] →
            ∃ row, output st' = output initialState ++ [row]).
Proof.
  apply (processRecord_indexed Example.lookup (js "MAT") (js "new") initialState _
           (js "5:3-4") (js "5") (js "3-4") []).
  - vm_compute. reflexivity.
  - vm_compute. reflexivity.
  - vm_compute. reflexivity.
  - apply (bool_decide_unpack _). vm_compute. exact I.
Defined.

Lemma resolved_rows_and_errors_witness :
  length [Example.row (js "5:4") (js "hoi ptochoi") (js "1")]
  ≤ length (parseTsvToObjects (Example.row (js "5:4") (js "the poor") (js "1")))
  ∧ length (@nil jsstring)
    + length (List.filter isPassedThrough
                (parseTsvToObjects (Example.row (js "5:4") (js "the poor") (js "1"))))
    ≤ length [Example.row (js "5:4") (js "hoi ptochoi") (js "1")].
Proof.
  apply (resolved_rows_and_errors Example.lookup (js "MAT")). vm_compute. reflexivity.
Defined.

Lemma pass_through_table_witness :
  tsv7_ult_quotes_to_origl_quotes ∅ (js "MAT")
    (Example.row (js "Reference") (js "Quote") (js "Occurrence"))
  = Resolved (map tsvRecordToString
                (parseTsvToObjects
                   (Example.row (js "Reference") (js "Quote") (js "Occurrence")))) [].
Proof.
  apply (pass_through_table ∅ (js "MAT") _ 110%N (js "ew")).
  - vm_compute. reflexivity.
  - repeat constructor.
Defined.

Lemma run_reads_two_corpora_witness :
  tsv7_ult_quotes_to_origl_quotes Example.lookup (js "MAT")
    (Example.row (js "5:4") (js "the poor") (js "1"))
  = tsv7_ult_quotes_to_origl_quotes (<[js "uhb" := ∅]> Example.lookup) (js "MAT")
      (Example.row (js "5:4") (js "the poor") (js "1")).
Proof.
  apply (run_reads_two_corpora _ _ (js "MAT") _ (js "new")); vm_compute; reflexivity.
Defined.

Lemma doAlignmentQuery_last_writer_witness :
  ∃ tokenLookup',
    doAlignmentQuery Example.queryResult Example.lookupAmpersand = (tokenLookup', None)
    ∧ ∀ abbr book cv,
        indexLookup tokenLookup' abbr book cv
        = lastWriter (qr_docSets Example.queryResult) abbr book cv.
Proof.
  apply doAlignmentQuery_last_writer; [reflexivity|].
  apply allLabelled. vm_compute. reflexivity.
Defined.

Lemma registerItemGroup_keys_witness :
  ∃ tokenLookup',
    registerItemGroup (js "ult") (js "MAT")
      {| ig_scopeLabels := [js "chapter/" ++ js "5";
                            js "verses/" ++ join [HYPHEN] [js "3"; js "5"]];
         ig_tokens := [Example.wordToken (js "Blessed") []] |}
      {[ js "ult" := {[ js "MAT" := ∅ ]} ]}
    = (tokenLookup', None)
    ∧ ∀ cv, indexLookup tokenLookup' (js "ult") (js "MAT") cv
            = if decide (cv ∈ map (λ piece, js "5" ++ js ":" ++ piece) [js "3"; js "5"])
              then Some [Example.wordToken (js "Blessed") []]
              else (∅ : gmap jsstring (list Token)) !! cv.
Proof.
  apply registerItemGroup_keys.
  - apply (bool_decide_unpack _). vm_compute. exact I.
  - discriminate.
  - apply (bool_decide_unpack _). vm_compute. exact I.
  - vm_compute. reflexivity.
Defined.

Lemma indexed_row_is_processed_witness :
  ∃ st', processRecord (doAlignmentQuery Example.queryResult ∅).1 (js "MAT") (js "new")
           initialState
           (Example.parseRow (Example.row (js "5:3-4") (js "the poor") (js "1"))) = Ok st'
         ∧ (expandVerses (js "3-4") ≠ [] →
            ∃ row, output st' = output initialState ++ [row]).
Proof.
  apply (indexed_row_is_processed Example.queryResult ∅ (js "MAT") (js "new") initialState _
           (js "5:3-4") (js "5") (js "3-4") []).
  - reflexivity.
  - apply allLabelled. vm_compute. reflexivity.
  - vm_compute. reflexivity.
  - vm_compute. reflexivity.
  - vm_compute. reflexivity.
  - apply (bool_decide_unpack _). vm_compute. exact I.
Defined.

(** ** The ellipsis flag *)

Section EllipsisFlag.
Implicit Types (ULTTokens : list GLToken) (searchList : list MatchTriple).

Lemma sameWords_lookup searchList1 searchList2 k :
  sameWords searchList1 searchList2 →
  match searchList1 !! k, searchList2 !! k with
  | Some w1, Some w2 => word w1 = word w2 ∧ alignment w1 = alignment w2
  | None, None => True
  | _, _ => False
  end.
Proof.
  unfold sameWords. intros Hsame. apply (f_equal (λ l, l !! k)) in Hsame.
  change (map ?f ?l) with (f <$> l) in Hsame. rewrite !list_lookup_fmap in Hsame.
  destruct (searchList1 !! k), (searchList2 !! k); simpl in Hsame; try done.
  by injection Hsame.
Qed.

Lemma compareFollowing_words fuel ULTTokens searchList1 searchList2 ultIndex searchIndex :
  sameWords searchList1 searchList2 →
  compareFollowing fuel ULTTokens searchList1 ultIndex searchIndex
  = compareFollowing fuel ULTTokens searchList2 ultIndex searchIndex.
Proof.
  intros Hsame. revert ultIndex searchIndex.
  induction fuel as [|fuel IH]; intros ultIndex searchIndex; [done|]. cbn [compareFollowing].
  destruct (ULTTokens !! ultIndex) as [t|]; [|done].
  pose proof (sameWords_lookup _ _ searchIndex Hsame) as Hk.
  destruct (searchList1 !! searchIndex) as [w1|], (searchList2 !! searchIndex) as [w2|];
    try done.
  destruct Hk as [-> _]. by rewrite IH.
Qed.

Lemma findStart_words fuel firstWord ULTTokens searchList1 searchList2 startULTIndex :
  sameWords searchList1 searchList2 →
  findStart fuel firstWord ULTTokens searchList1 startULTIndex
  = findStart fuel firstWord ULTTokens searchList2 startULTIndex.
Proof.
  intros Hsame. revert startULTIndex.
  induction fuel as [|fuel IH]; intros startULTIndex; [done|]. cbn [findStart].
  destruct (getFirstWordIndex _ _ _) as [i|]; [|done].
  by rewrite (compareFollowing_words _ _ _ searchList2), IH.
Qed.

Lemma addScopes_words fuel ULTTokens searchList1 searchList2 startULTIndex searchIndex :
  sameWords searchList1 searchList2 →
  sameWords (addScopes fuel ULTTokens searchList1 startULTIndex searchIndex)
    (addScopes fuel ULTTokens searchList2 startULTIndex searchIndex).
Proof.
  revert searchList1 searchList2 startULTIndex searchIndex.
  induction fuel as [|fuel IH];
    intros searchList1 searchList2 startULTIndex searchIndex Hsame; [done|].
  cbn [addScopes]. destruct (ULTTokens !! startULTIndex) as [t|]; [|done].
  pose proof (sameWords_lookup _ _ searchIndex Hsame) as Hk.
  destruct (searchList1 !! searchIndex) as [w1|], (searchList2 !! searchIndex) as [w2|];
    try done.
  destruct Hk as [Hword _]. apply IH. unfold sameWords in *.
  change (map ?f ?l) with (f <$> l) in *. rewrite !list_fmap_insert. cbn [push_scopes word alignment].
  by rewrite Hword, Hsame.
Qed.

(** X20.  The matcher never reads the ellipsis flag: two search strings
    with the same search words, such as a phrase with an ellipsis and the
    same phrase with a space in its place, are matched alike, at the same
    contiguous tokens and with the same scopes.  An ellipsis in a search
    string does not let the match skip tokens. *)
Theorem searchULTWordRecords_ignores_ellipsis_flag ULTSearchString1 ULTSearchString2
    (ULTTokens : option (list GLToken)) :
  map word (intermediateSearchList ULTSearchString1)
  = map word (intermediateSearchList ULTSearchString2) →
  map (λ t, (word t, alignment t)) <$> searchULTWordRecords ULTSearchString1 ULTTokens
  = map (λ t, (word t, alignment t)) <$> searchULTWordRecords ULTSearchString2 ULTTokens.
Proof.
  intros Hwords.
  assert (sameWords (intermediateSearchList ULTSearchString1)
            (intermediateSearchList ULTSearchString2)) as Hsame.
  { unfold sameWords. apply list_eq. intros k. apply (f_equal (λ l, l !! k)) in Hwords.
    change (map ?f ?l) with (f <$> l) in *. rewrite !list_lookup_fmap in *.
    destruct (intermediateSearchList ULTSearchString1 !! k) as [w1|] eqn:Hw1,
             (intermediateSearchList ULTSearchString2 !! k) as [w2|] eqn:Hw2;
      simpl in *; try done.
    apply intermediateSearchList_lookup_alignment in Hw1, Hw2. congruence. }
  unfold searchULTWordRecords. cbv zeta.
  pose proof (sameWords_lookup _ _ 0 Hsame) as Hfirst.
  destruct (intermediateSearchList ULTSearchString1 !! 0) as [first1|],
           (intermediateSearchList ULTSearchString2 !! 0) as [first2|]; try done.
  destruct Hfirst as [-> _]. destruct ULTTokens as [tokens|]; [|done].
  rewrite (findStart_words _ _ _ _ (intermediateSearchList ULTSearchString2)) by done.
  destruct (findStart _ _ _ _ _) as [i|]; [|done]. cbn [fmap result_fmap]. f_equal.
  by apply addScopes_words.
Qed.

End EllipsisFlag.

Lemma searchULTWordRecords_ignores_ellipsis_flag_witness :
  map (λ t, (word t, alignment t))
    <$> searchULTWordRecords (js "the" ++ [ELLIPSIS] ++ js "poor")
          (Some [mkGLToken (js "the") [Example.aligned (js "hoi")];
                 mkGLToken (js "poor") [Example.aligned (js "ptochoi")]])
  = map (λ t, (word t, alignment t))
      <$> searchULTWordRecords (js "the poor")
            (Some [mkGLToken (js "the") [Example.aligned (js "hoi")];
                   mkGLToken (js "poor") [Example.aligned (js "ptochoi")]]).
Proof.
  apply searchULTWordRecords_ignores_ellipsis_flag. vm_compute. reflexivity.
Defined.

(** ** The index and the test that guards the query *)

Section Stale.
Context `{Collaborators}.

Lemma withDocSets_book docSets abbr book :
  is_Some (bookIndex (withDocSets docSets ∅) abbr book) ↔ hasDocument docSets abbr book.
Proof.
  unfold bookIndex, hasDocument, withDocSets.
  rewrite (foldl_insert_lookup ds_abbr (λ docSet, withDocuments (ds_documents docSet) ∅)).
  rewrite lookup_empty.
  destruct (last (filter _ docSets)) as [docSet|]; cbn.
  - unfold withDocuments.
    rewrite (foldl_insert_lookup doc_book
               (λ document, withItemGroups (doc_itemGroups document) ∅)).
    rewrite lookup_empty. split.
    + intros Hsome. exists docSet. split; [done|].
      destruct (last (filter _ (ds_documents docSet))) as [document|] eqn:Hlast;
        [|by destruct Hsome].
      apply last_Some_elem_of, list_elem_of_filter in Hlast as [Hbook Hin].
      apply Exists_exists. by exists document.
    + intros (docSet' & [= <-] & Hdoc). apply Exists_exists in Hdoc as (document & Hin & Hbook).
      destruct (last (filter _ (ds_documents docSet))) as [document'|] eqn:Hlast;
        [by eexists|].
      apply last_None in Hlast.
      assert (document ∈ filter (λ d, doc_book d = book) (ds_documents docSet)) as Hfilter
        by by apply list_elem_of_filter.
      rewrite Hlast in Hfilter. by apply elem_of_nil in Hfilter.
  - split; [by intros [??]|]. by intros (docSet & ? & _).
Qed.

(** X21.  After a query without errors whose item groups all have both
    labels, the test of line 293 finds the index complete for a book
    exactly when the last docSet of the gloss corpus and the last docSet
    of the testament's original-language corpus each hold a document of
    the upper-cased book; otherwise the next call queries again. *)
Theorem index_complete_after_query result tokenLookup book testament :
  qr_errors result = None →
  Forall labelled (itemGroupsOf (qr_docSets result)) →
  indexStale (doAlignmentQuery result tokenLookup).1 book (Some testament) = false
  ↔ hasDocument (qr_docSets result) (js "ult") (toUpperCase book)
    ∧ hasDocument (qr_docSets result) (sourceCorpus testament) (toUpperCase book).
Proof.
  intros Herrors Hlabelled%allLabelled.
  pose proof (doAlignmentQuery_run result tokenLookup Herrors) as Hrun.
  rewrite Hlabelled in Hrun. rewrite Hrun. cbn [fst].
  rewrite <-!withDocSets_book. unfold indexStale, bookIndex, sourceCorpus, eqb. cbv zeta.
  rewrite orb_false_iff, !negb_false_iff, !bool_decide_eq_true.
  assert (bool_decide (Some testament = Some (js "old")) = bool_decide (testament = js "old"))
    as -> by (apply bool_decide_ext; split; congruence).
  by destruct (bool_decide (testament = js "old")).
Qed.

End Stale.

Lemma index_complete_after_query_witness :
  indexStale (doAlignmentQuery Example.queryResult ∅).1 (js "mat") (Some (js "new")) = false
  ↔ hasDocument (qr_docSets Example.queryResult) (js "ult") (toUpperCase (js "mat"))
    ∧ hasDocument (qr_docSets Example.queryResult) (sourceCorpus (js "new"))
        (toUpperCase (js "mat")).
Proof.
  apply index_complete_after_query; [reflexivity|].
  apply allLabelled. vm_compute. reflexivity.
Defined.
